(** * Program minimisation of the Souffle AST pipeline

    A shallow embedding of [src/ast/transform/MinimiseProgramTransformer.cpp]
    and the properties its specification states about it.

    Layout: the error monad and vector accesses, the AST, the permutation
    enumerator, the variable-mapping checker and the equivalence oracle, the
    four sub-passes and the driver; then the theorems. *)

From stdpp Require Import gmap strings list fin_maps.

Open Scope string_scope.
Open Scope list_scope.
Open Scope nat_scope.

(* ===================================================================== *)
(** ** Outcomes of a C++ computation *)
(* ===================================================================== *)

(** A call either returns a value, or runs into undefined behaviour (a
    [std::vector] read or written past its end, a failed [assert]), or, in
    the model only, uses up the iteration budget given to a [while] loop. *)
Inductive Outcome (A : Type) : Type :=
  | Ok (a : A)
  | Undefined
  | OutOfFuel.
Arguments Ok {A} a.
Arguments Undefined {A}.
Arguments OutOfFuel {A}.

Definition bind {A B : Type} (c : Outcome A) (k : A -> Outcome B) : Outcome B :=
  match c with
  | Ok a => k a
  | Undefined => Undefined
  | OutOfFuel => OutOfFuel
  end.

Notation "'let*' x ':=' c1 'in' c2" := (bind c1 (fun x => c2))
  (at level 10, x name, c1 at level 100, c2 at level 200).

Definition isOk {A : Type} (c : Outcome A) : bool :=
  match c with Ok _ => true | _ => false end.

(** [v[i]] on a [std::vector]: defined only below [v.size()]. *)
Definition vecAt {A : Type} (v : list A) (i : nat) : Outcome A :=
  match v !! i with
  | Some x => Ok x
  | None => Undefined
  end.

(** [v[i] = x] on a [std::vector]. *)
Definition vecSet {A : Type} (v : list A) (i : nat) (x : A) : Outcome (list A) :=
  if decide (i < length v) then Ok (<[i:=x]> v) else Undefined.

(** [for (x : xs) { st = f(st, x) }] where the body may fail. *)
Fixpoint foldOutcome {A S : Type} (f : S -> A -> Outcome S) (xs : list A) (st : S)
  : Outcome S :=
  match xs with
  | [] => Ok st
  | x :: xs' => let* st' := f st x in foldOutcome f xs' st'
  end.

(* ===================================================================== *)
(** ** The AST, as far as the transformer looks at it *)
(* ===================================================================== *)

(** [AstQualifiedName]: a sequence of name segments. *)
Definition AstQualifiedName := list string.

(** The optional type tag of a numeric constant. *)
Inductive NumericType := NInt | NUint | NFloat.

(** [AstArgument] and the subclasses the transformer distinguishes.  The
    constants are [AstStringConstant], [AstNumericConstant] and [AstNilConstant];
    functors and record constructors carry nested arguments. *)
#[warnings="-register-all"] Inductive AstArgument : Type :=
  | AstVariable (name : string)
  | AstUnnamedVariable
  | AstCounter
  | AstStringConstant (value : string)
  | AstNumericConstant (value : string) (ty : option NumericType)
  | AstNilConstant
  | AstFunctor (op : string) (args : list AstArgument)
  | AstRecordInit (args : list AstArgument).

Record AstAtom := mkAtom {
  getQualifiedName : AstQualifiedName;
  getArguments : list AstArgument
}.

(** [AstLiteral]: atoms, negated atoms and constraints. *)
Inductive AstLiteral : Type :=
  | Atom (a : AstAtom)
  | Negation (a : AstAtom)
  | BinaryConstraint (op : string) (lhs rhs : AstArgument)
  | BooleanConstraint (b : bool).

Record AstClause := mkClause {
  getHead : AstAtom;
  getBodyLiterals : list AstLiteral
}.

Record AstRelation := mkRelation {
  relName : AstQualifiedName;
  relArity : nat
}.

Record AstProgram := mkProgram {
  getRelations : list AstRelation;
  programClauses : list AstClause
}.

(** A translation unit owns the program; of its analyses only the I/O
    oracle is used. *)
Record AstTranslationUnit := mkTU {
  getProgram : AstProgram;
  isIO : AstRelation -> bool
}.

(** *** Structural equality of AST nodes ([operator==]) *)

Global Instance NumericType_eq_dec : EqDecision NumericType.
Proof. solve_decision. Defined.

Fixpoint Argument_eqb (a b : AstArgument) {struct a} : bool :=
  let fix args_eqb (xs ys : list AstArgument) {struct xs} : bool :=
    match xs, ys with
    | [], [] => true
    | x :: xs', y :: ys' => Argument_eqb x y && args_eqb xs' ys'
    | _, _ => false
    end in
  match a, b with
  | AstVariable x, AstVariable y => bool_decide (x = y)
  | AstUnnamedVariable, AstUnnamedVariable => true
  | AstCounter, AstCounter => true
  | AstStringConstant x, AstStringConstant y => bool_decide (x = y)
  | AstNumericConstant x tx, AstNumericConstant y ty => bool_decide (x = y) && bool_decide (tx = ty)
  | AstNilConstant, AstNilConstant => true
  | AstFunctor f xs, AstFunctor g ys => bool_decide (f = g) && args_eqb xs ys
  | AstRecordInit xs, AstRecordInit ys => args_eqb xs ys
  | _, _ => false
  end.

Fixpoint Arguments_eqb (xs ys : list AstArgument) : bool :=
  match xs, ys with
  | [], [] => true
  | x :: xs', y :: ys' => Argument_eqb x y && Arguments_eqb xs' ys'
  | _, _ => false
  end.

Definition Atom_eqb (a b : AstAtom) : bool :=
  bool_decide (getQualifiedName a = getQualifiedName b) && Arguments_eqb (getArguments a) (getArguments b).

Definition Literal_eqb (l r : AstLiteral) : bool :=
  match l, r with
  | Atom a, Atom b => Atom_eqb a b
  | Negation a, Negation b => Atom_eqb a b
  | BinaryConstraint o a1 a2, BinaryConstraint p b1 b2 =>
      bool_decide (o = p) && Argument_eqb a1 b1 && Argument_eqb a2 b2
  | BooleanConstraint a, BooleanConstraint b => bool_decide (a = b)
  | _, _ => false
  end.

Fixpoint Literals_eqb (xs ys : list AstLiteral) : bool :=
  match xs, ys with
  | [], [] => true
  | x :: xs', y :: ys' => Literal_eqb x y && Literals_eqb xs' ys'
  | _, _ => false
  end.

Definition Clause_eqb (c d : AstClause) : bool :=
  Atom_eqb (getHead c) (getHead d) && Literals_eqb (getBodyLiterals c) (getBodyLiterals d).

(** *** Depth-first visits ([visitDepthFirst]) *)

(** Every argument node below an argument, the node itself first. *)
Fixpoint argNodes (a : AstArgument) : list AstArgument :=
  let fix nodes (xs : list AstArgument) : list AstArgument :=
    match xs with
    | [] => []
    | x :: xs' => argNodes x ++ nodes xs'
    end in
  match a with
  | AstFunctor _ xs => a :: nodes xs
  | AstRecordInit xs => a :: nodes xs
  | _ => [a]
  end.

Definition atomArgNodes (a : AstAtom) : list AstArgument :=
  flat_map argNodes (getArguments a).

Definition literalArgNodes (l : AstLiteral) : list AstArgument :=
  match l with
  | Atom a => atomArgNodes a
  | Negation a => atomArgNodes a
  | BinaryConstraint _ lhs rhs => argNodes lhs ++ argNodes rhs
  | BooleanConstraint _ => []
  end.

(** All argument nodes of a clause: the head's, then the body's. *)
Definition clauseArgNodes (c : AstClause) : list AstArgument :=
  atomArgNodes (getHead c) ++ flat_map literalArgNodes (getBodyLiterals c).

Definition isVariable (a : AstArgument) : bool :=
  match a with AstVariable _ => true | _ => false end.

Definition isConstant (a : AstArgument) : bool :=
  match a with
  | AstStringConstant _ | AstNumericConstant _ _ | AstNilConstant => true
  | _ => false
  end.

Definition isNilConstant (a : AstArgument) : bool :=
  match a with AstNilConstant => true | _ => false end.

(** The names met by [visitDepthFirst(clause, [](const AstVariable&) ...)]. *)
Definition clauseVariableNames (c : AstClause) : list string :=
  omap (fun a => match a with AstVariable x => Some x | _ => None end) (clauseArgNodes c).

Definition isAtom (l : AstLiteral) : bool :=
  match l with Atom _ => true | _ => false end.

(** [dynamic_cast<AstAtom*>(lit)], with the [assert] that it succeeds. *)
Definition asAtom (l : AstLiteral) : Outcome AstAtom :=
  match l with Atom a => Ok a | _ => Undefined end.

(* ===================================================================== *)
(** ** Permutation enumerator ([extractPermutations]) *)
(* ===================================================================== *)

(** Vectors of [unsigned int] hold row and column indices and 0/1 flags; a
    square matrix that fits in memory has fewer than [2^32] rows, so the
    conversions between [size_t] and [unsigned int] never truncate and the
    values are modelled as [nat]. *)

(** Inner [for] loop over the columns [js] of one row:
    [if (permutationMatrix[i][j] == 1) currentRow.push_back(j)]. *)
Fixpoint currentRowOf (row : list nat) (js : list nat) : Outcome (list nat) :=
  match js with
  | [] => Ok []
  | j :: js' =>
      let* x := vecAt row j in
      let* rest := currentRowOf row js' in
      Ok (if x =? 1 then j :: rest else rest)
  end.

(** Outer [for] loop over the row indices [rows]. *)
Fixpoint validMovesOf (permutationMatrix : list (list nat)) (clauseSize : nat)
    (rows : list nat) : Outcome (list (list nat)) :=
  match rows with
  | [] => Ok []
  | i :: rows' =>
      let* row := vecAt permutationMatrix i in
      let* currentRow := currentRowOf row (seq 0 clauseSize) in
      let* rest := validMovesOf permutationMatrix clauseSize rows' in
      Ok (currentRow :: rest)
  end.

(** The local variables of the depth-first search; the top of [todoStack]
    is the head of the list. *)
Record DfsState := mkDfs {
  permutations : list (list nat);
  seen : list nat;
  currentPermutation : list nat;
  todoStack : list (list nat);
  currentIdx : nat
}.

(** How one run of the loop body ends: [continue] (or falling off its end)
    or [break]. *)
Inductive LoopExit :=
  | Continue (s : DfsState)
  | Break (s : DfsState).

(** [currentIdx--; seen[currentPermutation[currentIdx]] = 0;
    currentPermutation.pop_back();], reached with [currentIdx > 0] only. *)
Definition undoLastMove (s : DfsState) : Outcome DfsState :=
  let idx := currentIdx s - 1 in
  let* last := vecAt (currentPermutation s) idx in
  let* seen' := vecSet (seen s) last 0 in
  Ok (mkDfs (permutations s) seen' (removelast (currentPermutation s))
            (todoStack s) idx).

(** One run of the body of [while (!todoStack.empty())]. *)
Definition loopBody (clauseSize : nat) (validMoves : list (list nat))
    (s : DfsState) : Outcome LoopExit :=
  if currentIdx s =? clauseSize then
    (* permutation is complete *)
    let s1 := mkDfs (permutations s ++ [currentPermutation s]) (seen s)
                    (currentPermutation s) (todoStack s) (currentIdx s) in
    if currentIdx s =? 0 then Ok (Break s1)
    else let* s2 := undoLastMove s1 in Ok (Continue s2)
  else
    match todoStack s with
    | [] => Undefined (* top() of an empty stack; excluded by the loop guard *)
    | possibilities :: stack =>
        let popped := mkDfs (permutations s) (seen s) (currentPermutation s)
                            stack (currentIdx s) in
        match possibilities with
        | [] =>
            (* no more possibilities at this point, so undo the last move *)
            if currentIdx s =? 0 then Ok (Break popped)
            else let* s2 := undoLastMove popped in Ok (Continue s2)
        | nextNum :: possibilities' =>
            let stack' := possibilities' :: stack in
            let* flag := vecAt (seen s) nextNum in
            if negb (flag =? 0) then
              (* number already seen in this permutation *)
              Ok (Continue (mkDfs (permutations s) (seen s) (currentPermutation s)
                                  stack' (currentIdx s)))
            else
              let* seen' := vecSet (seen s) nextNum 1 in
              let perm' := currentPermutation s ++ [nextNum] in
              let idx' := S (currentIdx s) in
              if idx' <? clauseSize then
                let* moves := vecAt validMoves idx' in
                Ok (Continue (mkDfs (permutations s) seen' perm' (moves :: stack') idx'))
              else
                Ok (Continue (mkDfs (permutations s) seen' perm' stack' idx'))
        end
    end.

(** The [while] loop, run for at most [fuel] iterations. *)
Fixpoint whileTodo (fuel : nat) (clauseSize : nat) (validMoves : list (list nat))
    (s : DfsState) : Outcome (list (list nat)) :=
  match todoStack s with
  | [] => Ok (permutations s)
  | _ :: _ =>
      match fuel with
      | 0 => OutOfFuel
      | S fuel' =>
          let* r := loopBody clauseSize validMoves s in
          match r with
          | Break s' => Ok (permutations s')
          | Continue s' => whileTodo fuel' clauseSize validMoves s'
          end
      end
  end.

(** A bound on the iterations spent below a stack frame that has [depth]
    positions of the permutation left to fill; every frame offers at most
    [clauseSize] moves. *)
Fixpoint frameBudget (clauseSize depth : nat) : nat :=
  match depth with
  | 0 => 1
  | S depth' => 1 + clauseSize * (1 + frameBudget clauseSize depth')
  end.

Definition extractPermutations (permutationMatrix : list (list nat))
  : Outcome (list (list nat)) :=
  let clauseSize := length permutationMatrix in
  let* validMoves := validMovesOf permutationMatrix clauseSize (seq 0 clauseSize) in
  let* first := vecAt validMoves 0 in
  whileTodo (frameBudget clauseSize clauseSize) clauseSize validMoves
            (mkDfs [] (replicate clauseSize 0) [] [first] 0).

(* ===================================================================== *)
(** ** Bijective equivalence of clauses *)
(* ===================================================================== *)

(** [isValidMove]: can the atom at [leftIdx] of the left clause be matched
    with the atom at [rightIdx] of the right clause?  Index 0 is the head,
    index [k+1] the [k]-th body literal. *)
Definition isValidMove (left : AstClause) (leftIdx : nat)
    (right : AstClause) (rightIdx : nat) : Outcome bool :=
  if (leftIdx =? 0) && (rightIdx =? 0) then
    Ok (bool_decide (getQualifiedName (getHead left) = getQualifiedName (getHead right)))
  else if (leftIdx =? 0) || (rightIdx =? 0) then
    Ok false
  else
    let* leftLit := vecAt (getBodyLiterals left) (leftIdx - 1) in
    let* leftAtom := asAtom leftLit in
    let* rightLit := vecAt (getBodyLiterals right) (rightIdx - 1) in
    let* rightAtom := asAtom rightLit in
    Ok (bool_decide (getQualifiedName leftAtom = getQualifiedName rightAtom)).

(** *** The variable-mapping checker ([isValidPermutation]) *)

(** [i -= 1] on an [unsigned int]: zero wraps around to [2^32 - 1]. *)
Definition UINT_MAX : N := 4294967295%N.

Definition uintPred (i : nat) : N :=
  match i with
  | 0 => UINT_MAX
  | S k => N.of_nat k
  end.

(** [v[i] = x] for an index held in an [unsigned int]. *)
Definition vecSetN {A : Type} (v : list A) (i : N) (x : A) : Outcome (list A) :=
  if decide (i < N.of_nat (length v))%N then vecSet v (N.to_nat i) x else Undefined.

(** [for (i = 0; i < bodyPermutation.size(); i++)
       reorderedPermutation[bodyPermutation[i]] = i;] from index [i] on. *)
Fixpoint invertPermutation (bodyPermutation : list N) (i : nat)
    (reorderedPermutation : list nat) : Outcome (list nat) :=
  match bodyPermutation with
  | [] => Ok reorderedPermutation
  | target :: rest =>
      let* reordered' := vecSetN reorderedPermutation target i in
      invertPermutation rest (S i) reordered'
  end.

(** The positions of the body literals that are atoms. *)
Fixpoint atomPositionsFrom (i : nat) (bodyLiterals : list AstLiteral) : list nat :=
  match bodyLiterals with
  | [] => []
  | lit :: lits =>
      if isAtom lit then i :: atomPositionsFrom (S i) lits
      else atomPositionsFrom (S i) lits
  end.

(** The loop of [reorderAtoms] over the body literals: an atom is replaced
    by the atom that [newOrder] names for the next atom position, any other
    literal stays. *)
Fixpoint reorderedBody (bodyLiterals : list AstLiteral) (atomPositions newOrder : list nat)
    (lits : list AstLiteral) (currentAtom : nat) : Outcome (list AstLiteral) :=
  match lits with
  | [] => Ok []
  | lit :: lits' =>
      if isAtom lit then
        let* k := vecAt newOrder currentAtom in
        let* pos := vecAt atomPositions k in
        let* moved := vecAt bodyLiterals pos in
        let* rest := reorderedBody bodyLiterals atomPositions newOrder lits' (S currentAtom) in
        Ok (moved :: rest)
      else
        let* rest := reorderedBody bodyLiterals atomPositions newOrder lits' currentAtom in
        Ok (lit :: rest)
  end.

(** Modelled from the spec: [reorderAtoms] belongs to the AST utilities,
    which are not part of the sources at hand.  The specification lets a
    clause "reorder body atoms by a given permutation vector", and the
    caller documents the convention: [newOrder[i] == j] means that position
    [i] of the new body holds atom [j] of the old one.  Literals that are
    not atoms stay where they are; the vector must be a permutation of the
    atom indices. *)
Definition reorderAtoms (clause : AstClause) (newOrder : list nat) : Outcome AstClause :=
  let bodyLiterals := getBodyLiterals clause in
  let atomPositions := atomPositionsFrom 0 bodyLiterals in
  if negb (length newOrder =? length atomPositions) then Undefined
  else if negb (forallb (fun i => existsb (Nat.eqb i) newOrder)
                        (seq 0 (length atomPositions))) then Undefined
  else
    let* newBody := reorderedBody bodyLiterals atomPositions newOrder bodyLiterals 0 in
    Ok (mkClause (getHead clause) newBody).

(** Modelled from the spec: [castEq<T>] belongs to the container utilities,
    which are not part of the sources at hand.  Both arguments must be of
    class [T] and equal: string constants "require equal string values",
    numeric constants "equal numeric values (with identical kind)". *)
Definition castEqStringConstant (l r : AstArgument) : bool :=
  match l, r with
  | AstStringConstant x, AstStringConstant y => bool_decide (x = y)
  | _, _ => false
  end.

Definition castEqNumericConstant (l r : AstArgument) : bool :=
  match l, r with
  | AstNumericConstant x tx, AstNumericConstant y ty =>
      bool_decide (x = y) && bool_decide (tx = ty)
  | _, _ => false
  end.

(** [std::map<std::string, std::string>]; the empty string stands for a name
    that has no image yet.  Every name read with [operator[]] below has been entered
    by the initial visit, so reading never adds a key. *)
Definition readMap (variableMap : gmap string string) (name : string) : string :=
  default EmptyString (variableMap !! name).

Definition initialVariableMap (names : list string) : gmap string string :=
  foldl (fun m x => <[x:=EmptyString]> m) ∅ names.

(** The state of the two nested loops: the map, [validMapping], and whether
    the inner loop was left through [break]. *)
Record MatchState := mkMatch {
  variableMap : gmap string string;
  validMapping : bool;
  broken : bool
}.

(** The body of the inner loop for one pair of arguments. *)
Definition matchArgument (st : MatchState) (leftArg rightArg : AstArgument) : MatchState :=
  match leftArg, rightArg with
  | AstVariable leftVarName, AstVariable rightVarName =>
      let currentMap := readMap (variableMap st) leftVarName in
      if bool_decide (currentMap = EmptyString) then
        mkMatch (<[leftVarName:=rightVarName]> (variableMap st)) (validMapping st) false
      else if bool_decide (currentMap ≠ rightVarName) then
        mkMatch (variableMap st) false true
      else st
  | _, _ =>
      if castEqStringConstant leftArg rightArg then
        mkMatch (variableMap st) true false
      else if castEqNumericConstant leftArg rightArg then
        mkMatch (variableMap st) true false
      else if isNilConstant leftArg then
        mkMatch (variableMap st) (isNilConstant rightArg) false
      else
        mkMatch (variableMap st) false true
  end.

(** [for (j = 0; j < leftArgs.size(); j++)], reading [rightArgs[j]]. *)
Fixpoint matchArguments (st : MatchState) (leftArgs rightArgs : list AstArgument)
  : Outcome MatchState :=
  match leftArgs with
  | [] => Ok st
  | leftArg :: leftArgs' =>
      match rightArgs with
      | [] => Undefined
      | rightArg :: rightArgs' =>
          let st' := matchArgument st leftArg rightArg in
          if broken st' then Ok st' else matchArguments st' leftArgs' rightArgs'
      end
  end.

(** [for (i = 0; i < leftAtoms.size() && validMapping; i++)], reading
    [rightAtoms[i]]. *)
Fixpoint matchAtoms (st : MatchState) (leftAtoms rightAtoms : list AstLiteral)
  : Outcome MatchState :=
  match leftAtoms with
  | [] => Ok st
  | leftLit :: leftAtoms' =>
      if negb (validMapping st) then Ok st
      else
        match rightAtoms with
        | [] => Undefined
        | rightLit :: rightAtoms' =>
            let* leftAtom := asAtom leftLit in
            let* rightAtom := asAtom rightLit in
            let* st' := matchArguments (mkMatch (variableMap st) (validMapping st) false)
                                       (getArguments leftAtom) (getArguments rightAtom) in
            matchAtoms st' leftAtoms' rightAtoms'
        end
  end.

(** The whole of [isValidPermutation], keeping the final [variableMap]
    next to the returned [validMapping]. *)
Definition checkPermutation (left right : AstClause) (permutation : list nat)
  : Outcome MatchState :=
  match permutation with
  | [] => Undefined (* permutation.begin() + 1 is past the end *)
  | _ :: tail =>
      let bodyPermutation := map uintPred tail in
      let* reorderedPermutation :=
        invertPermutation bodyPermutation 0 (replicate (length bodyPermutation) 0) in
      let* reorderedLeft := reorderAtoms left reorderedPermutation in
      let variableMap0 := initialVariableMap (clauseVariableNames reorderedLeft) in
      let leftAtoms := getBodyLiterals reorderedLeft ++ [Atom (getHead reorderedLeft)] in
      let rightAtoms := getBodyLiterals right ++ [Atom (getHead right)] in
      matchAtoms (mkMatch variableMap0 true false) leftAtoms rightAtoms
  end.

Definition isValidPermutation (left right : AstClause) (permutation : list nat)
  : Outcome bool :=
  let* st := checkPermutation left right permutation in
  Ok (validMapping st).

(** *** The oracle ([areBijectivelyEquivalent]) *)

Definition isPrimitive (arg : AstArgument) : bool :=
  isVariable arg || isConstant arg.

(** The lambda [isValidClause]: all body literals are atoms and all
    arguments are variables or constants. *)
Definition isValidClause (clause : AstClause) : bool :=
  forallb isAtom (getBodyLiterals clause) && forallb isPrimitive (clauseArgNodes clause).

Definition getArity (a : AstAtom) : nat := length (getArguments a).

(** [std::set<std::string>] of the variable names of a clause. *)
Definition variableNameSet (clause : AstClause) : gset string :=
  list_to_set (clauseVariableNames clause).

(** [permutationMatrix[i][j] = 1]. *)
Definition setEntry (m : list (list nat)) (i j : nat) : Outcome (list (list nat)) :=
  let* row := vecAt m i in
  let* row' := vecSet row j 1 in
  vecSet m i row'.

(** The matrix handed to [extractPermutations]: [size] rows of [size] zeros,
    then [permutationMatrix[0][0] = 1], then the two nested loops over the
    body positions. *)
Definition permutationMatrixOf (left right : AstClause) : Outcome (list (list nat)) :=
  let size := length (getBodyLiterals left) + 1 in
  let* m0 := setEntry (replicate size (replicate size 0)) 0 0 in
  foldOutcome (fun m i =>
    foldOutcome (fun m' j =>
      let* ok := isValidMove left i right j in
      if ok then setEntry m' i j else Ok m') (seq 1 (size - 1)) m)
    (seq 1 (size - 1)) m0.

(** [for (auto permutation : permutations) if (isValidPermutation(...))
    return true;] and [return false] after the loop. *)
Fixpoint anyValidPermutation (left right : AstClause) (perms : list (list nat))
  : Outcome bool :=
  match perms with
  | [] => Ok false
  | permutation :: perms' =>
      let* ok := isValidPermutation left right permutation in
      if ok then Ok true else anyValidPermutation left right perms'
  end.

Definition areBijectivelyEquivalent (left right : AstClause) : Outcome bool :=
  if negb (isValidClause left) || negb (isValidClause right) then Ok false
  else if negb (length (getBodyLiterals left) =? length (getBodyLiterals right)) then Ok false
  else if negb (getArity (getHead left) =? getArity (getHead right)) then Ok false
  else if negb (size (variableNameSet left) =? size (variableNameSet right)) then Ok false
  else
    let* permutationMatrix := permutationMatrixOf left right in
    let* perms := extractPermutations permutationMatrix in
    anyValidPermutation left right perms.

(** *** Notation for test clauses *)

Definition atom (name : string) (args : list AstArgument) : AstLiteral :=
  Atom (mkAtom [name] args).
Definition rule (name : string) (args : list AstArgument) (body : list AstLiteral)
  : AstClause := mkClause (mkAtom [name] args) body.
Definition var (x : string) : AstArgument := AstVariable x.
Definition num (x : string) : AstArgument := AstNumericConstant x None.
Definition str (x : string) : AstArgument := AstStringConstant x.

(* ===================================================================== *)
(** ** Program access *)
(* ===================================================================== *)

(** An [AstClause*] is modelled by the position of the clause in the
    program's clause vector together with the clause it points to. *)
Definition ClausePtr : Type := nat * AstClause.

Fixpoint clausesFrom (i : nat) (cs : list AstClause) (name : AstQualifiedName)
  : list ClausePtr :=
  match cs with
  | [] => []
  | c :: cs' =>
      if bool_decide (getQualifiedName (getHead c) = name)
      then (i, c) :: clausesFrom (S i) cs' name
      else clausesFrom (S i) cs' name
  end.

(** Modelled from the spec: [getClauses(program, relation)] belongs to the
    AST utilities, which are not part of the sources at hand.  It is the
    program's ability "to enumerate relations and their clauses": the
    clauses whose head carries the name of the relation, in program
    order. *)
Definition getClauses (program : AstProgram) (rel : AstRelation) : list ClausePtr :=
  clausesFrom 0 (programClauses program) (relName rel).

(** Modelled from the spec: [getRelation(program, name)] belongs to the AST
    utilities; a relation's "identity = qualified name". *)
Definition getRelation (program : AstProgram) (name : AstQualifiedName)
  : option AstRelation :=
  find (fun rel => bool_decide (relName rel = name)) (getRelations program).

Fixpoint removeFirstClause (cs : list AstClause) (clause : AstClause) : list AstClause :=
  match cs with
  | [] => []
  | c :: cs' => if Clause_eqb c clause then cs' else c :: removeFirstClause cs' clause
  end.

(** Modelled from the spec: [AstProgram::removeClause] is not part of the
    sources at hand; the program can "remove a clause (by structural
    match)".  The first clause structurally equal to the given one goes. *)
Definition removeClause (program : AstProgram) (clause : AstClause) : AstProgram :=
  mkProgram (getRelations program) (removeFirstClause (programClauses program) clause).

Fixpoint removeFirstRelation (rels : list AstRelation) (name : AstQualifiedName)
  : list AstRelation :=
  match rels with
  | [] => []
  | r :: rels' =>
      if bool_decide (relName r = name) then rels' else r :: removeFirstRelation rels' name
  end.

(** Modelled from the spec: [AstProgram::removeRelation] is not part of the
    sources at hand; the program can "remove a relation (by name)". *)
Definition removeRelation (program : AstProgram) (name : AstQualifiedName) : AstProgram :=
  mkProgram (removeFirstRelation (getRelations program) name) (programClauses program).

(** Modelled from the spec: [AstProgram::addClause] is not part of the
    sources at hand; the program can "add a clause", which joins the end of
    the clause sequence. *)
Definition addClause (program : AstProgram) (clause : AstClause) : AstProgram :=
  mkProgram (getRelations program) (programClauses program ++ [clause]).

Definition withProgram (tu : AstTranslationUnit) (program : AstProgram)
  : AstTranslationUnit := mkTU program (isIO tu).

(* ===================================================================== *)
(** ** Body Deduplicator ([reduceClauseBodies]) *)
(* ===================================================================== *)

(** [for (j = 0; j < i; j++) if (bodyLiterals[i] equals bodyLiterals[j])]:
    the first position [j] among the [earlier] literals that holds a
    literal equal to [lit]. *)
Fixpoint firstEqualPosition (lit : AstLiteral) (earlier : list AstLiteral) (j : nat)
  : option nat :=
  match earlier with
  | [] => None
  | e :: earlier' =>
      if Literal_eqb lit e then Some j else firstEqualPosition lit earlier' (S j)
  end.

(** The two nested loops that fill [redundantPositions]. *)
Definition redundantPositionsOf (bodyLiterals : list AstLiteral) : gset nat :=
  foldl (fun (acc : gset nat) i =>
           match bodyLiterals !! i with
           | Some lit =>
               match firstEqualPosition lit (take i bodyLiterals) 0 with
               | Some j => {[j]} ∪ acc   (* redundantPositions.insert(j); break; *)
               | None => acc
               end
           | None => acc
           end)
        ∅ (seq 0 (length bodyLiterals)).

(** [for (i ...) if (!contains(redundantPositions, i)) addToBody(...)]. *)
Fixpoint keepFrom (i : nat) (bodyLiterals : list AstLiteral) (redundant : gset nat)
  : list AstLiteral :=
  match bodyLiterals with
  | [] => []
  | lit :: lits =>
      if decide (i ∈ redundant) then keepFrom (S i) lits redundant
      else lit :: keepFrom (S i) lits redundant
  end.

(** What the loop body does with one clause: [Some] minimised clause when
    [redundantPositions] is not empty. *)
Definition minimisedClauseOf (clause : AstClause) : option AstClause :=
  let bodyLiterals := getBodyLiterals clause in
  let redundantPositions := redundantPositionsOf bodyLiterals in
  if decide (redundantPositions = ∅) then None
  else Some (mkClause (getHead clause) (keepFrom 0 bodyLiterals redundantPositions)).

(** [clausesToRemove] and [clausesToAdd] are sets keyed by the addresses of
    fresh clones, so every clone is kept and the sets are walked in the
    order of those addresses, which the code does not fix.  The removals
    commute; for the additions the model takes program order, and the
    order of the re-added clauses among themselves is a choice of the
    model: the properties below that speak of the resulting clause
    sequence are stated up to that order. *)
Definition reduceClauseBodies (tu : AstTranslationUnit) : bool * AstTranslationUnit :=
  let program := getProgram tu in
  let changes :=
    omap (fun clause => match minimisedClauseOf clause with
                        | Some minimised => Some (clause, minimised)
                        | None => None
                        end) (programClauses program) in
  let clausesToRemove := map fst changes in
  let clausesToAdd := map snd changes in
  let program1 := foldl removeClause program clausesToRemove in
  let program2 := foldl addClause program1 clausesToAdd in
  (negb (bool_decide (clausesToAdd = [])), withProgram tu program2).

(* ===================================================================== *)
(** ** Self-Implication Filter ([removeRedundantClauses]) *)
(* ===================================================================== *)

(** The lambda [isRedundant]: the head equals one of the body literals. *)
Definition isRedundant (clause : AstClause) : bool :=
  existsb (fun lit => Literal_eqb (Atom (getHead clause)) lit) (getBodyLiterals clause).

Definition removeRedundantClauses (tu : AstTranslationUnit) : bool * AstTranslationUnit :=
  let program := getProgram tu in
  let clausesToRemove := List.filter isRedundant (programClauses program) in
  let program1 := foldl removeClause program clausesToRemove in
  (negb (bool_decide (clausesToRemove = [])), withProgram tu program1).

(* ===================================================================== *)
(** ** Local Equivalence Reducer ([reduceLocallyEquivalentClauses]) *)
(* ===================================================================== *)

(** [for (eqClass : equivalenceClasses)]: the clause joins the first class
    whose representative [eqClass[0]] is equivalent to it. *)
Fixpoint joinClass (equivalenceClasses : list (list AstClause)) (clause : AstClause)
  : Outcome (option (list (list AstClause))) :=
  match equivalenceClasses with
  | [] => Ok None
  | eqClass :: rest =>
      let* rep := vecAt eqClass 0 in
      let* same := areBijectivelyEquivalent rep clause in
      if same then Ok (Some ((eqClass ++ [clause]) :: rest))
      else
        let* joined := joinClass rest clause in
        Ok (option_map (cons eqClass) joined)
  end.

(** [for (clause : getClauses(program, *rel))] with its two results, the
    classes and the clauses to delete. *)
Definition classifyClause (st : list (list AstClause) * list AstClause)
    (clause : AstClause) : Outcome (list (list AstClause) * list AstClause) :=
  let* joined := joinClass st.1 clause in
  match joined with
  | Some equivalenceClasses => Ok (equivalenceClasses, st.2 ++ [clause])
  | None => Ok (st.1 ++ [[clause]], st.2)
  end.

(** [for (rel : program.getRelations())]: the classes start afresh for every
    relation, [clausesToDelete] is shared. *)
Definition classifyRelation (program : AstProgram) (clausesToDelete : list AstClause)
    (rel : AstRelation) : Outcome (list AstClause) :=
  let* st := foldOutcome classifyClause (map snd (getClauses program rel))
                         ([], clausesToDelete) in
  Ok st.2.

Definition reduceLocallyEquivalentClauses (tu : AstTranslationUnit)
  : Outcome (bool * AstTranslationUnit) :=
  let program := getProgram tu in
  let* clausesToDelete :=
    foldOutcome (classifyRelation program) (getRelations program) [] in
  let program1 := foldl removeClause program clausesToDelete in
  Ok (negb (bool_decide (clausesToDelete = [])), withProgram tu program1).

(* ===================================================================== *)
(** ** Singleton Relation Unifier ([reduceSingletonRelations]) *)
(* ===================================================================== *)

(** The first loop: the sole clauses of the relations that are not I/O. *)
Fixpoint singletonRelationClausesOf (isIO : AstRelation -> bool) (program : AstProgram)
    (rels : list AstRelation) : list ClausePtr :=
  match rels with
  | [] => []
  | rel :: rels' =>
      let cs := getClauses program rel in
      if negb (isIO rel) && (length cs =? 1) then
        match cs with
        | clause :: _ => clause :: singletonRelationClausesOf isIO program rels'
        | [] => singletonRelationClausesOf isIO program rels'
        end
      else singletonRelationClausesOf isIO program rels'
  end.

(** [redundantClauses] is a set of clause addresses, [canonicalName] a map
    between qualified names. *)
Record Redundancy := mkRedundancy {
  redundantClauses : gset nat;
  canonicalName : gmap AstQualifiedName AstQualifiedName
}.

(** [std::map::insert] keeps an entry that is already there. *)
Definition mapInsert (m : gmap AstQualifiedName AstQualifiedName)
    (key value : AstQualifiedName) : gmap AstQualifiedName AstQualifiedName :=
  match m !! key with
  | Some _ => m
  | None => <[key:=value]> m
  end.

(** [for (j = i + 1; j < size; j++)] over the clauses after [first]. *)
Fixpoint compareWithLater (first : ClausePtr) (later : list ClausePtr) (st : Redundancy)
  : Outcome Redundancy :=
  match later with
  | [] => Ok st
  | second :: later' =>
      let* same := areBijectivelyEquivalent first.2 second.2 in
      let st' :=
        if same then
          let firstName := getQualifiedName (getHead first.2) in
          let secondName := getQualifiedName (getHead second.2) in
          mkRedundancy ({[second.1]} ∪ redundantClauses st)
                       (mapInsert (canonicalName st) secondName firstName)
        else st in
      compareWithLater first later' st'
  end.

(** [for (i = 0; i < size; i++)], skipping the clauses already found
    redundant. *)
Fixpoint comparePairwise (singletons : list ClausePtr) (st : Redundancy)
  : Outcome Redundancy :=
  match singletons with
  | [] => Ok st
  | first :: later =>
      if decide (first.1 ∈ redundantClauses st) then comparePairwise later st
      else
        let* st' := compareWithLater first later st in
        comparePairwise later st'
  end.

(** [for (clause : redundantClauses)]: the set is walked in address order;
    the clauses in it head different relations, so the removals do not
    interfere and the model walks them in program order. *)
Fixpoint removeRedundantRelations (program : AstProgram) (redundant : list AstClause)
  : Outcome AstProgram :=
  match redundant with
  | [] => Ok program
  | clause :: rest =>
      let relName := getQualifiedName (getHead clause) in
      match getRelation program relName with
      | None => Undefined (* assert(rel != nullptr) *)
      | Some _ =>
          removeRedundantRelations
            (removeRelation (removeClause program clause) relName) rest
      end
  end.

(** The node mapper [replaceRedundantRelations], applied to the atoms of the
    program after their children. *)
Definition renameAtom (names : gmap AstQualifiedName AstQualifiedName) (a : AstAtom)
  : AstAtom :=
  match names !! getQualifiedName a with
  | Some canonical => mkAtom canonical (getArguments a)
  | None => a
  end.

Definition renameLiteral (names : gmap AstQualifiedName AstQualifiedName)
    (lit : AstLiteral) : AstLiteral :=
  match lit with
  | Atom a => Atom (renameAtom names a)
  | Negation a => Negation (renameAtom names a)
  | _ => lit
  end.

Definition renameClause (names : gmap AstQualifiedName AstQualifiedName)
    (clause : AstClause) : AstClause :=
  mkClause (renameAtom names (getHead clause))
           (map (renameLiteral names) (getBodyLiterals clause)).

Definition renameProgram (names : gmap AstQualifiedName AstQualifiedName)
    (program : AstProgram) : AstProgram :=
  mkProgram (getRelations program) (map (renameClause names) (programClauses program)).

(** The analysis part of the pass: the singleton clauses and what the
    pairwise comparison finds. *)
Definition findRedundantSingletons (tu : AstTranslationUnit)
  : Outcome (list ClausePtr * Redundancy) :=
  let program := getProgram tu in
  let singletons := singletonRelationClausesOf (isIO tu) program (getRelations program) in
  let* found := comparePairwise singletons (mkRedundancy ∅ ∅) in
  Ok (singletons, found).

Definition reduceSingletonRelations (tu : AstTranslationUnit)
  : Outcome (bool * AstTranslationUnit) :=
  let program := getProgram tu in
  let* analysis := findRedundantSingletons tu in
  let singletons := analysis.1 in
  let found := analysis.2 in
  let redundant :=
    map snd (List.filter (fun ptr : ClausePtr =>
                            bool_decide (ptr.1 ∈ redundantClauses found)) singletons) in
  let* program1 := removeRedundantRelations program redundant in
  let program2 := renameProgram (canonicalName found) program1 in
  Ok (negb (bool_decide (canonicalName found = ∅)), withProgram tu program2).

(* ===================================================================== *)
(** ** The driver ([MinimiseProgramTransformer::transform]) *)
(* ===================================================================== *)

Definition transform (tu : AstTranslationUnit) : Outcome (bool * AstTranslationUnit) :=
  let changed := false in
  let r1 := reduceClauseBodies tu in
  let changed := changed || r1.1 in
  let r2 := removeRedundantClauses r1.2 in
  let changed := changed || r2.1 in
  let* r3 := reduceLocallyEquivalentClauses r2.2 in
  let changed := changed || r3.1 in
  let* r4 := reduceSingletonRelations r3.2 in
  let changed := changed || r4.1 in
  Ok (changed, r4.2).

(* ===================================================================== *)
(** ** Specification-level notions *)
(* ===================================================================== *)

(** The columns of a row that hold a 1, in increasing order. *)
Definition movesOfRow (clauseSize : nat) (row : list nat) : list nat :=
  List.filter (fun j => match row !! j with Some x => x =? 1 | None => false end)
              (seq 0 clauseSize).


(** What the depth-first search adds to [permutations] while it works off
    the moves [possibilities] of the frame for position [k]: every unseen
    move extends the partial permutation, which is complete when [depth]
    is 0 and otherwise continued with the moves of the next position. *)
Fixpoint completions (validMoves : list (list nat)) (depth k : nat)
    (partial seen possibilities : list nat) : list (list nat) :=
  possibilities ≫=
    (fun x =>
       match seen !! x with
       | Some 0 =>
           match depth with
           | 0 => [partial ++ [x]]
           | S depth' =>
               completions validMoves depth' (S k) (partial ++ [x]) (<[x:=1]> seen)
                           (default [] (validMoves !! S k))
           end
       | _ => []
       end).

(** The table [validMoves] of a matrix. *)
Definition movesTable (m : list (list nat)) : list (list nat) :=
  map (fun i => movesOfRow (length m) (default [] (m !! i))) (seq 0 (length m)).

(** A vector [p] respects a matrix when every position is sent to a column
    that holds a 1 in the row of that position. *)
Definition respectsMatrix (m : list (list nat)) (p : list nat) : Prop :=
  forall i j, p !! i = Some j -> exists row, m !! i = Some row /\ row !! j = Some 1.

(** The admissibility precheck of [areBijectivelyEquivalent]: the four
    tests made before the matrix is set up. *)
Definition passesPrecheck (left right : AstClause) : bool :=
  isValidClause left && isValidClause right
  && (length (getBodyLiterals left) =? length (getBodyLiterals right))
  && (getArity (getHead left) =? getArity (getHead right))
  && (size (variableNameSet left) =? size (variableNameSet right)).

(** The entry the two nested loops leave at [i], [j] of the matrix. *)
Definition matrixEntry (left right : AstClause) (i j : nat) : nat :=
  match i, j with
  | 0, 0 => 1
  | S i', S j' =>
      match getBodyLiterals left !! i', getBodyLiterals right !! j' with
      | Some (Atom a), Some (Atom b) =>
          if bool_decide (getQualifiedName a = getQualifiedName b) then 1 else 0
      | _, _ => 0
      end
  | _, _ => 0
  end.

(** A clause with the qualified name of its head replaced. *)
Definition withHeadName (name : AstQualifiedName) (clause : AstClause) : AstClause :=
  mkClause (mkAtom name (getArguments (getHead clause))) (getBodyLiterals clause).

(** [m[i][j]] read as a partial function. *)
Definition entryAt (m : list (list nat)) (i j : nat) : option nat :=
  match m !! i with
  | Some row => row !! j
  | None => None
  end.

(** An [n] x [n] matrix. *)
Definition isSquare (n : nat) (m : list (list nat)) : Prop :=
  length m = n /\ forall row, row ∈ m -> length row = n.

(** The arguments of a literal that is an atom. *)
Definition literalArguments (lit : AstLiteral) : option (list AstArgument) :=
  match lit with
  | Atom a => Some (getArguments a)
  | _ => None
  end.

(** The four sub-passes by name, and a driver that runs a list of them
    once each, from left to right, joining the change flags with "or". *)
Inductive SubPass :=
  | BodyDeduplicator
  | SelfImplicationFilter
  | LocalEquivalenceReducer
  | SingletonRelationUnifier.

Definition runSubPass (pass : SubPass) (tu : AstTranslationUnit)
  : Outcome (bool * AstTranslationUnit) :=
  match pass with
  | BodyDeduplicator => Ok (reduceClauseBodies tu)
  | SelfImplicationFilter => Ok (removeRedundantClauses tu)
  | LocalEquivalenceReducer => reduceLocallyEquivalentClauses tu
  | SingletonRelationUnifier => reduceSingletonRelations tu
  end.

Fixpoint runInOrder (passes : list SubPass) (changed : bool) (tu : AstTranslationUnit)
  : Outcome (bool * AstTranslationUnit) :=
  match passes with
  | [] => Ok (changed, tu)
  | pass :: passes' =>
      let* r := runSubPass pass tu in
      runInOrder passes' (changed || r.1) r.2
  end.

(** The qualified name of the head of a clause. *)
Definition headName (clause : AstClause) : AstQualifiedName :=
  getQualifiedName (getHead clause).

(** What the pairwise comparison records stays within the singleton
    clauses it is given. *)
Definition withinSingletons (singletons : list ClausePtr) (st : Redundancy) : Prop :=
  (forall i, i ∈ redundantClauses st -> exists ptr, ptr ∈ singletons /\ ptr.1 = i) /\
  (forall k v, canonicalName st !! k = Some v ->
               exists p q, p ∈ singletons /\ q ∈ singletons /\
                           k = headName p.2 /\ v = headName q.2).

(** The representatives [eqClass[0]] of a list of equivalence classes. *)
Definition representatives (equivalenceClasses : list (list AstClause)) : list AstClause :=
  omap head equivalenceClasses.

(** Is the clause equivalent to one of the representatives, tried in order? *)
Fixpoint anyEquivalent (reps : list AstClause) (clause : AstClause) : Outcome bool :=
  match reps with
  | [] => Ok false
  | rep :: reps' =>
      let* same := areBijectivelyEquivalent rep clause in
      if same then Ok true else anyEquivalent reps' clause
  end.

(** Membership of a clause in a list, by structural equality. *)
Definition memClause (clause : AstClause) (cs : list AstClause) : bool :=
  existsb (Clause_eqb clause) cs.

(** The clauses of a program that carry a given head name. *)
Definition clausesNamed (name : AstQualifiedName) (cs : list AstClause) : list AstClause :=
  List.filter (fun c => bool_decide (headName c = name)) cs.

(** The clauses a relation keeps can be classified again, from classes with
    the same representatives, without any of them being deleted. *)
Definition keptAgain (reps kept : list AstClause) : Prop :=
  forall classes2 del2,
    Forall (fun eqClass => eqClass <> []) classes2 ->
    representatives classes2 = reps ->
    exists classes2', foldOutcome classifyClause kept (classes2, del2) = Ok (classes2', del2).

(** Body atoms of the two clauses that carry the same qualified name have
    the same number of arguments. *)
Definition aritiesAgree (left right : AstClause) : Prop :=
  forall a b,
    Atom a ∈ getBodyLiterals left -> Atom b ∈ getBodyLiterals right ->
    getQualifiedName a = getQualifiedName b -> getArity a = getArity b.

(** A program is well formed for the minimiser when its relations have
    distinct names and equally named body atoms have equal arities
    throughout its clauses. *)
Definition aritiesAgreeIn (cs : list AstClause) : Prop :=
  forall c d, c ∈ cs -> d ∈ cs -> aritiesAgree c d.

Definition wellFormed (program : AstProgram) : Prop :=
  NoDup (map relName (getRelations program)) /\ aritiesAgreeIn (programClauses program).

(** Every body of [cs'] lies within a body of [cs]. *)
Definition bodiesWithin (cs cs' : list AstClause) : Prop :=
  forall c', c' ∈ cs' ->
    exists c, c ∈ cs /\ forall lit, lit ∈ getBodyLiterals c' -> lit ∈ getBodyLiterals c.

(** Two arguments match under a renaming [phi] of variable names: variables
    through [phi], string and numeric constants by value and kind. *)
Definition argumentsMatch (phi : gmap string string) (l r : AstArgument) : Prop :=
  match l, r with
  | AstVariable u, AstVariable v => phi !! u = Some v
  | AstStringConstant x, AstStringConstant y => x = y
  | AstNumericConstant x tx, AstNumericConstant y ty => x = y /\ tx = ty
  | _, _ => False
  end.

(** Two literals are atoms whose arguments match one by one. *)
Definition atomsMatch (phi : gmap string string) (l r : AstLiteral) : Prop :=
  exists a b, l = Atom a /\ r = Atom b /\
              Forall2 (argumentsMatch phi) (getArguments a) (getArguments b).

(** Two literals are atoms of the same arity. *)
Definition sameShape (l r : AstLiteral) : Prop :=
  exists a b, l = Atom a /\ r = Atom b /\ getArity a = getArity b.

(** The map [m'] keeps every image that [m] has assigned. *)
Definition extendsMap (m m' : gmap string string) : Prop :=
  forall u v, m !! u = Some v -> v <> EmptyString -> m' !! u = Some v.

(** No argument is the nil constant; no variable has the empty name. *)
Definition nilFree (args : list AstArgument) : Prop :=
  forall arg, arg ∈ args -> isNilConstant arg = false.

Definition properlyNamed (args : list AstArgument) : Prop :=
  forall x, AstVariable x ∈ args -> x <> EmptyString.

(** The atoms of a clause in the order of the lockstep walk: the body, then
    the head. *)
Definition clauseAtoms (clause : AstClause) : list AstLiteral :=
  getBodyLiterals clause ++ [Atom (getHead clause)].

(** The map [phi] is a bijection from the set [X] onto the set [Y]. *)
Definition bijectionBetween (phi : gmap string string) (X Y : gset string) : Prop :=
  (forall u, u ∈ X -> exists v, v ∈ Y /\ phi !! u = Some v) /\
  (forall v, v ∈ Y -> exists u, u ∈ X /\ phi !! u = Some v) /\
  (forall u u' v, u ∈ X -> u' ∈ X -> phi !! u = Some v -> phi !! u' = Some v -> u = u').

(** Two arguments the walk of the checker lets pass under [phi]: they
    match, or both are the nil constant. *)
Definition argumentsPair (phi : gmap string string) (l r : AstArgument) : Prop :=
  match l, r with
  | AstNilConstant, AstNilConstant => True
  | _, _ => argumentsMatch phi l r
  end.

Definition atomsPair (phi : gmap string string) (l r : AstLiteral) : Prop :=
  exists a b, l = Atom a /\ r = Atom b /\
              Forall2 (argumentsPair phi) (getArguments a) (getArguments b).

(** The permutation [p] of the atom positions (0 for the head) and the
    renaming [phi] carry the clause [left] onto the clause [right]: the
    heads are paired, and body atom [k] of [left] is paired with the body
    atom of [right] that [p] sends it to, which has the same name. *)
Definition carriedOnto (p : list nat) (phi : gmap string string)
    (left right : AstClause) : Prop :=
  p ≡ₚ seq 0 (S (length (getBodyLiterals left))) /\
  p !! 0 = Some 0 /\
  Forall2 (argumentsPair phi) (getArguments (getHead left)) (getArguments (getHead right)) /\
  forall k c, p !! S k = Some (S c) ->
    exists a b,
      getBodyLiterals left !! k = Some (Atom a) /\
      getBodyLiterals right !! c = Some (Atom b) /\
      getQualifiedName a = getQualifiedName b /\
      Forall2 (argumentsPair phi) (getArguments a) (getArguments b).

(** The renaming that sends every name of [X] to itself. *)
Definition identityMap (X : gset string) : gmap string string :=
  set_to_map (fun x => (x, x)) X.

(** The inverse of a permutation vector: position [j] holds the index at
    which [p] holds [j]. *)
Fixpoint indexOf (j : nat) (p : list nat) : nat :=
  match p with
  | [] => 0
  | x :: p' => if x =? j then 0 else S (indexOf j p')
  end.

Definition inversePermutation (p : list nat) : list nat :=
  map (fun j => indexOf j p) (seq 0 (length p)).

(** The inverse of a renaming on a set of names. *)
Definition inverseMap (phi : gmap string string) (X : gset string) : gmap string string :=
  list_to_map ((fun u => (default EmptyString (phi !! u), u)) <$> elements X).

(** Every image assigned in [m] is the image under [psi]. *)
Definition agreesWith (m psi : gmap string string) : Prop :=
  forall u w, m !! u = Some w -> w <> EmptyString -> psi !! u = Some w.

(** The qualified name of a literal that is an atom, and the names of the
    body atoms of a clause, in order. *)
Definition atomName (lit : AstLiteral) : option AstQualifiedName :=
  match lit with
  | Atom a => Some (getQualifiedName a)
  | _ => None
  end.

Definition bodyAtomNames (clause : AstClause) : list AstQualifiedName :=
  omap atomName (getBodyLiterals clause).
(** What the pairwise comparison has recorded is justified: every clause
    marked redundant heads a relation that has a canonical name, and every
    entry of [canonicalName] comes from two singleton clauses the oracle
    found equivalent, the second one marked and the first one, which has
    had its turn as [first], not marked. *)
Definition mergesJustified (singletons processed : list ClausePtr) (st : Redundancy) : Prop :=
  (forall i, i ∈ redundantClauses st ->
     exists q, q ∈ singletons /\ q.1 = i /\ is_Some (canonicalName st !! headName q.2)) /\
  (forall k v, canonicalName st !! k = Some v ->
     exists p q, p ∈ processed /\ q ∈ singletons /\ k = headName q.2 /\ v = headName p.2 /\
                 q.1 ∈ redundantClauses st /\ (p.1 ∉ redundantClauses st) /\
                 areBijectivelyEquivalent p.2 q.2 = Ok true).

(** The atoms of a clause: its head and the atoms of its body literals,
    negated or not. *)
Definition literalAtom (lit : AstLiteral) : option AstAtom :=
  match lit with
  | Atom a | Negation a => Some a
  | _ => None
  end.

Definition atomsOfClause (clause : AstClause) : list AstAtom :=
  getHead clause :: omap literalAtom (getBodyLiterals clause).

(* ===================================================================== *)
(** ** Inputs used in the examples *)
(* ===================================================================== *)

(** Two singleton rules that differ in the name of the head and in the
    name of the variable. *)
Definition clauseA : AstClause := rule "A" [var "x"] [atom "C" [var "x"]].
Definition clauseB : AstClause := rule "B" [var "y"] [atom "C" [var "y"]].

(** A rule with a negated body literal, and one with a functor argument. *)
Definition clauseNegated : AstClause :=
  mkClause (mkAtom ["A"] [var "x"]) [atom "C" [var "x"]; Negation (mkAtom ["D"] [var "x"])].
Definition clauseFunctor : AstClause :=
  rule "A" [var "x"] [atom "C" [AstFunctor "+" [var "x"; num "1"]]].

Definition relation1 (name : string) : AstRelation := mkRelation [name] 1.

(** Singleton rules [A] and [B] over an input [C], used by [P] and [Q]. *)
Definition cascadeProgram : AstProgram :=
  mkProgram
    [relation1 "A"; relation1 "B"; relation1 "P"; relation1 "Q"; relation1 "C"]
    [rule "A" [var "x"] [atom "C" [var "x"]];
     rule "B" [var "x"] [atom "C" [var "x"]];
     rule "P" [var "x"] [atom "A" [var "x"]];
     rule "Q" [var "x"] [atom "B" [var "x"]]].

(** Only the relation [C] is I/O. *)
Definition onlyC (rel : AstRelation) : bool := bool_decide (relName rel = ["C"]).

Definition cascade : AstTranslationUnit := mkTU cascadeProgram onlyC.

Definition noIO (rel : AstRelation) : bool := false.

(** A rule that repeats one body atom three times. *)
Definition atomBx : AstLiteral := atom "B" [var "x"].
Definition clauseTriple : AstClause := rule "A" [var "x"] [atomBx; atomBx; atomBx].
Definition tripleUnit : AstTranslationUnit :=
  mkTU (mkProgram [relation1 "A"; relation1 "B"] [clauseTriple]) noIO.

(** Two rules of one relation [H]: the first asks for [A(nil, "a", y)], the
    second for [A(x, "a", x)]. *)
Definition clauseNil : AstClause :=
  rule "H" [var "y"] [atom "A" [AstNilConstant; str "a"; var "y"]].
Definition clauseVar : AstClause :=
  rule "H" [var "x"] [atom "A" [var "x"; str "a"; var "x"]].

(** Two rules with two variables each: [H(x, y) :- A(nil, "c")] and
    [H(a, a) :- A(b, "c")]. *)
Definition clauseTwoLeft : AstClause :=
  rule "H" [var "x"; var "y"] [atom "A" [AstNilConstant; str "c"]].
Definition clauseTwoRight : AstClause :=
  rule "H" [var "a"; var "a"] [atom "A" [var "b"; str "c"]].

(** Three singleton rules with the same body; [B] and the input [C] are
    I/O relations. *)
Definition ioProgram : AstProgram :=
  mkProgram
    [relation1 "A"; relation1 "B"; relation1 "D"; relation1 "C"]
    [rule "A" [var "x"] [atom "C" [var "x"]];
     rule "B" [var "x"] [atom "C" [var "x"]];
     rule "D" [var "x"] [atom "C" [var "x"]]].

Definition ioBC (rel : AstRelation) : bool :=
  bool_decide (relName rel = ["B"]) || bool_decide (relName rel = ["C"]).

Definition ioUnit : AstTranslationUnit := mkTU ioProgram ioBC.

(** The cascade after one and after two runs of the Singleton Relation
    Unifier. *)
Definition cascadeAfterOne : AstProgram :=
  mkProgram
    [relation1 "A"; relation1 "P"; relation1 "Q"; relation1 "C"]
    [rule "A" [var "x"] [atom "C" [var "x"]];
     rule "P" [var "x"] [atom "A" [var "x"]];
     rule "Q" [var "x"] [atom "A" [var "x"]]].

Definition cascadeAfterTwo : AstProgram :=
  mkProgram
    [relation1 "A"; relation1 "P"; relation1 "C"]
    [rule "A" [var "x"] [atom "C" [var "x"]];
     rule "P" [var "x"] [atom "A" [var "x"]]].

(** Scenario 3 of the specification: two rules of [R] that differ in the
    names of their variables. *)
Definition scenario3Unit : AstTranslationUnit :=
  mkTU (mkProgram
          [mkRelation ["R"] 2; mkRelation ["P"] 2; mkRelation ["Q"] 2]
          [rule "R" [var "x"; var "y"] [atom "P" [var "x"; var "z"]; atom "Q" [var "z"; var "y"]];
           rule "R" [var "a"; var "b"] [atom "P" [var "a"; var "c"]; atom "Q" [var "c"; var "b"]]])
       noIO.

(** A relation [H] that holds the rule [clauseVar] twice, around [clauseNil]. *)
Definition duplicateUnit : AstTranslationUnit :=
  mkTU (mkProgram [relation1 "H"; mkRelation ["A"] 3] [clauseVar; clauseNil; clauseVar]) noIO.

(** A join rule, and the same rule with its body atoms swapped and its
    variables renamed. *)
Definition clauseJoin : AstClause :=
  rule "R" [var "x"; var "y"] [atom "P" [var "x"; var "z"]; atom "Q" [var "z"; var "y"]].
Definition clauseJoinSwapped : AstClause :=
  rule "R" [var "a"; var "b"] [atom "Q" [var "c"; var "b"]; atom "P" [var "a"; var "c"]].


(* ===================================================================== *)
(** * Properties *)
(* ===================================================================== *)

(** ** The model at work on small inputs *)

Example extractPermutations_identity3 :
  extractPermutations [[1;0;0];[0;1;1];[0;1;1]] = Ok [[0;1;2];[0;2;1]].
Proof. reflexivity. Qed.

Example extractPermutations_full3 :
  extractPermutations [[1;1;1];[1;1;1];[1;1;1]]
  = Ok [[0;1;2];[0;2;1];[1;0;2];[1;2;0];[2;0;1];[2;1;0]].
Proof. reflexivity. Qed.

Example extractPermutations_dead_row :
  extractPermutations [[1;1];[0;0]] = Ok [].
Proof. reflexivity. Qed.

(** Scenario 5 of the specification: the two body atoms are swapped. *)
Example scenario5 :
  areBijectivelyEquivalent
    (rule "R" [var "x"; var "y"] [atom "P" [var "x"]; atom "Q" [var "y"]])
    (rule "R" [var "x"; var "y"] [atom "Q" [var "y"]; atom "P" [var "x"]])
  = Ok true.
Proof. vm_compute. reflexivity. Qed.

(** Scenario 3: renamed variables. *)
Example scenario3 :
  areBijectivelyEquivalent
    (rule "R" [var "x"; var "y"] [atom "P" [var "x"; var "z"]; atom "Q" [var "z"; var "y"]])
    (rule "R" [var "a"; var "b"] [atom "P" [var "a"; var "c"]; atom "Q" [var "c"; var "b"]])
  = Ok true.
Proof. vm_compute. reflexivity. Qed.

(** Scenario 6: different constants. *)
Example scenario6 :
  areBijectivelyEquivalent
    (rule "R" [num "1"] [atom "P" [num "1"]])
    (rule "R" [num "2"] [atom "P" [num "2"]])
  = Ok false.
Proof. vm_compute. reflexivity. Qed.


(** ** Vector accesses *)

Lemma vecAt_Some {A : Type} (v : list A) (i : nat) (x : A) :
  v !! i = Some x -> vecAt v i = Ok x.
Proof. unfold vecAt. intros ->. reflexivity. Qed.

Lemma vecAt_Ok {A : Type} (v : list A) (i : nat) (x : A) :
  vecAt v i = Ok x -> v !! i = Some x.
Proof. unfold vecAt. destruct (v !! i); congruence. Qed.

Lemma vecSet_lt {A : Type} (v : list A) (i : nat) (x : A) :
  i < length v -> vecSet v i x = Ok (<[i:=x]> v).
Proof. unfold vecSet. intros H. destruct (decide (i < length v)); [reflexivity | lia]. Qed.

Lemma bind_Ok {A B : Type} (c : Outcome A) (k : A -> Outcome B) (b : B) :
  bind c k = Ok b -> exists a, c = Ok a /\ k a = Ok b.
Proof. destruct c; simpl; intros H; try discriminate. eauto. Qed.

(** ** Structural equality decides equality *)

(** Induction on arguments that reaches the nested argument lists. *)
Lemma AstArgument_nested_ind (P : AstArgument -> Prop) :
  (forall x, P (AstVariable x)) ->
  P AstUnnamedVariable ->
  P AstCounter ->
  (forall s, P (AstStringConstant s)) ->
  (forall s ty, P (AstNumericConstant s ty)) ->
  P AstNilConstant ->
  (forall op args, Forall P args -> P (AstFunctor op args)) ->
  (forall args, Forall P args -> P (AstRecordInit args)) ->
  forall a, P a.
Proof.
  intros Hvar Hun Hcnt Hstr Hnum Hnil Hfun Hrec.
  fix IH 1. intros [x| | |s|s ty| |op args|args].
  - apply Hvar.
  - exact Hun.
  - exact Hcnt.
  - apply Hstr.
  - apply Hnum.
  - exact Hnil.
  - apply Hfun. induction args as [|a args IHargs]; constructor; [apply IH | exact IHargs].
  - apply Hrec. induction args as [|a args IHargs]; constructor; [apply IH | exact IHargs].
Qed.

Lemma Arguments_eqb_unfold (a b : AstArgument) :
  Argument_eqb a b =
  match a, b with
  | AstVariable x, AstVariable y => bool_decide (x = y)
  | AstUnnamedVariable, AstUnnamedVariable => true
  | AstCounter, AstCounter => true
  | AstStringConstant x, AstStringConstant y => bool_decide (x = y)
  | AstNumericConstant x tx, AstNumericConstant y ty =>
      bool_decide (x = y) && bool_decide (tx = ty)
  | AstNilConstant, AstNilConstant => true
  | AstFunctor f xs, AstFunctor g ys => bool_decide (f = g) && Arguments_eqb xs ys
  | AstRecordInit xs, AstRecordInit ys => Arguments_eqb xs ys
  | _, _ => false
  end.
Proof.
  destruct a, b; reflexivity.
Qed.

Lemma Argument_eqb_eq (a : AstArgument) : forall b, Argument_eqb a b = true <-> a = b.
Proof.
  induction a as [x| | |s|s ty| |op args IH|args IH] using AstArgument_nested_ind;
    intros b; rewrite Arguments_eqb_unfold; destruct b; try (split; [discriminate|congruence]);
    try (split; [reflexivity|reflexivity]).
  - rewrite bool_decide_eq_true. split; congruence.
  - rewrite bool_decide_eq_true. split; congruence.
  - rewrite andb_true_iff, !bool_decide_eq_true. split; [intros [-> ->]; reflexivity|].
    intros H. inversion H. auto.
  - assert (Hargs : Arguments_eqb args args0 = true <-> args = args0).
    { clear op op0. revert args0. induction IH as [|a args Ha _ IHargs]; intros [|b bs];
        simpl; try (split; [discriminate|congruence]); [split; reflexivity|].
      rewrite andb_true_iff, Ha, IHargs. split; [intros [-> ->]; reflexivity|].
      intros H. inversion H. auto. }
    rewrite andb_true_iff, bool_decide_eq_true, Hargs.
    split; [intros [-> ->]; reflexivity|]. intros H. inversion H. auto.
  - assert (Hargs : Arguments_eqb args args0 = true <-> args = args0).
    { revert args0. induction IH as [|a args Ha _ IHargs]; intros [|b bs];
        simpl; try (split; [discriminate|congruence]); [split; reflexivity|].
      rewrite andb_true_iff, Ha, IHargs. split; [intros [-> ->]; reflexivity|].
      intros H. inversion H. auto. }
    rewrite Hargs. split; congruence.
Qed.

Lemma Arguments_eqb_eq (xs : list AstArgument) :
  forall ys, Arguments_eqb xs ys = true <-> xs = ys.
Proof.
  induction xs as [|x xs IH]; intros [|y ys]; simpl;
    try (split; [discriminate|congruence]); [split; reflexivity|].
  rewrite andb_true_iff, Argument_eqb_eq, IH. split; [intros [-> ->]; reflexivity|].
  intros H. inversion H. auto.
Qed.

Lemma Atom_eqb_eq (a b : AstAtom) : Atom_eqb a b = true <-> a = b.
Proof.
  unfold Atom_eqb. rewrite andb_true_iff, bool_decide_eq_true, Arguments_eqb_eq.
  destruct a, b; simpl. split; [intros [-> ->]; reflexivity|].
  intros H. inversion H. auto.
Qed.

Lemma Literal_eqb_eq (l r : AstLiteral) : Literal_eqb l r = true <-> l = r.
Proof.
  destruct l, r; simpl; try (split; [discriminate|congruence]).
  - rewrite Atom_eqb_eq. split; congruence.
  - rewrite Atom_eqb_eq. split; congruence.
  - rewrite !andb_true_iff, bool_decide_eq_true, !Argument_eqb_eq.
    split; [intros [[-> ->] ->]; reflexivity|]. intros H. inversion H. auto.
  - rewrite bool_decide_eq_true. split; congruence.
Qed.

Lemma Literals_eqb_eq (xs : list AstLiteral) :
  forall ys, Literals_eqb xs ys = true <-> xs = ys.
Proof.
  induction xs as [|x xs IH]; intros [|y ys]; simpl;
    try (split; [discriminate|congruence]); [split; reflexivity|].
  rewrite andb_true_iff, Literal_eqb_eq, IH. split; [intros [-> ->]; reflexivity|].
  intros H. inversion H. auto.
Qed.

Lemma Clause_eqb_eq (c d : AstClause) : Clause_eqb c d = true <-> c = d.
Proof.
  unfold Clause_eqb. rewrite andb_true_iff, Atom_eqb_eq, Literals_eqb_eq.
  destruct c, d; simpl. split; [intros [-> ->]; reflexivity|].
  intros H. inversion H. auto.
Qed.

Lemma Clause_eqb_refl (c : AstClause) : Clause_eqb c c = true.
Proof. apply Clause_eqb_eq. reflexivity. Qed.

Lemma Clause_eqb_neq (c d : AstClause) : c <> d -> Clause_eqb c d = false.
Proof.
  intros H. destruct (Clause_eqb c d) eqn:E; [|reflexivity].
  apply Clause_eqb_eq in E. contradiction.
Qed.

(** ** The valid moves of a square matrix *)

Lemma currentRowOf_filter (row js : list nat) :
  (forall j, j ∈ js -> j < length row) ->
  currentRowOf row js
  = Ok (List.filter (fun j => match row !! j with Some x => x =? 1 | None => false end) js).
Proof.
  induction js as [|j js IH]; intros Hjs; simpl; [reflexivity|].
  destruct (lookup_lt_is_Some_2 row j) as [x Hx]; [apply Hjs; left|].
  rewrite (vecAt_Some _ _ _ Hx). simpl.
  rewrite IH by (intros; apply Hjs; right; assumption). simpl.
  rewrite Hx. reflexivity.
Qed.

Lemma validMovesOf_square (m : list (list nat)) (clauseSize : nat) (rows : list nat) :
  (forall row, row ∈ m -> clauseSize <= length row) ->
  (forall i, i ∈ rows -> i < length m) ->
  validMovesOf m clauseSize rows
  = Ok (map (fun i => movesOfRow clauseSize (default [] (m !! i))) rows).
Proof.
  intros Hsq. induction rows as [|i rows IH]; intros Hrows; simpl; [reflexivity|].
  destruct (lookup_lt_is_Some_2 m i) as [row Hrow]; [apply Hrows; left|].
  rewrite (vecAt_Some _ _ _ Hrow). simpl.
  rewrite currentRowOf_filter.
  - simpl. rewrite IH by (intros; apply Hrows; right; assumption). simpl.
    rewrite Hrow. reflexivity.
  - intros j Hj. apply elem_of_seq in Hj.
    assert (clauseSize <= length row) by (apply Hsq; eapply list_elem_of_lookup_2; eassumption).
    lia.
Qed.

Lemma movesOfRow_elem (clauseSize : nat) (row : list nat) (j : nat) :
  j ∈ movesOfRow clauseSize row <-> j < clauseSize /\ row !! j = Some 1.
Proof.
  unfold movesOfRow. rewrite list_elem_of_In, filter_In, <- list_elem_of_In, elem_of_seq.
  destruct (row !! j) as [x|]; split.
  - intros [Hj Hx]. apply Nat.eqb_eq in Hx. subst. split; [lia | reflexivity].
  - intros [Hj Hx]. inversion Hx. split; [lia | reflexivity].
  - intros [_ Hx]. discriminate.
  - intros [_ Hx]. discriminate.
Qed.

Lemma movesOfRow_length (clauseSize : nat) (row : list nat) :
  length (movesOfRow clauseSize row) <= clauseSize.
Proof.
  unfold movesOfRow.
  etransitivity; [apply List.filter_length_le | rewrite length_seq; lia].
Qed.

Lemma movesOfRow_NoDup (clauseSize : nat) (row : list nat) :
  NoDup (movesOfRow clauseSize row).
Proof.
  unfold movesOfRow. apply NoDup_ListNoDup, List.NoDup_filter, NoDup_ListNoDup, NoDup_seq.
Qed.

(** ** The depth-first search of [extractPermutations] *)

Lemma completions_nil validMoves depth k partial seen :
  completions validMoves depth k partial seen [] = [].
Proof. destruct depth; reflexivity. Qed.

Lemma completions_cons validMoves depth k partial seen x xs :
  completions validMoves depth k partial seen (x :: xs)
  = match seen !! x with
    | Some 0 =>
        match depth with
        | 0 => [partial ++ [x]]
        | S depth' =>
            completions validMoves depth' (S k) (partial ++ [x]) (<[x:=1]> seen)
                        (default [] (validMoves !! S k))
        end
    | _ => []
    end ++ completions validMoves depth k partial seen xs.
Proof. destruct depth; reflexivity. Qed.

Section DepthFirstSearch.
Variable clauseSize : nat.
Variable validMoves : list (list nat).
Hypothesis validMoves_length : length validMoves = clauseSize.
Hypothesis validMoves_bound :
  forall i row, validMoves !! i = Some row -> length row <= clauseSize.
Hypothesis validMoves_range :
  forall i row x, validMoves !! i = Some row -> x ∈ row -> x < clauseSize.

Lemma whileTodo_step (fuel : nat) (s : DfsState) (top : list nat) (stack : list (list nat)) :
  todoStack s = top :: stack ->
  whileTodo (S fuel) clauseSize validMoves s =
    (let* r := loopBody clauseSize validMoves s in
     match r with
     | Break s' => Ok (permutations s')
     | Continue s' => whileTodo fuel clauseSize validMoves s'
     end).
Proof. intros H. simpl. rewrite H. reflexivity. Qed.

Local Arguments whileTodo : simpl never.

(** Undoing the move [x] just made restores the state before it. *)
Lemma undoLastMove_restore (seen partial : list nat) (ps : list (list nat))
    (stack : list (list nat)) (x : nat) :
  seen !! x = Some 0 ->
  undoLastMove (mkDfs ps (<[x:=1]> seen) (partial ++ [x]) stack (S (length partial)))
  = Ok (mkDfs ps seen partial stack (length partial)).
Proof.
  intros Hx. unfold undoLastMove. simpl. rewrite Nat.sub_0_r.
  rewrite (vecAt_Some _ _ x).
  2:{ rewrite lookup_app_r by lia. rewrite Nat.sub_diag. reflexivity. }
  simpl. rewrite vecSet_lt.
  2:{ rewrite length_insert. eapply lookup_lt_Some. eassumption. }
  simpl. rewrite list_insert_insert_eq, list_insert_id by assumption.
  rewrite removelast_last. reflexivity.
Qed.

(** The four kinds of iteration met below the last position. *)
Lemma step_seen ps seen partial x xs stack k flag fuel :
  k < clauseSize -> seen !! x = Some flag -> flag <> 0 ->
  whileTodo (S fuel) clauseSize validMoves (mkDfs ps seen partial ((x :: xs) :: stack) k)
  = whileTodo fuel clauseSize validMoves (mkDfs ps seen partial (xs :: stack) k).
Proof.
  intros Hk Hx Hflag. erewrite whileTodo_step by reflexivity.
  unfold loopBody. simpl.
  destruct (Nat.eqb_spec k clauseSize) as [->|_]; [lia|].
  rewrite (vecAt_Some _ _ _ Hx). simpl.
  destruct (Nat.eqb_spec flag 0) as [->|_]; [congruence|]. reflexivity.
Qed.

Lemma step_descend ps seen partial x xs stack k moves fuel :
  S k < clauseSize -> seen !! x = Some 0 -> validMoves !! S k = Some moves ->
  whileTodo (S fuel) clauseSize validMoves (mkDfs ps seen partial ((x :: xs) :: stack) k)
  = whileTodo fuel clauseSize validMoves
      (mkDfs ps (<[x:=1]> seen) (partial ++ [x]) (moves :: xs :: stack) (S k)).
Proof.
  intros Hk Hx Hmoves. erewrite whileTodo_step by reflexivity.
  unfold loopBody. simpl.
  destruct (Nat.eqb_spec k clauseSize) as [->|_]; [lia|].
  rewrite (vecAt_Some _ _ _ Hx). simpl.
  rewrite vecSet_lt by (eapply lookup_lt_Some; eassumption). simpl.
  destruct (Nat.ltb_spec (S k) clauseSize) as [_|?]; [|lia].
  rewrite (vecAt_Some _ _ _ Hmoves). reflexivity.
Qed.

Lemma step_complete ps seen partial x xs stack fuel :
  S (length partial) = clauseSize -> seen !! x = Some 0 ->
  whileTodo (S (S fuel)) clauseSize validMoves
            (mkDfs ps seen partial ((x :: xs) :: stack) (length partial))
  = whileTodo fuel clauseSize validMoves
      (mkDfs (ps ++ [partial ++ [x]]) seen partial (xs :: stack) (length partial)).
Proof.
  intros Hk Hx. erewrite whileTodo_step by reflexivity.
  unfold loopBody at 1. simpl.
  destruct (Nat.eqb_spec (length partial) clauseSize) as [E|_]; [lia|].
  rewrite (vecAt_Some _ _ _ Hx). simpl.
  rewrite vecSet_lt by (eapply lookup_lt_Some; eassumption). simpl.
  destruct (Nat.ltb_spec (S (length partial)) clauseSize) as [?|_]; [lia|].
  simpl. erewrite whileTodo_step by reflexivity.
  unfold loopBody. cbn -[Nat.eqb Nat.ltb].
  destruct (Nat.eqb_spec (S (length partial)) clauseSize) as [_|?]; [|lia].
  cbn [Nat.eqb]. rewrite undoLastMove_restore by assumption. reflexivity.
Qed.

Lemma step_pop ps seen partial x stack fuel :
  S (length partial) < clauseSize -> seen !! x = Some 0 ->
  whileTodo (S fuel) clauseSize validMoves
            (mkDfs ps (<[x:=1]> seen) (partial ++ [x]) ([] :: stack) (S (length partial)))
  = whileTodo fuel clauseSize validMoves (mkDfs ps seen partial stack (length partial)).
Proof.
  intros Hk Hx. erewrite whileTodo_step by reflexivity.
  unfold loopBody. cbn -[Nat.eqb Nat.ltb].
  destruct (Nat.eqb_spec (S (length partial)) clauseSize) as [?|_]; [lia|].
  cbn [Nat.eqb]. rewrite undoLastMove_restore by assumption. reflexivity.
Qed.

Lemma step_finish ps seen partial fuel :
  0 < clauseSize ->
  whileTodo (S fuel) clauseSize validMoves (mkDfs ps seen partial [[]] 0) = Ok ps.
Proof.
  intros Hn. erewrite whileTodo_step by reflexivity.
  unfold loopBody. cbn -[Nat.eqb Nat.ltb].
  destruct (Nat.eqb_spec 0 clauseSize) as [?|_]; [lia|]. reflexivity.
Qed.

(** The loop works off the top frame: it reaches the state in which that
    frame is empty, having added the [completions] below it, within the
    frame's budget. *)
Lemma frame_run (depth : nat) :
  forall k possibilities ps seen partial stack,
    k + depth + 1 = clauseSize ->
    length partial = k ->
    length seen = clauseSize ->
    (forall x, x ∈ possibilities -> x < clauseSize) ->
    exists m,
      m <= length possibilities * (1 + frameBudget clauseSize depth) /\
      forall fuel,
        whileTodo (m + fuel) clauseSize validMoves
                  (mkDfs ps seen partial (possibilities :: stack) k)
        = whileTodo fuel clauseSize validMoves
            (mkDfs (ps ++ completions validMoves depth k partial seen possibilities)
                   seen partial ([] :: stack) k).
Proof.
  induction depth as [|depth IHdepth]; intros k possibilities;
    induction possibilities as [|x xs IHxs];
    intros ps seen partial stack Hk Hpartial Hseen Hposs.
  - exists 0. split; [simpl; lia|]. intros fuel.
    rewrite completions_nil, app_nil_r. reflexivity.
  - assert (Hx : x < clauseSize) by (apply Hposs; left).
    destruct (lookup_lt_is_Some_2 seen x) as [flag Hflag]; [lia|].
    assert (Hxs : forall y, y ∈ xs -> y < clauseSize) by (intros; apply Hposs; right; assumption).
    rewrite completions_cons, Hflag.
    destruct flag as [|flag].
    + destruct (IHxs (ps ++ [partial ++ [x]]) seen partial stack Hk Hpartial Hseen Hxs)
        as (m & Hm & Hrun).
      exists (S (S m)). split; [simpl in *; lia|]. intros fuel.
      subst k. simpl plus. rewrite step_complete by (assumption || lia).
      rewrite Hrun, <- app_assoc. reflexivity.
    + destruct (IHxs ps seen partial stack Hk Hpartial Hseen Hxs) as (m & Hm & Hrun).
      exists (S m). split; [simpl in *; lia|]. intros fuel.
      simpl plus. erewrite step_seen by (eassumption || lia).
      rewrite Hrun. reflexivity.
  - exists 0. split; [simpl; lia|]. intros fuel.
    rewrite completions_nil, app_nil_r. reflexivity.
  - assert (Hx : x < clauseSize) by (apply Hposs; left).
    destruct (lookup_lt_is_Some_2 seen x) as [flag Hflag]; [lia|].
    assert (Hxs : forall y, y ∈ xs -> y < clauseSize) by (intros; apply Hposs; right; assumption).
    rewrite completions_cons, Hflag.
    destruct flag as [|flag].
    + destruct (lookup_lt_is_Some_2 validMoves (S k)) as [moves Hmoves]; [lia|].
      rewrite Hmoves. simpl default.
      destruct (IHdepth (S k) moves ps (<[x:=1]> seen) (partial ++ [x]) (xs :: stack))
        as (m1 & Hm1 & Hrun1).
      { lia. }
      { rewrite length_app. simpl. lia. }
      { rewrite length_insert. assumption. }
      { intros y Hy. eapply validMoves_range; eassumption. }
      destruct (IHxs (ps ++ completions validMoves depth (S k) (partial ++ [x])
                                        (<[x:=1]> seen) moves)
                     seen partial stack Hk Hpartial Hseen Hxs) as (m2 & Hm2 & Hrun2).
      exists (S (m1 + S m2)). split.
      { pose proof (validMoves_bound _ _ Hmoves) as Hb.
        assert (m1 <= clauseSize * (1 + frameBudget clauseSize depth)).
        { etransitivity; [exact Hm1|]. apply Nat.mul_le_mono_r. exact Hb. }
        simpl in *. lia. }
      intros fuel. subst k. simpl plus.
      erewrite step_descend by (eassumption || lia).
      rewrite <- Nat.add_assoc, Hrun1. simpl plus.
      rewrite step_pop by (assumption || lia).
      rewrite Hrun2, <- app_assoc. reflexivity.
    + destruct (IHxs ps seen partial stack Hk Hpartial Hseen Hxs) as (m & Hm & Hrun).
      exists (S m). split; [simpl in *; lia|]. intros fuel.
      simpl plus. erewrite step_seen by (eassumption || lia).
      rewrite Hrun. reflexivity.
Qed.

End DepthFirstSearch.

(** Membership in [completions]: the partial permutation continued by a
    duplicate-free run of unseen moves, one from each remaining frame. *)
Lemma insert_one_unseen (seen : list nat) (x y : nat) :
  seen !! x = Some 0 ->
  (<[x:=1]> seen) !! y = Some 0 <-> y <> x /\ seen !! y = Some 0.
Proof.
  intros Hx. destruct (decide (y = x)) as [->|Hne].
  - rewrite list_lookup_insert_eq by (eapply lookup_lt_Some; eassumption).
    split; [discriminate | intros [? _]; congruence].
  - rewrite list_lookup_insert_ne by congruence. tauto.
Qed.

Lemma completions_elem validMoves depth :
  forall k partial seen possibilities (p : list nat),
    p ∈ completions validMoves depth k partial seen possibilities <->
    exists x suffix,
      p = partial ++ x :: suffix /\ length suffix = depth /\
      x ∈ possibilities /\ NoDup (x :: suffix) /\ seen !! x = Some 0 /\
      forall i y, suffix !! i = Some y ->
                  y ∈ default [] (validMoves !! (S k + i)) /\ seen !! y = Some 0.
Proof.
  induction depth as [|depth IH]; intros k partial seen possibilities p.
  - simpl. rewrite list_elem_of_bind. split.
    + intros (x & Hp & Hx). destruct (seen !! x) as [[|?]|] eqn:E;
        try (apply elem_of_nil in Hp; contradiction).
      apply list_elem_of_singleton in Hp. subst p.
      exists x, []. split_and!; auto.
      * apply NoDup_singleton.
      * intros i y Hi. discriminate.
    + intros (x & suffix & -> & Hlen & Hx & _ & Hseen & _).
      destruct suffix; [|discriminate].
      exists x. rewrite Hseen. split; [apply list_elem_of_singleton; reflexivity | assumption].
  - simpl. rewrite list_elem_of_bind. split.
    + intros (x & Hp & Hx). destruct (seen !! x) as [[|?]|] eqn:E;
        try (apply elem_of_nil in Hp; contradiction).
      apply IH in Hp. destruct Hp as (x2 & suffix2 & -> & Hlen & Hx2 & Hnd & Hs2 & Hrest).
      apply (insert_one_unseen _ _ _ E) in Hs2. destruct Hs2 as [Hne Hs2].
      exists x, (x2 :: suffix2). rewrite <- app_assoc. simpl.
      split_and!; auto.
      * apply NoDup_cons. split; [|assumption].
        rewrite elem_of_cons. intros [->|Hin]; [congruence|].
        apply list_elem_of_lookup in Hin. destruct Hin as [i Hi].
        apply Hrest in Hi. destruct Hi as [_ Hi].
        apply (insert_one_unseen _ _ _ E) in Hi. destruct Hi as [Hi _]. congruence.
      * intros i y H. destruct i as [|i]; simpl in H.
        { inversion H; subst. rewrite Nat.add_0_r. split; assumption. }
        apply Hrest in H. destruct H as [H1 H2].
        apply (insert_one_unseen _ _ _ E) in H2. destruct H2 as [_ H2].
        simpl in H1. rewrite Nat.add_succ_r.
        split; assumption.
    + intros (x & suffix & -> & Hlen & Hx & Hnd & Hseen & Hrest).
      destruct suffix as [|x2 suffix2]; [discriminate|].
      exists x. rewrite Hseen. split; [|assumption].
      apply IH. exists x2, suffix2. rewrite <- app_assoc. simpl.
      apply NoDup_cons in Hnd. destruct Hnd as [Hnotin Hnd].
      pose proof (Hrest 0 x2 eq_refl) as H0. rewrite Nat.add_0_r in H0.
      destruct H0 as [H0 H0'].
      split_and!; auto.
      * apply insert_one_unseen; [assumption|]. split; [|assumption].
        intros ->. apply Hnotin. left.
      * intros i y H. specialize (Hrest (S i) y H).
        simpl in Hrest. rewrite Nat.add_succ_r in Hrest.
        destruct Hrest as [Hr Hr']. split; [assumption|].
        apply insert_one_unseen; [assumption|]. split; [|assumption].
        intros ->. apply Hnotin. right. eapply list_elem_of_lookup_2. eassumption.
Qed.

Lemma completions_NoDup validMoves depth :
  (forall i row, validMoves !! i = Some row -> NoDup row) ->
  forall k partial seen possibilities,
    NoDup possibilities ->
    NoDup (completions validMoves depth k partial seen possibilities).
Proof.
  intros Hrows. induction depth as [|depth IH]; intros k partial seen possibilities Hnd.
  - simpl. apply NoDup_bind; [| |assumption].
    + intros x1 x2 p _ _ H1 H2.
      destruct (seen !! x1) as [[|?]|]; try (apply elem_of_nil in H1; contradiction).
      destruct (seen !! x2) as [[|?]|]; try (apply elem_of_nil in H2; contradiction).
      apply list_elem_of_singleton in H1, H2. subst p.
      apply app_inv_head in H2. congruence.
    + intros x _. destruct (seen !! x) as [[|?]|];
        [apply NoDup_singleton | apply NoDup_nil_2 | apply NoDup_nil_2].
  - simpl. apply NoDup_bind; [| |assumption].
    + intros x1 x2 p _ _ H1 H2.
      destruct (seen !! x1) as [[|?]|]; try (apply elem_of_nil in H1; contradiction).
      destruct (seen !! x2) as [[|?]|]; try (apply elem_of_nil in H2; contradiction).
      apply completions_elem in H1, H2.
      destruct H1 as (y1 & s1 & -> & _). destruct H2 as (y2 & s2 & H2 & _).
      rewrite <- !app_assoc in H2. apply app_inv_head in H2. simpl in H2. congruence.
    + intros x _. destruct (seen !! x) as [[|?]|]; [|apply NoDup_nil_2|apply NoDup_nil_2].
      apply IH. destruct (validMoves !! S k) as [row|] eqn:E; simpl.
      * eapply Hrows. eassumption.
      * apply NoDup_nil_2.
Qed.

(** ** [extractPermutations] on a square matrix *)

Lemma movesTable_lookup (m : list (list nat)) (i : nat) :
  i < length m ->
  movesTable m !! i = Some (movesOfRow (length m) (default [] (m !! i))).
Proof.
  intros Hi. unfold movesTable. rewrite list_lookup_fmap, lookup_seq_lt by assumption.
  reflexivity.
Qed.

Lemma movesTable_Some (m : list (list nat)) (i : nat) (row : list nat) :
  movesTable m !! i = Some row ->
  i < length m /\ row = movesOfRow (length m) (default [] (m !! i)).
Proof.
  intros H. assert (Hi : i < length m).
  { apply lookup_lt_Some in H. unfold movesTable in H.
    rewrite length_map, length_seq in H. assumption. }
  rewrite movesTable_lookup in H by assumption. split; congruence.
Qed.

(** The search returns, within the budget, exactly the completions of the
    empty permutation. *)
Lemma extractPermutations_completions (m : list (list nat)) :
  1 <= length m ->
  (forall row, row ∈ m -> length m <= length row) ->
  extractPermutations m
  = Ok (completions (movesTable m) (length m - 1) 0 [] (replicate (length m) 0)
                    (default [] (movesTable m !! 0))).
Proof.
  intros Hn Hsq. unfold extractPermutations.
  rewrite validMovesOf_square; [|assumption|intros i Hi; apply elem_of_seq in Hi; lia].
  fold (movesTable m). simpl bind.
  rewrite (vecAt_Some _ _ _ (movesTable_lookup m 0 ltac:(lia))). simpl bind.
  rewrite movesTable_lookup by lia. simpl default.
  set (first := movesOfRow (length m) (default [] (m !! 0))).
  assert (Hlen : length (movesTable m) = length m).
  { unfold movesTable. rewrite length_map, length_seq. reflexivity. }
  assert (Hbound : forall i row, movesTable m !! i = Some row -> length row <= length m).
  { intros i row Hrow. apply movesTable_Some in Hrow. destruct Hrow as [_ ->].
    apply movesOfRow_length. }
  assert (Hrange : forall i row x, movesTable m !! i = Some row -> x ∈ row -> x < length m).
  { intros i row x Hrow Hx. apply movesTable_Some in Hrow. destruct Hrow as [_ ->].
    apply movesOfRow_elem in Hx. tauto. }
  destruct (frame_run (length m) (movesTable m) Hlen Hbound Hrange (length m - 1) 0 first
                      [] (replicate (length m) 0) [] [])
    as (steps & Hsteps & Hrun).
  { lia. }
  { reflexivity. }
  { apply length_replicate. }
  { intros x Hx. apply movesOfRow_elem in Hx. tauto. }
  - assert (Hfirst : length first <= length m) by apply movesOfRow_length.
    assert (Hbudget : frameBudget (length m) (length m)
                      = S (length m * (1 + frameBudget (length m) (length m - 1)))).
    { destruct (length m) as [|n] eqn:E; [lia|]. simpl. rewrite Nat.sub_0_r. reflexivity. }
    assert (Hle : steps <= length m * (1 + frameBudget (length m) (length m - 1))).
    { etransitivity; [exact Hsteps|]. apply Nat.mul_le_mono_r. exact Hfirst. }
    rewrite Hbudget.
    replace (S (length m * (1 + frameBudget (length m) (length m - 1))))
      with (steps + S (length m * (1 + frameBudget (length m) (length m - 1)) - steps))
      by lia.
    rewrite Hrun, step_finish by lia. reflexivity.
Qed.

(** Duplicate-free vectors of length [n] over [0..n-1] are the permutations
    of [0..n-1]. *)
Lemma permutation_of_range (n : nat) (p : list nat) :
  p ≡ₚ seq 0 n <-> length p = n /\ NoDup p /\ forall x, x ∈ p -> x < n.
Proof.
  split.
  - intros Hp. split_and!.
    + rewrite Hp. apply length_seq.
    + rewrite Hp. apply NoDup_seq.
    + intros x Hx. rewrite Hp in Hx. apply elem_of_seq in Hx. lia.
  - intros (Hlen & Hnd & Hrange).
    apply submseteq_length_Permutation.
    + apply NoDup_submseteq; [assumption|].
      intros x Hx. apply elem_of_seq. specialize (Hrange x Hx). lia.
    + rewrite length_seq. lia.
Qed.

Lemma movesTable_elem (m : list (list nat)) (i y : nat) :
  i < length m ->
  y ∈ default [] (movesTable m !! i) <->
  y < length m /\ exists row, m !! i = Some row /\ row !! y = Some 1.
Proof.
  intros Hi. rewrite movesTable_lookup by assumption. simpl.
  destruct (lookup_lt_is_Some_2 m i Hi) as [row Hrow]. rewrite Hrow. simpl.
  rewrite movesOfRow_elem. split.
  - intros [Hy H1]. split; [assumption|]. exists row. split; [reflexivity | assumption].
  - intros [Hy (row' & Hrow' & H1)]. inversion Hrow'. subst row'. split; assumption.
Qed.

Lemma replicate_unseen (n y : nat) : replicate n 0 !! y = Some 0 <-> y < n.
Proof.
  split.
  - intros H. apply lookup_lt_Some in H. rewrite length_replicate in H. assumption.
  - intros H. apply lookup_replicate_2. assumption.
Qed.

(** The vectors found by the search on a square matrix. *)
Lemma completions_square (m : list (list nat)) (p : list nat) :
  1 <= length m ->
  p ∈ completions (movesTable m) (length m - 1) 0 [] (replicate (length m) 0)
                  (default [] (movesTable m !! 0)) <->
  length p = length m /\ p ≡ₚ seq 0 (length m) /\ respectsMatrix m p.
Proof.
  intros Hn. rewrite completions_elem. split.
  - intros (x & suffix & -> & Hlen & Hx & Hnd & Hseen & Hrest). simpl app.
    assert (Hall : forall i y, (x :: suffix) !! i = Some y ->
                     y < length m /\ exists row, m !! i = Some row /\ row !! y = Some 1).
    { intros i y Hi. destruct i as [|i]; simpl in Hi.
      - inversion Hi; subst. apply movesTable_elem in Hx; [assumption | lia].
      - pose proof (lookup_lt_Some _ _ _ Hi) as Hlt.
        apply Hrest in Hi. destruct Hi as [Hi _].
        apply movesTable_elem in Hi; [assumption | simpl; lia]. }
    split_and!.
    + simpl. lia.
    + apply permutation_of_range. split_and!; [simpl; lia | assumption |].
      intros y Hy. apply list_elem_of_lookup in Hy. destruct Hy as [i Hi].
      apply Hall in Hi. tauto.
    + intros i j Hi. apply Hall in Hi. tauto.
  - intros (Hlen & Hperm & Hresp).
    apply permutation_of_range in Hperm. destruct Hperm as (_ & Hnd & Hrange).
    destruct p as [|x suffix]; [simpl in Hlen; lia|].
    exists x, suffix. simpl in Hlen.
    assert (Hx : x < length m) by (apply Hrange; left).
    split_and!.
    + reflexivity.
    + lia.
    + apply movesTable_elem; [lia|]. split; [assumption|]. apply (Hresp 0 x). reflexivity.
    + assumption.
    + apply replicate_unseen. assumption.
    + intros i y Hi.
      assert (Hy : y < length m).
      { apply Hrange. right. eapply list_elem_of_lookup_2. eassumption. }
      pose proof (lookup_lt_Some _ _ _ Hi) as Hlt.
      split; [|apply replicate_unseen; assumption].
      apply movesTable_elem; [simpl; lia|]. split; [assumption|].
      apply (Hresp (S i) y). exact Hi.
Qed.

(** The enumerator on a square matrix: it returns, each vector once, the
    permutations that respect the matrix. *)
Lemma extractPermutations_square (m : list (list nat)) (n : nat) :
  length m = n -> 1 <= n -> (forall row, row ∈ m -> length row = n) ->
  exists perms,
    extractPermutations m = Ok perms /\
    NoDup perms /\
    (forall p, p ∈ perms <-> length p = n /\ p ≡ₚ seq 0 n /\ respectsMatrix m p) /\
    ((exists i row, m !! i = Some row /\ forall j, row !! j <> Some 1) -> perms = []).
Proof.
  intros Hlen Hn Hsq. subst n.
  eexists. split; [|split; [|split]].
  - apply extractPermutations_completions; [assumption|].
    intros row Hrow. rewrite (Hsq row Hrow). reflexivity.
  - apply completions_NoDup.
    + intros i row Hrow. apply movesTable_Some in Hrow. destruct Hrow as [_ ->].
      apply movesOfRow_NoDup.
    + destruct (movesTable m !! 0) as [row|] eqn:E; simpl; [|apply NoDup_nil_2].
      apply movesTable_Some in E. destruct E as [_ ->]. apply movesOfRow_NoDup.
  - intros p. apply completions_square. assumption.
  - intros (i & row & Hrow & Hdead).
    match goal with |- ?l = [] => destruct l as [|p rest] eqn:E end; [reflexivity|].
    exfalso.
    assert (Hp : p ∈ p :: rest) by left. rewrite <- E in Hp.
    apply completions_square in Hp; [|assumption]. destruct Hp as (Hlen & _ & Hresp).
    pose proof (lookup_lt_Some _ _ _ Hrow) as Hi.
    destruct (lookup_lt_is_Some_2 p i) as [j Hj]; [lia|].
    destruct (Hresp i j Hj) as (row' & Hrow' & H1).
    rewrite Hrow in Hrow'. inversion Hrow'. subst row'.
    exact (Hdead j H1).
Qed.

(** C7. On an [n] x [n] matrix with [n >= 1] the enumerator returns, and the
    vectors it returns, each once, are exactly the permutations [p] of
    [0..n-1] with [M[i][p(i)] = 1] at every position [i]; hence none at all
    when some row holds no 1. *)
Theorem extractPermutations_spec (m : list (list nat)) (n : nat) :
  length m = n -> 1 <= n -> (forall row, row ∈ m -> length row = n) ->
  exists perms,
    extractPermutations m = Ok perms /\
    NoDup perms /\
    (forall p, p ∈ perms <-> length p = n /\ p ≡ₚ seq 0 n /\ respectsMatrix m p) /\
    ((exists i row, m !! i = Some row /\ forall j, row !! j <> Some 1) -> perms = []).
Proof. apply extractPermutations_square. Qed.

Lemma extractPermutations_spec_witness :
  exists perms,
    extractPermutations [[1;0;0];[0;1;1];[0;1;1]] = Ok perms /\
    NoDup perms /\
    (forall p, p ∈ perms <->
               length p = 3 /\ p ≡ₚ seq 0 3 /\ respectsMatrix [[1;0;0];[0;1;1];[0;1;1]] p) /\
    ((exists i row, [[1;0;0];[0;1;1];[0;1;1]] !! i = Some row /\
                    forall j, row !! j <> Some 1) -> perms = []).
Proof.
  apply (extractPermutations_spec [[1;0;0];[0;1;1];[0;1;1]] 3).
  - reflexivity.
  - lia.
  - intros row Hrow. repeat (apply elem_of_cons in Hrow; destruct Hrow as [->|Hrow];
                             [reflexivity|]).
    apply elem_of_nil in Hrow. contradiction.
Defined.


(** ** The compatibility matrix *)

Lemma foldOutcome_ext {A S : Type} (f g : S -> A -> Outcome S) (xs : list A) (st : S) :
  (forall s x, x ∈ xs -> f s x = g s x) ->
  foldOutcome f xs st = foldOutcome g xs st.
Proof.
  revert st. induction xs as [|x xs IH]; intros st H; simpl; [reflexivity|].
  rewrite H by left. destruct (g st x); simpl; try reflexivity.
  apply IH. intros s y Hy. apply H. right. assumption.
Qed.

(** Away from index 0, [isValidMove] looks at the bodies only. *)
Lemma isValidMove_body (left right left' right' : AstClause) (i j : nat) :
  getBodyLiterals left = getBodyLiterals left' ->
  getBodyLiterals right = getBodyLiterals right' ->
  1 <= i -> 1 <= j ->
  isValidMove left i right j = isValidMove left' i right' j.
Proof.
  intros Hl Hr Hi Hj. unfold isValidMove.
  destruct i as [|i]; [lia|]. destruct j as [|j]; [lia|].
  simpl. rewrite Hl, Hr. reflexivity.
Qed.

Lemma permutationMatrixOf_body (left right left' right' : AstClause) :
  getBodyLiterals left = getBodyLiterals left' ->
  getBodyLiterals right = getBodyLiterals right' ->
  permutationMatrixOf left right = permutationMatrixOf left' right'.
Proof.
  intros Hl Hr. unfold permutationMatrixOf. rewrite Hl.
  destruct (setEntry _ 0 0) as [m0| |]; simpl; try reflexivity.
  apply foldOutcome_ext. intros m i Hi.
  apply foldOutcome_ext. intros m' j Hj.
  apply elem_of_seq in Hi, Hj.
  rewrite (isValidMove_body left right left' right') by (assumption || lia).
  reflexivity.
Qed.

Lemma setEntry_square (n : nat) (m : list (list nat)) (i j : nat) :
  isSquare n m -> i < n -> j < n ->
  exists m', setEntry m i j = Ok m' /\ isSquare n m' /\
             entryAt m' i j = Some 1 /\
             forall i' j', (i', j') <> (i, j) -> entryAt m' i' j' = entryAt m i' j'.
Proof.
  intros [Hlen Hrows] Hi Hj. unfold setEntry.
  destruct (lookup_lt_is_Some_2 m i) as [row Hrow]; [lia|].
  assert (Hrowlen : length row = n).
  { apply Hrows. eapply list_elem_of_lookup_2. eassumption. }
  rewrite (vecAt_Some _ _ _ Hrow). simpl.
  rewrite vecSet_lt by lia. simpl. rewrite vecSet_lt by lia.
  eexists. split; [reflexivity|]. split_and!.
  - split; [rewrite length_insert; assumption|].
    intros r Hr. apply list_elem_of_lookup in Hr. destruct Hr as [k Hk].
    destruct (decide (k = i)) as [->|Hne].
    + rewrite list_lookup_insert_eq in Hk by lia. inversion Hk.
      rewrite length_insert. assumption.
    + rewrite list_lookup_insert_ne in Hk by congruence.
      apply Hrows. eapply list_elem_of_lookup_2. eassumption.
  - unfold entryAt. rewrite list_lookup_insert_eq by lia.
    apply list_lookup_insert_eq. lia.
  - intros i' j' Hne. unfold entryAt.
    destruct (decide (i' = i)) as [->|Hi'].
    + rewrite list_lookup_insert_eq by lia. rewrite Hrow.
      apply list_lookup_insert_ne. congruence.
    + rewrite list_lookup_insert_ne by congruence. reflexivity.
Qed.

(** Inner loop of the matrix set-up, for row [i] and the columns [js]. *)
Lemma fill_row (left right : AstClause) (n i : nat) (v : nat -> bool) (js : list nat) :
  forall m,
    isSquare n m -> i < n ->
    (forall j, j ∈ js -> j < n /\ isValidMove left i right j = Ok (v j)) ->
    exists m',
      foldOutcome (fun m' j =>
                     let* ok := isValidMove left i right j in
                     if ok then setEntry m' i j else Ok m') js m = Ok m' /\
      isSquare n m' /\
      (forall j, j ∈ js -> v j = true -> entryAt m' i j = Some 1) /\
      (forall i' j', ~ (i' = i /\ j' ∈ js /\ v j' = true) ->
                     entryAt m' i' j' = entryAt m i' j').
Proof.
  induction js as [|j js IH]; intros m Hsq Hi Hjs; simpl.
  - exists m. split_and!; auto. intros j Hj. apply elem_of_nil in Hj. contradiction.
  - destruct (Hjs j) as [Hj Hv]; [left|]. rewrite Hv. simpl.
    assert (Hjs' : forall j', j' ∈ js -> j' < n /\ isValidMove left i right j' = Ok (v j')).
    { intros j' Hj'. apply Hjs. right. assumption. }
    destruct (v j) eqn:Evj.
    + destruct (setEntry_square n m i j Hsq Hi Hj) as (m1 & -> & Hsq1 & Hone & Hother).
      simpl. destruct (IH m1 Hsq1 Hi Hjs') as (m' & Hfold & Hsq' & Hset & Hkeep).
      exists m'. split_and!; auto.
      * intros j' Hj' Hvj'. apply elem_of_cons in Hj'.
        destruct (decide (j' ∈ js)) as [Hin|Hnin]; [apply Hset; assumption|].
        destruct Hj' as [->|Hj']; [|contradiction].
        rewrite Hkeep; [assumption|]. intros (_ & Hin & _). contradiction.
      * intros i' j' Hno. rewrite Hkeep.
        -- apply Hother. intros Heq. inversion Heq; subst. apply Hno.
           split_and!; auto. left.
        -- intros (? & ? & ?). apply Hno. split_and!; auto. right. assumption.
    + destruct (IH m Hsq Hi Hjs') as (m' & Hfold & Hsq' & Hset & Hkeep).
      exists m'. split_and!; auto.
      * intros j' Hj' Hvj'. apply elem_of_cons in Hj'.
        destruct Hj' as [->|Hj']; [congruence|]. apply Hset; assumption.
      * intros i' j' Hno. apply Hkeep.
        intros (? & ? & ?). apply Hno. split_and!; auto. right. assumption.
Qed.

(** Outer loop of the matrix set-up, for the rows [rows]. *)
Lemma fill_rows (left right : AstClause) (n : nat) (v : nat -> nat -> bool)
    (js rows : list nat) :
  forall m,
    isSquare n m ->
    (forall i, i ∈ rows -> i < n) ->
    (forall i j, i ∈ rows -> j ∈ js -> j < n /\ isValidMove left i right j = Ok (v i j)) ->
    exists m',
      foldOutcome (fun m i =>
        foldOutcome (fun m' j =>
                       let* ok := isValidMove left i right j in
                       if ok then setEntry m' i j else Ok m') js m) rows m = Ok m' /\
      isSquare n m' /\
      (forall i j, i ∈ rows -> j ∈ js -> v i j = true -> entryAt m' i j = Some 1) /\
      (forall i' j', ~ (i' ∈ rows /\ j' ∈ js /\ v i' j' = true) ->
                     entryAt m' i' j' = entryAt m i' j').
Proof.
  induction rows as [|i rows IH]; intros m Hsq Hrows Hmoves; simpl.
  - exists m. split_and!; auto. intros i j Hi. apply elem_of_nil in Hi. contradiction.
  - destruct (fill_row left right n i (v i) js m Hsq) as (m1 & -> & Hsq1 & Hset1 & Hkeep1).
    { apply Hrows. left. }
    { intros j Hj. apply Hmoves; [left | assumption]. }
    simpl. destruct (IH m1 Hsq1) as (m' & Hfold & Hsq' & Hset & Hkeep).
    { intros i' Hi'. apply Hrows. right. assumption. }
    { intros i' j Hi' Hj. apply Hmoves; [right|]; assumption. }
    exists m'. split_and!; auto.
    + intros i' j Hi' Hj Hv. apply elem_of_cons in Hi'.
      destruct (decide (i' ∈ rows)) as [Hin|Hnin]; [apply Hset; assumption|].
      destruct Hi' as [->|Hi']; [|contradiction].
      rewrite Hkeep; [apply Hset1; assumption|].
      intros (Hin & _). contradiction.
    + intros i' j' Hno. rewrite Hkeep.
      * apply Hkeep1. intros (-> & ? & ?). apply Hno. split_and!; auto. left.
      * intros (? & ? & ?). apply Hno. split_and!; auto. right. assumption.
Qed.

Lemma forallb_isAtom_lookup (lits : list AstLiteral) (k : nat) :
  forallb isAtom lits = true -> k < length lits ->
  exists a, lits !! k = Some (Atom a).
Proof.
  intros Hall Hk. destruct (lookup_lt_is_Some_2 lits k Hk) as [lit Hlit].
  rewrite forallb_forall in Hall.
  specialize (Hall lit). rewrite <- list_elem_of_In in Hall.
  specialize (Hall (list_elem_of_lookup_2 _ _ _ Hlit)).
  destruct lit; try discriminate. eauto.
Qed.

Lemma isValidMove_entry (left right : AstClause) (i j : nat) :
  forallb isAtom (getBodyLiterals left) = true ->
  forallb isAtom (getBodyLiterals right) = true ->
  1 <= i <= length (getBodyLiterals left) ->
  1 <= j <= length (getBodyLiterals right) ->
  isValidMove left i right j = Ok (bool_decide (matrixEntry left right i j = 1)).
Proof.
  intros Hl Hr Hi Hj. destruct i as [|i]; [lia|]. destruct j as [|j]; [lia|].
  destruct (forallb_isAtom_lookup _ i Hl) as [a Ha]; [lia|].
  destruct (forallb_isAtom_lookup _ j Hr) as [b Hb]; [lia|].
  unfold isValidMove, matrixEntry. simpl. rewrite !Nat.sub_0_r, Ha, Hb.
  rewrite (vecAt_Some _ _ _ Ha), (vecAt_Some _ _ _ Hb). simpl.
  destruct (bool_decide (getQualifiedName a = getQualifiedName b)); reflexivity.
Qed.

Lemma replicate_square (n : nat) : isSquare n (replicate n (replicate n 0)).
Proof.
  split; [apply length_replicate|].
  intros row Hrow. apply elem_of_replicate in Hrow. destruct Hrow as [-> _].
  apply length_replicate.
Qed.

Lemma entryAt_zeros (n i j : nat) :
  i < n -> j < n -> entryAt (replicate n (replicate n 0)) i j = Some 0.
Proof.
  intros Hi Hj. unfold entryAt. rewrite lookup_replicate_2 by assumption.
  apply lookup_replicate_2. assumption.
Qed.

(** The matrix handed to the enumerator, entry by entry. *)
Lemma permutationMatrixOf_entries (left right : AstClause) :
  forallb isAtom (getBodyLiterals left) = true ->
  forallb isAtom (getBodyLiterals right) = true ->
  length (getBodyLiterals left) = length (getBodyLiterals right) ->
  exists m,
    permutationMatrixOf left right = Ok m /\
    isSquare (S (length (getBodyLiterals left))) m /\
    forall i j, i <= length (getBodyLiterals left) -> j <= length (getBodyLiterals left) ->
                entryAt m i j = Some (matrixEntry left right i j).
Proof.
  intros Hl Hr Hlen. unfold permutationMatrixOf.
  set (n := length (getBodyLiterals left)) in *.
  replace (n + 1) with (S n) by lia. replace (S n - 1) with n by lia.
  destruct (setEntry_square (S n) (replicate (S n) (replicate (S n) 0)) 0 0)
    as (m0 & -> & Hsq0 & Hone0 & Hother0); [apply replicate_square | lia | lia |].
  cbn [bind].
  destruct (fill_rows left right (S n)
              (fun i j => bool_decide (matrixEntry left right i j = 1))
              (seq 1 n) (seq 1 n) m0 Hsq0)
    as (m & -> & Hsq & Hset & Hkeep).
  { intros i Hi. apply elem_of_seq in Hi. lia. }
  { intros i j Hi Hj. apply elem_of_seq in Hi, Hj. split; [lia|].
    apply isValidMove_entry; (assumption || lia). }
  exists m. split_and!; auto.
  intros i j Hi Hj.
  destruct (decide (1 <= i /\ 1 <= j)) as [[Hi1 Hj1]|Hzero].
  - destruct (bool_decide (matrixEntry left right i j = 1)) eqn:Hv.
    + apply bool_decide_eq_true in Hv. rewrite Hv.
      apply Hset; [apply elem_of_seq; lia | apply elem_of_seq; lia |].
      apply bool_decide_eq_true. assumption.
    + rewrite Hkeep by (intros (_ & _ & H); congruence).
      rewrite Hother0 by (intros Heq; inversion Heq; lia).
      rewrite entryAt_zeros by lia. f_equal.
      apply bool_decide_eq_false in Hv.
      destruct i as [|i]; [lia|]. destruct j as [|j]; [lia|].
      unfold matrixEntry in *.
      destruct (getBodyLiterals left !! i) as [[a| | |]|]; try reflexivity.
      destruct (getBodyLiterals right !! j) as [[b| | |]|]; try reflexivity.
      destruct (bool_decide (getQualifiedName a = getQualifiedName b));
        [contradiction Hv|]; reflexivity.
  - rewrite Hkeep.
    2:{ intros (Hin & Hjn & _). apply elem_of_seq in Hin, Hjn. lia. }
    destruct i as [|i]; destruct j as [|j]; try lia.
    + exact Hone0.
    + rewrite Hother0 by congruence. rewrite entryAt_zeros by lia. reflexivity.
    + rewrite Hother0 by congruence. rewrite entryAt_zeros by lia. reflexivity.
Qed.

(** ** The oracle does not look at the names of the heads *)

(** The lockstep walk reads the arguments of the atoms, never their names. *)
Lemma matchAtoms_arguments (leftAtoms : list AstLiteral) :
  forall leftAtoms' rightAtoms rightAtoms' st,
    map literalArguments leftAtoms = map literalArguments leftAtoms' ->
    map literalArguments rightAtoms = map literalArguments rightAtoms' ->
    matchAtoms st leftAtoms rightAtoms = matchAtoms st leftAtoms' rightAtoms'.
Proof.
  induction leftAtoms as [|l ls IH]; intros [|l' ls'] rs rs' st Hl Hr;
    try discriminate; [reflexivity|].
  simpl in Hl. injection Hl as Hl Hls. simpl.
  destruct (validMapping st); simpl; [|reflexivity].
  destruct rs as [|r rs]; destruct rs' as [|r' rs']; try discriminate; [reflexivity|].
  simpl in Hr. injection Hr as Hr Hrs.
  destruct l, l'; try discriminate; simpl; try reflexivity.
  destruct r, r'; try discriminate; simpl; try reflexivity.
  simpl in Hl, Hr. injection Hl as ->. injection Hr as ->.
  destruct (matchArguments _ _ _); simpl; try reflexivity.
  apply IH; assumption.
Qed.

Lemma reorderAtoms_withHeadName (name : AstQualifiedName) (clause : AstClause)
    (newOrder : list nat) :
  reorderAtoms (withHeadName name clause) newOrder
  = (let* reordered := reorderAtoms clause newOrder in Ok (withHeadName name reordered)).
Proof.
  unfold reorderAtoms, withHeadName. simpl.
  destruct (negb (length newOrder =? _)); [reflexivity|].
  destruct (negb (forallb _ _)); [reflexivity|].
  match goal with |- context [bind ?c _] => destruct c end; reflexivity.
Qed.

Lemma checkPermutation_withHeadName (nameL nameR : AstQualifiedName)
    (left right : AstClause) (permutation : list nat) :
  checkPermutation (withHeadName nameL left) (withHeadName nameR right) permutation
  = checkPermutation left right permutation.
Proof.
  unfold checkPermutation. destruct permutation as [|p0 tail]; [reflexivity|].
  destruct (invertPermutation _ _ _) as [reordered| |]; simpl; try reflexivity.
  rewrite reorderAtoms_withHeadName.
  destruct (reorderAtoms left reordered) as [reorderedLeft| |]; simpl; try reflexivity.
  apply matchAtoms_arguments.
  - rewrite !map_app. reflexivity.
  - rewrite !map_app. reflexivity.
Qed.

Lemma anyValidPermutation_withHeadName (nameL nameR : AstQualifiedName)
    (left right : AstClause) (perms : list (list nat)) :
  anyValidPermutation (withHeadName nameL left) (withHeadName nameR right) perms
  = anyValidPermutation left right perms.
Proof.
  induction perms as [|p perms IH]; simpl; [reflexivity|].
  unfold isValidPermutation. rewrite checkPermutation_withHeadName.
  destruct (checkPermutation left right p) as [st| |]; simpl; try reflexivity.
  rewrite IH. reflexivity.
Qed.

Lemma areBijectivelyEquivalent_withHeadName (nameL nameR : AstQualifiedName)
    (left right : AstClause) :
  areBijectivelyEquivalent (withHeadName nameL left) (withHeadName nameR right)
  = areBijectivelyEquivalent left right.
Proof.
  unfold areBijectivelyEquivalent.
  rewrite (permutationMatrixOf_body (withHeadName nameL left) (withHeadName nameR right)
                                    left right) by reflexivity.
  change (isValidClause (withHeadName nameL left)) with (isValidClause left).
  change (isValidClause (withHeadName nameR right)) with (isValidClause right).
  change (variableNameSet (withHeadName nameL left)) with (variableNameSet left).
  change (variableNameSet (withHeadName nameR right)) with (variableNameSet right).
  simpl getBodyLiterals.
  change (getArity (getHead (withHeadName nameL left))) with (getArity (getHead left)).
  change (getArity (getHead (withHeadName nameR right))) with (getArity (getHead right)).
  destruct (_ || _); [reflexivity|].
  destruct (negb (_ =? _)); [reflexivity|].
  destruct (negb (_ =? _)); [reflexivity|].
  destruct (negb (_ =? _)); [reflexivity|].
  destruct (permutationMatrixOf left right); simpl; try reflexivity.
  destruct (extractPermutations _); simpl; try reflexivity.
  apply anyValidPermutation_withHeadName.
Qed.

Lemma passesPrecheck_true (left right : AstClause) :
  passesPrecheck left right = true ->
  forallb isAtom (getBodyLiterals left) = true /\
  forallb isAtom (getBodyLiterals right) = true /\
  length (getBodyLiterals left) = length (getBodyLiterals right).
Proof.
  unfold passesPrecheck, isValidClause. rewrite !andb_true_iff.
  intros [[[[[Hl _] [Hr _]] Hlen] _] _].
  apply Nat.eqb_eq in Hlen. split_and!; assumption.
Qed.

(** C1, as the code has it.  For clauses that pass the precheck the matrix
    is set up and holds a 1 at [M[0][0]] whatever the names of the heads;
    the names of the heads have no part in the matrix or in the verdict of
    the oracle, which compares heads by arity and arguments only. *)
Theorem head_names_ignored (left right : AstClause) :
  (passesPrecheck left right = true ->
   exists m, permutationMatrixOf left right = Ok m /\ entryAt m 0 0 = Some 1) /\
  (forall nameL nameR,
     permutationMatrixOf (withHeadName nameL left) (withHeadName nameR right)
     = permutationMatrixOf left right /\
     areBijectivelyEquivalent (withHeadName nameL left) (withHeadName nameR right)
     = areBijectivelyEquivalent left right).
Proof.
  split.
  - intros Hpre. apply passesPrecheck_true in Hpre. destruct Hpre as (Hl & Hr & Hlen).
    destruct (permutationMatrixOf_entries left right Hl Hr Hlen) as (m & Hm & _ & Hentries).
    exists m. split; [assumption|]. apply (Hentries 0 0); lia.
  - intros nameL nameR. split.
    + apply permutationMatrixOf_body; reflexivity.
    + apply areBijectivelyEquivalent_withHeadName.
Qed.

Lemma head_names_ignored_witness :
  passesPrecheck clauseA clauseB = true /\
  exists m, permutationMatrixOf clauseA clauseB = Ok m /\ entryAt m 0 0 = Some 1.
Proof.
  split; [vm_compute; reflexivity|].
  apply (proj1 (head_names_ignored clauseA clauseB)). vm_compute. reflexivity.
Defined.

(** The statement of C1 fails on two singleton rules that differ in the
    name of the head only: the precheck passes, [M[0][0]] is 1 and the
    oracle answers true although the names differ. *)
Lemma head_names_counterexample :
  passesPrecheck clauseA clauseB = true /\
  getQualifiedName (getHead clauseA) <> getQualifiedName (getHead clauseB) /\
  ~ ((exists m, permutationMatrixOf clauseA clauseB = Ok m /\ entryAt m 0 0 = Some 1)
     <-> getQualifiedName (getHead clauseA) = getQualifiedName (getHead clauseB)) /\
  areBijectivelyEquivalent clauseA clauseB = Ok true /\
  areBijectivelyEquivalent clauseA clauseB <> Ok false.
Proof.
  assert (Hne : getQualifiedName (getHead clauseA) <> getQualifiedName (getHead clauseB))
    by discriminate.
  split_and!.
  - vm_compute. reflexivity.
  - exact Hne.
  - intros [Hiff _]. apply Hne, Hiff.
    exists [[1;0];[0;1]]. split; vm_compute; reflexivity.
  - vm_compute. reflexivity.
  - vm_compute. discriminate.
Qed.

(** ** The admissibility precheck *)

Lemma forallb_false_elem {A : Type} (f : A -> bool) (xs : list A) (x : A) :
  x ∈ xs -> f x = false -> forallb f xs = false.
Proof.
  intros Hx Hf. destruct (forallb f xs) eqn:E; [|reflexivity].
  rewrite forallb_forall in E. rewrite <- (E x), Hf; [reflexivity|].
  apply list_elem_of_In. assumption.
Qed.

Lemma isValidClause_false (clause : AstClause) :
  (exists lit, lit ∈ getBodyLiterals clause /\ isAtom lit = false) \/
  (exists arg, arg ∈ clauseArgNodes clause /\ isVariable arg = false /\ isConstant arg = false) ->
  isValidClause clause = false.
Proof.
  unfold isValidClause. intros [(lit & Hin & Hlit)|(arg & Hin & Hv & Hc)].
  - rewrite (forallb_false_elem _ _ _ Hin Hlit). reflexivity.
  - rewrite (forallb_false_elem isPrimitive _ _ Hin), andb_false_r; [reflexivity|].
    unfold isPrimitive. rewrite Hv, Hc. reflexivity.
Qed.

(** C5. Whenever one of the five admissibility conditions fails (a body
    literal that is not an atom, an argument that is neither a variable nor
    a constant, bodies of different lengths, heads of different arities,
    different numbers of distinct variable names), the oracle returns false;
    it does not run into undefined behaviour. *)
Theorem inadmissible_returns_false (left right : AstClause) :
  (exists lit, (lit ∈ getBodyLiterals left \/ lit ∈ getBodyLiterals right) /\
               isAtom lit = false) \/
  (exists arg, (arg ∈ clauseArgNodes left \/ arg ∈ clauseArgNodes right) /\
               isVariable arg = false /\ isConstant arg = false) \/
  length (getBodyLiterals left) <> length (getBodyLiterals right) \/
  getArity (getHead left) <> getArity (getHead right) \/
  size (variableNameSet left) <> size (variableNameSet right) ->
  areBijectivelyEquivalent left right = Ok false.
Proof.
  intros H. unfold areBijectivelyEquivalent.
  destruct (isValidClause left) eqn:El; [|reflexivity].
  destruct (isValidClause right) eqn:Er; [|reflexivity].
  simpl.
  destruct H as [(lit & [Hin|Hin] & Hlit)|[(arg & [Hin|Hin] & Harg)|H]].
  - rewrite isValidClause_false in El by (left; eauto). discriminate.
  - rewrite isValidClause_false in Er by (left; eauto). discriminate.
  - rewrite isValidClause_false in El by (right; eauto). discriminate.
  - rewrite isValidClause_false in Er by (right; eauto). discriminate.
  - destruct (Nat.eqb_spec (length (getBodyLiterals left)) (length (getBodyLiterals right)))
      as [Hlen|_]; [|reflexivity].
    simpl.
    destruct (Nat.eqb_spec (getArity (getHead left)) (getArity (getHead right)))
      as [Har|_]; [|reflexivity].
    simpl.
    destruct (Nat.eqb_spec (size (variableNameSet left)) (size (variableNameSet right)))
      as [Hsz|_]; [|reflexivity].
    destruct H as [H|[H|H]]; contradiction.
Qed.

Lemma inadmissible_returns_false_witness :
  areBijectivelyEquivalent clauseNegated clauseA = Ok false /\
  areBijectivelyEquivalent clauseA clauseFunctor = Ok false /\
  areBijectivelyEquivalent clauseA (rule "A" [var "x"] []) = Ok false /\
  areBijectivelyEquivalent clauseA (rule "A" [var "x"; var "x"] [atom "C" [var "x"]])
  = Ok false /\
  areBijectivelyEquivalent clauseA (rule "A" [var "x"] [atom "C" [var "y"]]) = Ok false.
Proof.
  split_and!.
  - apply (inadmissible_returns_false clauseNegated clauseA).
    left. exists (Negation (mkAtom ["D"] [var "x"])).
    split; [left; right; left | reflexivity].
  - apply (inadmissible_returns_false clauseA clauseFunctor).
    right; left. exists (AstFunctor "+" [var "x"; num "1"]).
    split; [right; right; left | split; reflexivity].
  - apply (inadmissible_returns_false clauseA (rule "A" [var "x"] [])).
    right; right; left. vm_compute. lia.
  - apply (inadmissible_returns_false clauseA
             (rule "A" [var "x"; var "x"] [atom "C" [var "x"]])).
    right; right; right; left. vm_compute. lia.
  - apply (inadmissible_returns_false clauseA (rule "A" [var "x"] [atom "C" [var "y"]])).
    right; right; right; right. vm_compute. lia.
Defined.

(** ** The enumerator is called on matrices with a row for the head *)



(** ** The driver *)

(** The driver is the run of the four named passes, and its flag the "or"
    of theirs. *)
Lemma transform_in_order (tu : AstTranslationUnit) :
  transform tu
  = runInOrder [BodyDeduplicator; SelfImplicationFilter;
                LocalEquivalenceReducer; SingletonRelationUnifier] false tu
  /\
  (forall changed tu',
     transform tu = Ok (changed, tu') ->
     exists c1 tu1 c2 tu2 c3 tu3 c4,
       reduceClauseBodies tu = (c1, tu1) /\
       removeRedundantClauses tu1 = (c2, tu2) /\
       reduceLocallyEquivalentClauses tu2 = Ok (c3, tu3) /\
       reduceSingletonRelations tu3 = Ok (c4, tu') /\
       changed = c1 || c2 || c3 || c4).
Proof.
  split.
  - unfold transform. simpl.
    destruct (reduceLocallyEquivalentClauses _) as [[c3 tu3]| |]; reflexivity.
  - intros changed tu' H. unfold transform in H. cbv zeta in H.
    destruct (reduceClauseBodies tu) as [c1 tu1] eqn:E1. cbn [fst snd] in H.
    destruct (removeRedundantClauses tu1) as [c2 tu2] eqn:E2. cbn [fst snd] in H.
    destruct (reduceLocallyEquivalentClauses tu2) as [[c3 tu3]| |] eqn:E3;
      cbn [bind fst snd] in H; try discriminate.
    destruct (reduceSingletonRelations tu3) as [[c4 tu4]| |] eqn:E4;
      cbn [bind fst snd orb] in H; try discriminate.
    inversion H; subst.
    exists c1, tu1, c2, tu2, c3, tu3, c4. split_and!; auto.
Qed.

(** ** Body Deduplicator *)

(** What the two nested loops record: the first occurrence of every
    literal that occurs again later. *)
Lemma firstEqualPosition_Some (lit : AstLiteral) (earlier : list AstLiteral) :
  forall start j,
    firstEqualPosition lit earlier start = Some j <->
    exists k, j = start + k /\ earlier !! k = Some lit /\
              forall k', k' < k -> earlier !! k' <> Some lit.
Proof.
  induction earlier as [|e es IH]; intros start j; simpl.
  - split; [discriminate|]. intros (k & _ & Hk & _). discriminate.
  - destruct (Literal_eqb lit e) eqn:E.
    + apply Literal_eqb_eq in E. subst e. split.
      * intros H. inversion H; subst. exists 0. split_and!; [lia | reflexivity |].
        intros k' Hk'. lia.
      * intros (k & -> & Hk & Hfirst). destruct k as [|k]; [f_equal; lia|].
        exfalso. apply (Hfirst 0); [lia | reflexivity].
    + assert (Hne : lit <> e).
      { intros ->. rewrite (proj2 (Literal_eqb_eq e e) eq_refl) in E. discriminate. }
      rewrite IH. split.
      * intros (k & -> & Hk & Hfirst). exists (S k). split_and!; [lia | exact Hk |].
        intros [|k'] Hk'; simpl; [congruence | apply Hfirst; lia].
      * intros (k & -> & Hk & Hfirst). destruct k as [|k]; [simpl in Hk; congruence|].
        exists k. split_and!; [lia | exact Hk |].
        intros k' Hk'. apply (Hfirst (S k')). lia.
Qed.

Lemma redundantPositions_fold (bodyLiterals : list AstLiteral) (rows : list nat) :
  forall (acc : gset nat) j,
    j ∈ foldl (fun (acc : gset nat) i =>
                 match bodyLiterals !! i with
                 | Some lit =>
                     match firstEqualPosition lit (take i bodyLiterals) 0 with
                     | Some j => {[j]} ∪ acc
                     | None => acc
                     end
                 | None => acc
                 end) acc rows <->
    j ∈ acc \/
    exists i lit, i ∈ rows /\ bodyLiterals !! i = Some lit /\
                  firstEqualPosition lit (take i bodyLiterals) 0 = Some j.
Proof.
  induction rows as [|i rows IH]; intros acc j; simpl.
  - split; [auto|]. intros [H|(i & lit & Hi & _)]; [assumption|].
    apply elem_of_nil in Hi. contradiction.
  - rewrite IH. split.
    + intros [Hacc|(i' & lit & Hi' & Hlit & Hfirst)].
      * destruct (bodyLiterals !! i) as [lit|] eqn:Elit; [|auto].
        destruct (firstEqualPosition lit (take i bodyLiterals) 0) as [j0|] eqn:E; [|auto].
        apply elem_of_union in Hacc. destruct Hacc as [Hj|Hacc]; [|auto].
        apply elem_of_singleton in Hj. subst j0.
        right. exists i, lit. split_and!; [left | assumption | assumption].
      * right. exists i', lit. split_and!; [right; assumption | assumption | assumption].
    + intros [Hacc|(i' & lit & Hi' & Hlit & Hfirst)].
      * left. destruct (bodyLiterals !! i) as [lit|]; [|assumption].
        destruct (firstEqualPosition lit (take i bodyLiterals) 0); [|assumption].
        apply elem_of_union. right. assumption.
      * apply elem_of_cons in Hi'. destruct Hi' as [->|Hi'].
        -- left. rewrite Hlit, Hfirst. apply elem_of_union. left.
           apply elem_of_singleton. reflexivity.
        -- right. exists i', lit. split_and!; assumption.
Qed.

Lemma redundantPositionsOf_spec (bodyLiterals : list AstLiteral) (j : nat) :
  j ∈ redundantPositionsOf bodyLiterals <->
  exists i lit,
    j < i /\ bodyLiterals !! i = Some lit /\ bodyLiterals !! j = Some lit /\
    forall k, k < j -> bodyLiterals !! k <> Some lit.
Proof.
  unfold redundantPositionsOf. rewrite redundantPositions_fold. split.
  - intros [Hempty|(i & lit & Hi & Hlit & Hfirst)].
    { apply not_elem_of_empty in Hempty. contradiction. }
    apply firstEqualPosition_Some in Hfirst.
    destruct Hfirst as (k & -> & Hk & Hfirst). simpl.
    assert (Hki : k < i).
    { apply lookup_lt_Some in Hk. rewrite length_take in Hk. lia. }
    rewrite lookup_take_lt in Hk by assumption.
    exists i, lit. split_and!; auto.
    intros k' Hk'. specialize (Hfirst k' Hk').
    rewrite lookup_take_lt in Hfirst by lia. assumption.
  - intros (i & lit & Hji & Hi & Hj & Hfirst). right.
    exists i, lit. split_and!.
    + apply elem_of_seq. apply lookup_lt_Some in Hi. lia.
    + assumption.
    + apply firstEqualPosition_Some. exists j. split_and!.
      * reflexivity.
      * rewrite lookup_take_lt by assumption. assumption.
      * intros k' Hk'. rewrite lookup_take_lt by lia. apply Hfirst. assumption.
Qed.

(** C2, at a rule with three copies of one atom.  The loop records the
    position of the earlier of two equal literals, so only position 0 is
    dropped: the rule [A(x) :- B(x), B(x), B(x)] becomes
    [A(x) :- B(x), B(x)], not [A(x) :- B(x)]. *)
Theorem reduceClauseBodies_leaves_duplicate :
  redundantPositionsOf (getBodyLiterals clauseTriple) = {[0]} /\
  minimisedClauseOf clauseTriple = Some (rule "A" [var "x"] [atomBx; atomBx]) /\
  reduceClauseBodies tripleUnit
  = (true, mkTU (mkProgram [relation1 "A"; relation1 "B"]
                           [rule "A" [var "x"] [atomBx; atomBx]]) noIO) /\
  minimisedClauseOf clauseTriple <> Some (rule "A" [var "x"] [atomBx]).
Proof.
  split_and!.
  - vm_compute. reflexivity.
  - vm_compute. reflexivity.
  - vm_compute. reflexivity.
  - vm_compute. intros H. discriminate H.
Qed.

(** With two equal literals separated by another, the later copy stays and
    the order of first occurrences is lost. *)
Example reduceClauseBodies_keeps_last :
  minimisedClauseOf (rule "A" [var "x"] [atomBx; atom "C" []; atomBx])
  = Some (rule "A" [var "x"] [atom "C" []; atomBx]).
Proof. vm_compute. reflexivity. Qed.

(** Scenario 1 of the specification. *)
Example scenario1 :
  minimisedClauseOf (rule "A" [var "x"] [atomBx; atomBx])
  = Some (rule "A" [var "x"] [atomBx]).
Proof. vm_compute. reflexivity. Qed.

(** ** The Nil branch of the variable-mapping checker *)

(** C4, at two rules of one relation.  With [nil] on the left and a
    variable on the right the checker clears [validMapping] without leaving
    the loop, and the equal string constants that follow set it again: the
    oracle accepts the pair in this order and rejects it in the other. *)
Theorem areBijectivelyEquivalent_asymmetric :
  areBijectivelyEquivalent clauseNil clauseVar = Ok true /\
  areBijectivelyEquivalent clauseVar clauseNil = Ok false.
Proof. split; vm_compute; reflexivity. Qed.

(** C10, at two rules with two distinct variables each and atoms of equal
    arities.  The oracle answers true; the only permutation is the identity;
    the map it accepts sends both [x] and [y] to [a], and nothing to [b]. *)
Theorem accepted_map_not_bijective :
  areBijectivelyEquivalent clauseTwoLeft clauseTwoRight = Ok true /\
  size (variableNameSet clauseTwoLeft) = 2 /\
  size (variableNameSet clauseTwoRight) = 2 /\
  (let* m := permutationMatrixOf clauseTwoLeft clauseTwoRight in extractPermutations m)
  = Ok [[0; 1]] /\
  checkPermutation clauseTwoLeft clauseTwoRight [0; 1]
  = Ok (mkMatch (<["x":="a"]> (<["y":="a"]> ∅)) true false) /\
  "b" ∈ variableNameSet clauseTwoRight /\
  (forall v, (<["x":="a"]> (<["y":="a"]> (∅ : gmap string string))) !! v <> Some "b").
Proof.
  split_and!; try (vm_compute; reflexivity).
  intros v. destruct (decide (v = "x")) as [->|Hx].
  { rewrite lookup_insert_eq. discriminate. }
  rewrite lookup_insert_ne by congruence.
  destruct (decide (v = "y")) as [->|Hy].
  { rewrite lookup_insert_eq. discriminate. }
  rewrite lookup_insert_ne by congruence. rewrite lookup_empty. discriminate.
Qed.

(** ** Singleton Relation Unifier and I/O relations *)

Lemma clausesFrom_elem (cs : list AstClause) (name : AstQualifiedName) :
  forall i (ptr : ClausePtr),
    ptr ∈ clausesFrom i cs name ->
    exists k, ptr.1 = i + k /\ cs !! k = Some ptr.2 /\ headName ptr.2 = name.
Proof.
  induction cs as [|c cs IH]; intros i ptr Hptr; simpl in Hptr.
  - apply elem_of_nil in Hptr. contradiction.
  - destruct (bool_decide (getQualifiedName (getHead c) = name)) eqn:E.
    + apply elem_of_cons in Hptr. destruct Hptr as [->|Hptr].
      * exists 0. apply bool_decide_eq_true in E. simpl. split_and!; auto.
      * destruct (IH _ _ Hptr) as (k & Hk & Hc & Hn).
        exists (S k). split_and!; auto. lia.
    + destruct (IH _ _ Hptr) as (k & Hk & Hc & Hn).
      exists (S k). split_and!; auto. lia.
Qed.

Lemma getClauses_elem (program : AstProgram) (rel : AstRelation) (ptr : ClausePtr) :
  ptr ∈ getClauses program rel ->
  programClauses program !! ptr.1 = Some ptr.2 /\ headName ptr.2 = relName rel.
Proof.
  intros H. apply clausesFrom_elem in H. destruct H as (k & Hk & Hc & Hn).
  simpl in Hk. subst k. split; assumption.
Qed.

Lemma singletonRelationClausesOf_elem (io : AstRelation -> bool) (program : AstProgram)
    (rels : list AstRelation) (ptr : ClausePtr) :
  ptr ∈ singletonRelationClausesOf io program rels ->
  exists rel, rel ∈ rels /\ io rel = false /\ getClauses program rel = [ptr].
Proof.
  induction rels as [|rel rels IH]; simpl; intros Hptr.
  - apply elem_of_nil in Hptr. contradiction.
  - assert (Hrest : ptr ∈ singletonRelationClausesOf io program rels ->
                    exists rel0, rel0 ∈ rel :: rels /\ io rel0 = false /\
                                 getClauses program rel0 = [ptr]).
    { intros H. destruct (IH H) as (rel0 & Hin & Hio & Hcs).
      exists rel0. split_and!; auto. right. assumption. }
    destruct (io rel) eqn:Eio; simpl in Hptr; [auto|].
    destruct (getClauses program rel) as [|c [|c' cs]] eqn:Ecs; simpl in Hptr; auto.
    apply elem_of_cons in Hptr. destruct Hptr as [->|Hptr]; [|auto].
    exists rel. split_and!; auto. left.
Qed.

Lemma same_name_same_relation (rels : list AstRelation) (r1 r2 : AstRelation) :
  NoDup (map relName rels) -> r1 ∈ rels -> r2 ∈ rels -> relName r1 = relName r2 -> r1 = r2.
Proof.
  intros Hnd H1 H2 Hname.
  apply list_elem_of_lookup in H1, H2. destruct H1 as [i1 H1]. destruct H2 as [i2 H2].
  assert (E1 : map relName rels !! i1 = Some (relName r1)).
  { change (map relName rels) with (relName <$> rels).
    rewrite list_lookup_fmap, H1. reflexivity. }
  assert (E2 : map relName rels !! i2 = Some (relName r1)).
  { change (map relName rels) with (relName <$> rels).
    rewrite list_lookup_fmap, H2, Hname. reflexivity. }
  assert (i1 = i2) by (eapply NoDup_lookup; eassumption).
  subst i2. congruence.
Qed.

Lemma mapInsert_lookup (m : gmap AstQualifiedName AstQualifiedName)
    (key value k v : AstQualifiedName) :
  mapInsert m key value !! k = Some v -> m !! k = Some v \/ (k = key /\ v = value).
Proof.
  unfold mapInsert. destruct (m !! key) eqn:E; [auto|].
  destruct (decide (k = key)) as [->|Hne].
  - rewrite lookup_insert_eq. intros H. inversion H. auto.
  - rewrite lookup_insert_ne by congruence. auto.
Qed.

Lemma compareWithLater_within (singletons : list ClausePtr) (first : ClausePtr)
    (later : list ClausePtr) :
  forall st st',
    first ∈ singletons -> (forall p, p ∈ later -> p ∈ singletons) ->
    withinSingletons singletons st ->
    compareWithLater first later st = Ok st' ->
    withinSingletons singletons st'.
Proof.
  induction later as [|second later IH]; intros st st' Hfirst Hlater Hst Hrun; simpl in Hrun.
  - inversion Hrun; subst. assumption.
  - destruct (areBijectivelyEquivalent first.2 second.2) as [same| |]; simpl in Hrun;
      try discriminate.
    eapply IH; [assumption | | | exact Hrun].
    + intros p Hp. apply Hlater. right. assumption.
    + destruct same; [|assumption].
      destruct Hst as [Hred Hcan]. split; simpl.
      * intros i Hi. apply elem_of_union in Hi. destruct Hi as [Hi|Hi]; [|auto].
        apply elem_of_singleton in Hi. subst i.
        exists second. split; [apply Hlater; left | reflexivity].
      * intros k v Hkv. apply mapInsert_lookup in Hkv.
        destruct Hkv as [Hkv|[-> ->]]; [auto|].
        exists second, first. split_and!; auto. apply Hlater. left.
Qed.

Lemma comparePairwise_within (singletons : list ClausePtr) (todo : list ClausePtr) :
  forall st st',
    (forall p, p ∈ todo -> p ∈ singletons) ->
    withinSingletons singletons st ->
    comparePairwise todo st = Ok st' ->
    withinSingletons singletons st'.
Proof.
  induction todo as [|first later IH]; intros st st' Htodo Hst Hrun; simpl in Hrun.
  - inversion Hrun; subst. assumption.
  - assert (Hlater : forall p, p ∈ later -> p ∈ singletons).
    { intros p Hp. apply Htodo. right. assumption. }
    destruct (decide (first.1 ∈ redundantClauses st)).
    + eapply IH; eassumption.
    + destruct (compareWithLater first later st) as [st1| |] eqn:E; simpl in Hrun;
        try discriminate.
      eapply IH; [assumption | | exact Hrun].
      eapply compareWithLater_within; [| | | exact E]; auto. apply Htodo. left.
Qed.

Lemma Atom_eqb_name (a b : AstAtom) :
  Atom_eqb a b = true -> getQualifiedName a = getQualifiedName b.
Proof.
  unfold Atom_eqb. intros H. apply andb_prop in H. destruct H as [H _].
  apply bool_decide_eq_true in H. assumption.
Qed.

Lemma removeFirstClause_other (cs : list AstClause) (clause c : AstClause) :
  c ∈ cs -> headName c <> headName clause -> c ∈ removeFirstClause cs clause.
Proof.
  intros Hin Hne. induction cs as [|d cs IH]; simpl.
  - apply elem_of_nil in Hin. contradiction.
  - apply elem_of_cons in Hin. destruct (Clause_eqb d clause) eqn:E.
    + destruct Hin as [->|Hin]; [|assumption].
      exfalso. apply Hne. unfold Clause_eqb in E.
      apply andb_prop in E. destruct E as [E _]. apply Atom_eqb_name in E. exact E.
    + destruct Hin as [->|Hin]; [left | right; auto].
Qed.

Lemma removeFirstClause_subset (cs : list AstClause) (clause c : AstClause) :
  c ∈ removeFirstClause cs clause -> c ∈ cs.
Proof.
  induction cs as [|d cs IH]; simpl; [auto|].
  destruct (Clause_eqb d clause); intros H.
  - right. assumption.
  - apply elem_of_cons in H. destruct H as [->|H]; [left | right; auto].
Qed.

Lemma removeFirstRelation_other (rels : list AstRelation) (name : AstQualifiedName)
    (rel : AstRelation) :
  rel ∈ rels -> relName rel <> name -> rel ∈ removeFirstRelation rels name.
Proof.
  intros Hin Hne. induction rels as [|r rels IH]; simpl.
  - apply elem_of_nil in Hin. contradiction.
  - apply elem_of_cons in Hin. destruct (bool_decide (relName r = name)) eqn:E.
    + destruct Hin as [->|Hin]; [|assumption].
      apply bool_decide_eq_true in E. contradiction.
    + destruct Hin as [->|Hin]; [left | right; auto].
Qed.

Lemma removeFirstRelation_subset (rels : list AstRelation) (name : AstQualifiedName)
    (rel : AstRelation) :
  rel ∈ removeFirstRelation rels name -> rel ∈ rels.
Proof.
  induction rels as [|r rels IH]; simpl; [auto|].
  destruct (bool_decide (relName r = name)); intros H.
  - right. assumption.
  - apply elem_of_cons in H. destruct H as [->|H]; [left | right; auto].
Qed.

(** The removal loop touches only relations and clauses that carry the
    head name of a redundant clause. *)
Lemma removeRedundantRelations_frame (redundant : list AstClause) :
  forall program program',
    removeRedundantRelations program redundant = Ok program' ->
    (forall rel, rel ∈ getRelations program ->
                 (forall clause, clause ∈ redundant -> relName rel <> headName clause) ->
                 rel ∈ getRelations program') /\
    (forall c, c ∈ programClauses program ->
               (forall clause, clause ∈ redundant -> headName c <> headName clause) ->
               c ∈ programClauses program') /\
    (forall rel, rel ∈ getRelations program' -> rel ∈ getRelations program) /\
    (forall c, c ∈ programClauses program' -> c ∈ programClauses program).
Proof.
  induction redundant as [|clause rest IH]; intros program program' Hrun; simpl in Hrun.
  - inversion Hrun; subst. split_and!; auto.
  - destruct (getRelation program _); [|discriminate].
    apply IH in Hrun. destruct Hrun as (Hrel & Hcl & Hrel' & Hcl'). simpl in *.
    split_and!.
    + intros rel Hin Hne. apply Hrel.
      * apply removeFirstRelation_other; [assumption|]. apply Hne. left.
      * intros c Hc. apply Hne. right. assumption.
    + intros c Hin Hne. apply Hcl.
      * apply removeFirstClause_other; [assumption|]. apply Hne. left.
      * intros c' Hc'. apply Hne. right. assumption.
    + intros rel Hin. eapply removeFirstRelation_subset. apply Hrel'. eassumption.
    + intros c Hin. eapply removeFirstClause_subset. apply Hcl'. eassumption.
Qed.

(** What a run of the Singleton Relation Unifier that returns leaves
    untouched. *)
Lemma singleton_unifier_frame (tu : AstTranslationUnit)
    (singletons : list ClausePtr) (found : Redundancy)
    (changed : bool) (tu' : AstTranslationUnit) :
  NoDup (map relName (getRelations (getProgram tu))) ->
  findRedundantSingletons tu = Ok (singletons, found) ->
  reduceSingletonRelations tu = Ok (changed, tu') ->
  (forall ptr, ptr ∈ singletons ->
     exists rel, rel ∈ getRelations (getProgram tu) /\ isIO tu rel = false /\
                 getClauses (getProgram tu) rel = [ptr]) /\
  (forall i, i ∈ redundantClauses found -> exists ptr, ptr ∈ singletons /\ ptr.1 = i) /\
  (forall rel, rel ∈ getRelations (getProgram tu) -> isIO tu rel = true ->
     (forall ptr, ptr ∈ getClauses (getProgram tu) rel -> ptr.1 ∉ redundantClauses found) /\
     canonicalName found !! relName rel = None /\
     (forall k, canonicalName found !! k <> Some (relName rel)) /\
     rel ∈ getRelations (getProgram tu') /\
     (forall c, c ∈ programClauses (getProgram tu) -> headName c = relName rel ->
                renameClause (canonicalName found) c ∈ programClauses (getProgram tu') /\
                getHead (renameClause (canonicalName found) c) = getHead c)).
Proof.
  intros Hnd Hfind Hrun.
  unfold reduceSingletonRelations in Hrun. rewrite Hfind in Hrun. cbn [bind fst snd] in Hrun.
  unfold findRedundantSingletons in Hfind.
  destruct (comparePairwise _ _) as [found0| |] eqn:Hpairs; cbn [bind] in Hfind;
    try discriminate.
  inversion Hfind; subst singletons found0. clear Hfind.
  set (singletons := singletonRelationClausesOf (isIO tu) (getProgram tu)
                       (getRelations (getProgram tu))) in *.
  assert (Hsing : forall ptr, ptr ∈ singletons ->
            exists rel, rel ∈ getRelations (getProgram tu) /\ isIO tu rel = false /\
                        getClauses (getProgram tu) rel = [ptr]).
  { intros ptr Hptr. apply singletonRelationClausesOf_elem. exact Hptr. }
  assert (Hwithin : withinSingletons singletons found).
  { eapply comparePairwise_within; [| |exact Hpairs]; [auto|].
    split; simpl.
    - intros i Hi. apply not_elem_of_empty in Hi. contradiction.
    - intros k v Hkv. rewrite lookup_empty in Hkv. discriminate. }
  destruct Hwithin as [Hred Hcan].
  assert (Hio : forall ptr rel, ptr ∈ singletons -> rel ∈ getRelations (getProgram tu) ->
                  isIO tu rel = true -> headName ptr.2 <> relName rel).
  { intros ptr rel Hptr Hrel Hflag Hname.
    destruct (Hsing ptr Hptr) as (rel0 & Hrel0 & Hflag0 & Hcs).
    assert (Hin : ptr ∈ getClauses (getProgram tu) rel0) by (rewrite Hcs; left).
    apply getClauses_elem in Hin. destruct Hin as [_ Hname0].
    assert (rel0 = rel).
    { eapply same_name_same_relation; try eassumption. congruence. }
    subst rel0. congruence. }
  split; [exact Hsing|]. split; [exact Hred|].
  intros rel Hrel Hflag.
  assert (Hkey : canonicalName found !! relName rel = None).
  { destruct (canonicalName found !! relName rel) as [v|] eqn:E; [|reflexivity].
    destruct (Hcan _ _ E) as (p & q & Hp & _ & Hk & _).
    exfalso. eapply Hio; [exact Hp | exact Hrel | exact Hflag | congruence]. }
  destruct (removeRedundantRelations _ _) as [program1| |] eqn:Hrem; cbn [bind] in Hrun;
    try discriminate.
  inversion Hrun; subst changed tu'. clear Hrun.
  apply removeRedundantRelations_frame in Hrem. destruct Hrem as (Hrels & Hcls & _ & _).
  assert (Hredundant : forall clause,
            clause ∈ map snd (List.filter
                                (fun ptr : ClausePtr =>
                                   bool_decide (ptr.1 ∈ redundantClauses found)) singletons) ->
            exists ptr, ptr ∈ singletons /\ clause = ptr.2).
  { intros clause Hclause.
    change (map snd ?l) with (snd <$> l) in Hclause.
    apply list_elem_of_fmap in Hclause. destruct Hclause as (ptr & -> & Hptr).
    apply list_elem_of_In, filter_In in Hptr. destruct Hptr as [Hptr _].
    exists ptr. split; [apply list_elem_of_In; assumption | reflexivity]. }
  split_and!.
  - intros ptr Hptr Hmarked.
    destruct (Hred _ Hmarked) as (q & Hq & Hidx).
    destruct (Hsing q Hq) as (rel0 & Hrel0 & Hflag0 & Hcs).
    assert (Hin : q ∈ getClauses (getProgram tu) rel0) by (rewrite Hcs; left).
    apply getClauses_elem in Hin. destruct Hin as [Hq2 _].
    apply getClauses_elem in Hptr. destruct Hptr as [Hp2 Hname].
    rewrite Hidx, Hp2 in Hq2. inversion Hq2 as [Heq].
    eapply Hio; [exact Hq | exact Hrel | exact Hflag | congruence].
  - exact Hkey.
  - intros k Hk. destruct (Hcan _ _ Hk) as (p & q & _ & Hq & _ & Hv).
    eapply Hio; [exact Hq | exact Hrel | exact Hflag | congruence].
  - simpl. apply Hrels; [assumption|].
    intros clause Hclause Hname. destruct (Hredundant _ Hclause) as (ptr & Hptr & ->).
    eapply Hio; [exact Hptr | exact Hrel | exact Hflag | congruence].
  - intros c Hc Hname. split.
    + simpl. change (map ?f ?l) with (f <$> l). apply list_elem_of_fmap_2.
      apply Hcls; [assumption|].
      intros clause Hclause Hname'. destruct (Hredundant _ Hclause) as (ptr & Hptr & ->).
      eapply Hio; [exact Hptr | exact Hrel | exact Hflag | congruence].
    + unfold renameClause, renameAtom. simpl.
      unfold headName in Hname. rewrite Hname, Hkey. reflexivity.
Qed.

(** The unifier on three equivalent singletons of which [B] is I/O: [D] is
    merged into [A], [B] is left alone. *)
Example reduceSingletonRelations_io :
  reduceSingletonRelations ioUnit
  = Ok (true, mkTU (mkProgram [relation1 "A"; relation1 "B"; relation1 "C"]
                              [rule "A" [var "x"] [atom "C" [var "x"]];
                               rule "B" [var "x"] [atom "C" [var "x"]]])
                   ioBC).
Proof. vm_compute. reflexivity. Qed.

(** ** Self-Implication Filter: the second run finds nothing *)

Lemma foldl_removeClause (program : AstProgram) (toRemove : list AstClause) :
  foldl removeClause program toRemove
  = mkProgram (getRelations program)
              (foldl removeFirstClause (programClauses program) toRemove).
Proof.
  revert program. induction toRemove as [|d ds IH]; intros program; simpl.
  - destruct program; reflexivity.
  - rewrite IH. reflexivity.
Qed.

Lemma foldl_removeFirstClause_keep (c : AstClause) (toRemove : list AstClause) :
  forall cs,
    (forall d, d ∈ toRemove -> d <> c) ->
    foldl removeFirstClause (c :: cs) toRemove
    = c :: foldl removeFirstClause cs toRemove.
Proof.
  induction toRemove as [|d ds IH]; intros cs Hne; simpl; [reflexivity|].
  rewrite Clause_eqb_neq.
  - apply IH. intros d' Hd'. apply Hne. right. assumption.
  - intros ->. apply (Hne d); [left | reflexivity].
Qed.

Lemma remove_filtered (f : AstClause -> bool) (cs : list AstClause) :
  foldl removeFirstClause cs (List.filter f cs) = List.filter (fun c => negb (f c)) cs.
Proof.
  induction cs as [|c cs IH]; simpl; [reflexivity|].
  destruct (f c) eqn:E; simpl.
  - rewrite Clause_eqb_refl. exact IH.
  - rewrite foldl_removeFirstClause_keep; [rewrite IH; reflexivity|].
    intros d Hd ->. apply list_elem_of_In, filter_In in Hd. destruct Hd as [_ Hd].
    congruence.
Qed.

Lemma filter_none {A : Type} (f : A -> bool) (xs : list A) :
  List.filter f (List.filter (fun x => negb (f x)) xs) = [].
Proof.
  induction xs as [|x xs IH]; simpl; [reflexivity|].
  destruct (f x) eqn:E; simpl; [exact IH|]. rewrite E. exact IH.
Qed.

Lemma filter_twice {A : Type} (f : A -> bool) (xs : list A) :
  List.filter f (List.filter f xs) = List.filter f xs.
Proof.
  induction xs as [|x xs IH]; simpl; [reflexivity|].
  destruct (f x) eqn:E; simpl; [rewrite E, IH; reflexivity | exact IH].
Qed.

Lemma removeRedundantClauses_filter (tu : AstTranslationUnit) :
  removeRedundantClauses tu
  = (negb (bool_decide (List.filter isRedundant (programClauses (getProgram tu)) = [])),
     mkTU (mkProgram (getRelations (getProgram tu))
                     (List.filter (fun c => negb (isRedundant c))
                                  (programClauses (getProgram tu))))
          (isIO tu)).
Proof.
  unfold removeRedundantClauses, withProgram.
  rewrite foldl_removeClause, remove_filtered. reflexivity.
Qed.

Lemma removeRedundantClauses_idempotent (tu : AstTranslationUnit) :
  removeRedundantClauses (removeRedundantClauses tu).2
  = (false, (removeRedundantClauses tu).2).
Proof.
  rewrite (removeRedundantClauses_filter tu). cbn [snd].
  rewrite removeRedundantClauses_filter. cbn [getProgram programClauses getRelations isIO].
  rewrite filter_none, filter_twice. reflexivity.
Qed.

(** ** Local Equivalence Reducer: the second run finds nothing *)

Lemma memClause_elem (clause : AstClause) (cs : list AstClause) :
  memClause clause cs = true <-> clause ∈ cs.
Proof.
  unfold memClause. rewrite existsb_exists. split.
  - intros (d & Hd & Heq). apply Clause_eqb_eq in Heq. subst d.
    apply list_elem_of_In. assumption.
  - intros H. exists clause. split; [apply list_elem_of_In; assumption|].
    apply Clause_eqb_refl.
Qed.

Lemma memClause_false (clause : AstClause) (cs : list AstClause) :
  memClause clause cs = false <-> clause ∉ cs.
Proof.
  rewrite <- memClause_elem. destruct (memClause clause cs); split; congruence.
Qed.

Lemma filter_ext_elem {A : Type} (f g : A -> bool) (xs : list A) :
  (forall x, x ∈ xs -> f x = g x) -> List.filter f xs = List.filter g xs.
Proof.
  intros H. apply List.filter_ext_in. intros x Hx. apply H, list_elem_of_In. assumption.
Qed.

Lemma filter_comm {A : Type} (f g : A -> bool) (xs : list A) :
  List.filter f (List.filter g xs) = List.filter g (List.filter f xs).
Proof.
  induction xs as [|x xs IH]; simpl; [reflexivity|].
  destruct (f x) eqn:Ef, (g x) eqn:Eg; simpl; rewrite ?Ef, ?Eg, IH; reflexivity.
Qed.

Lemma filter_elem {A : Type} (f : A -> bool) (xs : list A) (x : A) :
  x ∈ List.filter f xs <-> x ∈ xs /\ f x = true.
Proof. rewrite !list_elem_of_In. apply filter_In. Qed.

Lemma filter_NoDup {A : Type} (f : A -> bool) (xs : list A) :
  NoDup xs -> NoDup (List.filter f xs).
Proof. intros H. apply NoDup_ListNoDup, List.NoDup_filter, NoDup_ListNoDup, H. Qed.

Lemma filter_all {A : Type} (f : A -> bool) (xs : list A) :
  (forall x, x ∈ xs -> f x = true) -> List.filter f xs = xs.
Proof.
  induction xs as [|x xs IH]; intros H; simpl; [reflexivity|].
  rewrite H by left. f_equal. apply IH. intros y Hy. apply H. right. assumption.
Qed.

(** Without duplicates, removing by structural match is filtering. *)
Lemma removeFirstClause_filter (cs : list AstClause) (d : AstClause) :
  NoDup cs ->
  removeFirstClause cs d = List.filter (fun c => negb (Clause_eqb c d)) cs.
Proof.
  induction cs as [|c cs IH]; intros Hnd; simpl; [reflexivity|].
  apply NoDup_cons in Hnd. destruct Hnd as [Hc Hnd].
  destruct (Clause_eqb c d) eqn:E; simpl.
  - apply Clause_eqb_eq in E. subst d.
    symmetry. apply filter_all. intros x Hx. apply negb_true_iff.
    apply Clause_eqb_neq. intros ->. contradiction.
  - rewrite IH by assumption. reflexivity.
Qed.

Lemma foldl_removeFirstClause_filter (toRemove : list AstClause) :
  forall cs,
    NoDup cs ->
    foldl removeFirstClause cs toRemove
    = List.filter (fun c => negb (memClause c toRemove)) cs.
Proof.
  induction toRemove as [|d ds IH]; intros cs Hnd; simpl.
  - symmetry. apply filter_all. reflexivity.
  - rewrite removeFirstClause_filter by assumption.
    rewrite IH by (apply filter_NoDup; assumption).
    clear. induction cs as [|c cs IHc]; simpl; [reflexivity|].
    unfold memClause at 2. simpl. fold (memClause c ds).
    destruct (Clause_eqb c d); simpl; [exact IHc|].
    destruct (memClause c ds); simpl; [exact IHc|]. f_equal. exact IHc.
Qed.

Lemma clausesFrom_values (cs : list AstClause) (name : AstQualifiedName) :
  forall i, map snd (clausesFrom i cs name) = clausesNamed name cs.
Proof.
  unfold clausesNamed, headName.
  induction cs as [|c cs IH]; intros i; simpl; [reflexivity|].
  destruct (bool_decide (getQualifiedName (getHead c) = name)); simpl; rewrite IH; reflexivity.
Qed.

Lemma representatives_cons (rep : AstClause) (members : list AstClause)
    (rest : list (list AstClause)) :
  representatives ((rep :: members) :: rest) = rep :: representatives rest.
Proof. reflexivity. Qed.

Lemma joinClass_cons (rep : AstClause) (members : list AstClause)
    (rest : list (list AstClause)) (clause : AstClause) :
  joinClass ((rep :: members) :: rest) clause
  = (let* same := areBijectivelyEquivalent rep clause in
     if same then Ok (Some (((rep :: members) ++ [clause]) :: rest))
     else let* joined := joinClass rest clause in
          Ok (option_map (cons (rep :: members)) joined)).
Proof. reflexivity. Qed.

(** [joinClass] asks the representatives only. *)
Lemma joinClass_representatives (equivalenceClasses : list (list AstClause))
    (clause : AstClause) :
  Forall (fun eqClass => eqClass <> []) equivalenceClasses ->
  forall joined,
    joinClass equivalenceClasses clause = Ok joined ->
    anyEquivalent (representatives equivalenceClasses) clause
    = Ok (bool_decide (is_Some joined)) /\
    forall classes', joined = Some classes' ->
      representatives classes' = representatives equivalenceClasses /\
      Forall (fun eqClass => eqClass <> []) classes'.
Proof.
  induction 1 as [|eqClass rest Hne Hrest IH]; intros joined Hjoin.
  - simpl in Hjoin. inversion Hjoin; subst. split; [reflexivity | discriminate].
  - destruct eqClass as [|rep members]; [contradiction|].
    rewrite joinClass_cons in Hjoin. rewrite representatives_cons.
    cbn [anyEquivalent].
    destruct (areBijectivelyEquivalent rep clause) as [[|]| |]; cbn [bind] in *;
      try discriminate.
    + inversion Hjoin; subst. split; [reflexivity|].
      intros classes' Heq. inversion Heq; subst. split.
      * reflexivity.
      * constructor; [discriminate | assumption].
    + destruct (joinClass rest clause) as [joined'| |] eqn:E; cbn [bind] in Hjoin;
        try discriminate.
      inversion Hjoin; subst. destruct (IH _ eq_refl) as [Hany Hsome].
      split.
      * rewrite Hany. destruct joined'; reflexivity.
      * intros classes' Heq. destruct joined' as [rest'|]; [|discriminate].
        inversion Heq; subst. destruct (Hsome _ eq_refl) as [Hreps Hne'].
        split.
        -- rewrite !representatives_cons, Hreps. reflexivity.
        -- constructor; [discriminate | assumption].
Qed.

Lemma joinClass_none (equivalenceClasses : list (list AstClause)) (clause : AstClause) :
  Forall (fun eqClass => eqClass <> []) equivalenceClasses ->
  anyEquivalent (representatives equivalenceClasses) clause = Ok false ->
  joinClass equivalenceClasses clause = Ok None.
Proof.
  induction 1 as [|eqClass rest Hne Hrest IH]; intros Hany; [reflexivity|].
  destruct eqClass as [|rep members]; [contradiction|].
  rewrite representatives_cons in Hany. cbn [anyEquivalent] in Hany.
  rewrite joinClass_cons.
  destruct (areBijectivelyEquivalent rep clause) as [[|]| |]; cbn [bind] in *;
    try discriminate.
  rewrite IH by assumption. reflexivity.
Qed.

Lemma representatives_snoc (equivalenceClasses : list (list AstClause)) (clause : AstClause) :
  representatives (equivalenceClasses ++ [[clause]])
  = representatives equivalenceClasses ++ [clause].
Proof. unfold representatives. rewrite omap_app. reflexivity. Qed.

Lemma classify_fold (clausesOfRel : list AstClause) :
  forall equivalenceClasses del classes' del',
    Forall (fun eqClass => eqClass <> []) equivalenceClasses ->
    NoDup clausesOfRel ->
    foldOutcome classifyClause clausesOfRel (equivalenceClasses, del) = Ok (classes', del') ->
    exists deleted,
      del' = del ++ deleted /\
      (forall d, d ∈ deleted -> d ∈ clausesOfRel) /\
      keptAgain (representatives equivalenceClasses)
                (List.filter (fun c => negb (memClause c deleted)) clausesOfRel).
Proof.
  induction clausesOfRel as [|c cs IH]; intros classes del classes' del' Hne Hnd Hrun.
  - simpl in Hrun. inversion Hrun; subst. exists []. split_and!.
    + rewrite app_nil_r. reflexivity.
    + auto.
    + intros classes2 del2 _ _. exists classes2. reflexivity.
  - apply NoDup_cons in Hnd. destruct Hnd as [Hc Hnd].
    simpl in Hrun. unfold classifyClause at 1 in Hrun. cbn [fst snd] in Hrun.
    destruct (joinClass classes c) as [joined| |] eqn:Ejoin; cbn [bind] in Hrun;
      try discriminate.
    destruct (joinClass_representatives _ _ Hne _ Ejoin) as [Hany Hsome].
    destruct joined as [classes1|]; cbn [bind] in Hrun.
    + destruct (Hsome _ eq_refl) as [Hreps Hne1].
      destruct (IH _ _ _ _ Hne1 Hnd Hrun) as (deleted & -> & Hsub & Hagain).
      exists (c :: deleted). split_and!.
      * rewrite <- app_assoc. reflexivity.
      * intros d Hd. apply elem_of_cons in Hd. destruct Hd as [->|Hd]; [left | right; auto].
      * simpl. unfold memClause at 1. simpl. rewrite Clause_eqb_refl. simpl.
        rewrite (filter_ext_elem _ (fun c0 => negb (memClause c0 deleted))).
        { rewrite <- Hreps. exact Hagain. }
        intros x Hx. unfold memClause. simpl. rewrite Clause_eqb_neq; [reflexivity|].
        intros ->. contradiction.
    + assert (Hne1 : Forall (fun eqClass => eqClass <> []) (classes ++ [[c]])).
      { apply Forall_app. split; [assumption|]. constructor; [discriminate | constructor]. }
      destruct (IH _ _ _ _ Hne1 Hnd Hrun) as (deleted & -> & Hsub & Hagain).
      exists deleted. split_and!.
      * reflexivity.
      * intros d Hd. right. auto.
      * simpl. assert (Hcd : memClause c deleted = false).
        { apply memClause_false. intros Hin. apply Hc, Hsub, Hin. }
        rewrite Hcd. simpl.
        intros classes2 del2 Hne2 Hreps2. simpl.
        unfold classifyClause at 1. cbn [fst snd].
        rewrite joinClass_none; [|assumption|rewrite Hreps2; exact Hany].
        cbn [bind]. apply Hagain.
        -- apply Forall_app. split; [assumption|]. constructor; [discriminate | constructor].
        -- rewrite !representatives_snoc, Hreps2. reflexivity.
Qed.

Lemma getClauses_values (program : AstProgram) (rel : AstRelation) :
  map snd (getClauses program rel) = clausesNamed (relName rel) (programClauses program).
Proof. apply clausesFrom_values. Qed.

(** One relation: what is deleted are clauses of that relation, and the
    kept ones can be classified again without deletions. *)
Lemma classifyRelation_deleted (program : AstProgram) (del del' : list AstClause)
    (rel : AstRelation) :
  NoDup (programClauses program) ->
  classifyRelation program del rel = Ok del' ->
  exists deleted,
    del' = del ++ deleted /\
    (forall d, d ∈ deleted -> d ∈ programClauses program /\ headName d = relName rel) /\
    keptAgain [] (List.filter (fun c => negb (memClause c deleted))
                              (clausesNamed (relName rel) (programClauses program))).
Proof.
  intros Hnd Hrun. unfold classifyRelation in Hrun. rewrite getClauses_values in Hrun.
  destruct (foldOutcome classifyClause _ _) as [[classes' del1]| |] eqn:E;
    cbn [bind snd] in Hrun; try discriminate.
  inversion Hrun; subst del1. clear Hrun.
  apply classify_fold in E; [|constructor|apply filter_NoDup; assumption].
  destruct E as (deleted & -> & Hsub & Hagain).
  exists deleted. split_and!; auto.
  intros d Hd. apply Hsub, filter_elem in Hd. destruct Hd as [Hin Hname].
  apply bool_decide_eq_true in Hname. split; assumption.
Qed.

(** All relations: every relation has its own deleted clauses among the
    clauses added to [clausesToDelete]. *)
Lemma classifyRelations_deleted (program : AstProgram) (rels : list AstRelation) :
  forall del del',
    NoDup (programClauses program) ->
    NoDup (map relName rels) ->
    foldOutcome (classifyRelation program) rels del = Ok del' ->
    exists added,
      del' = del ++ added /\
      (forall d, d ∈ added -> exists rel, rel ∈ rels /\ headName d = relName rel) /\
      forall rel, rel ∈ rels ->
        exists deleted,
          (forall d, d ∈ deleted -> d ∈ added) /\
          (forall d, d ∈ added -> headName d = relName rel -> d ∈ deleted) /\
          keptAgain [] (List.filter (fun c => negb (memClause c deleted))
                                    (clausesNamed (relName rel) (programClauses program))).
Proof.
  induction rels as [|rel rels IH]; intros del del' Hcs Hnames Hrun; simpl in Hrun.
  - inversion Hrun; subst. exists []. split_and!.
    + rewrite app_nil_r. reflexivity.
    + intros d Hd. apply elem_of_nil in Hd. contradiction.
    + intros rel Hrel. apply elem_of_nil in Hrel. contradiction.
  - simpl in Hnames. apply NoDup_cons in Hnames. destruct Hnames as [Hfresh Hnames].
    destruct (classifyRelation program del rel) as [del1| |] eqn:E; cbn [bind] in Hrun;
      try discriminate.
    destruct (classifyRelation_deleted _ _ _ _ Hcs E) as (deleted & -> & Hdel & Hagain).
    destruct (IH _ _ Hcs Hnames Hrun) as (added & -> & Hadded & Hrels).
    exists (deleted ++ added). split_and!.
    + rewrite app_assoc. reflexivity.
    + intros d Hd. apply elem_of_app in Hd. destruct Hd as [Hd|Hd].
      * exists rel. split; [left | apply Hdel; assumption].
      * destruct (Hadded d Hd) as (rel' & Hrel' & Hname).
        exists rel'. split; [right; assumption | assumption].
    + intros rel0 Hrel0. apply elem_of_cons in Hrel0. destruct Hrel0 as [->|Hrel0].
      * exists deleted. split_and!.
        -- intros d Hd. apply elem_of_app. left. assumption.
        -- intros d Hd Hname. apply elem_of_app in Hd. destruct Hd as [Hd|Hd]; [assumption|].
           exfalso. destruct (Hadded d Hd) as (rel' & Hrel' & Hname').
           apply Hfresh. rewrite <- Hname, Hname'.
           change (map relName rels) with (relName <$> rels).
           apply list_elem_of_fmap_2. assumption.
        -- exact Hagain.
      * destruct (Hrels rel0 Hrel0) as (deleted0 & Hsub0 & Hall0 & Hagain0).
        exists deleted0. split_and!.
        -- intros d Hd. apply elem_of_app. right. auto.
        -- intros d Hd Hname. apply elem_of_app in Hd. destruct Hd as [Hd|Hd]; [|auto].
           exfalso. apply Hfresh. destruct (Hdel d Hd) as [_ Hname'].
           rewrite <- Hname', Hname.
           change (map relName rels) with (relName <$> rels).
           apply list_elem_of_fmap_2. assumption.
        -- exact Hagain0.
Qed.

(** The Local Equivalence Reducer on its own output. *)
Lemma reduceLocallyEquivalentClauses_idempotent (tu : AstTranslationUnit)
    (changed : bool) (tu1 : AstTranslationUnit) :
  NoDup (map relName (getRelations (getProgram tu))) ->
  NoDup (programClauses (getProgram tu)) ->
  reduceLocallyEquivalentClauses tu = Ok (changed, tu1) ->
  reduceLocallyEquivalentClauses tu1 = Ok (false, tu1).
Proof.
  intros Hnames Hcs Hrun. unfold reduceLocallyEquivalentClauses in Hrun.
  destruct (foldOutcome _ _ _) as [toDelete| |] eqn:E; cbn [bind] in Hrun; try discriminate.
  inversion Hrun; subst changed tu1. clear Hrun.
  destruct (classifyRelations_deleted _ _ _ _ Hcs Hnames E) as (added & Heq & _ & Hrels).
  simpl in Heq. subst added.
  unfold reduceLocallyEquivalentClauses, withProgram. cbn [getProgram isIO].
  rewrite foldl_removeClause. cbn [getRelations programClauses].
  rewrite foldl_removeFirstClause_filter by assumption.
  set (kept := List.filter (fun c => negb (memClause c toDelete))
                           (programClauses (getProgram tu))).
  assert (Hagain : forall rels del,
            (forall rel, rel ∈ rels -> rel ∈ getRelations (getProgram tu)) ->
            foldOutcome (classifyRelation (mkProgram (getRelations (getProgram tu)) kept))
                        rels del = Ok del).
  { induction rels as [|rel rels IH]; intros del Hsub; simpl; [reflexivity|].
    destruct (Hrels rel) as (deleted & Hin & Hall & Hkept); [apply Hsub; left|].
    unfold classifyRelation at 1. rewrite getClauses_values. cbn [programClauses].
    assert (Hsame : clausesNamed (relName rel) kept
                    = List.filter (fun c => negb (memClause c deleted))
                        (clausesNamed (relName rel) (programClauses (getProgram tu)))).
    { unfold kept, clausesNamed. rewrite filter_comm. apply filter_ext_elem.
      intros c Hc. apply filter_elem in Hc. destruct Hc as [_ Hname].
      apply bool_decide_eq_true in Hname. f_equal.
      destruct (memClause c deleted) eqn:Ed.
      - apply memClause_elem. apply Hin. apply memClause_elem. assumption.
      - apply memClause_false. intros Hc. apply memClause_false in Ed. apply Ed.
        apply Hall; assumption. }
    rewrite Hsame.
    destruct (Hkept [] del) as (classes2' & ->); [constructor | reflexivity|].
    cbn [bind snd]. apply IH. intros rel' Hrel'. apply Hsub. right. assumption. }
  rewrite Hagain by auto. cbn [bind foldl]. reflexivity.
Qed.

(** ** Running a sub-pass twice *)

(** C3, for the Singleton Relation Unifier.  After [B] has been merged into
    [A], the rules of [P] and [Q] both read [A]; a second run merges [Q]
    into [P] and reports a change. *)
Lemma singleton_unifier_not_idempotent :
  reduceSingletonRelations cascade = Ok (true, mkTU cascadeAfterOne onlyC) /\
  reduceSingletonRelations (mkTU cascadeAfterOne onlyC)
  = Ok (true, mkTU cascadeAfterTwo onlyC) /\
  cascadeAfterTwo <> cascadeAfterOne.
Proof.
  split_and!.
  - vm_compute. reflexivity.
  - vm_compute. reflexivity.
  - discriminate.
Qed.

(** The Body Deduplicator on its own output: the rule left with two copies
    by the first run loses one more in the second. *)
Example reduceClauseBodies_second_run :
  (reduceClauseBodies (reduceClauseBodies tripleUnit).2).1 = true /\
  programClauses (getProgram (reduceClauseBodies (reduceClauseBodies tripleUnit).2).2)
  = [rule "A" [var "x"] [atomBx]].
Proof. split; vm_compute; reflexivity. Qed.

(** The Local Equivalence Reducer on a relation with a duplicated rule:
    removal by structural match takes the first copy, which puts the rule
    accepted in one direction only behind the other one. *)
Example reduceLocallyEquivalentClauses_second_run :
  reduceLocallyEquivalentClauses duplicateUnit
  = Ok (true, mkTU (mkProgram [relation1 "H"; mkRelation ["A"] 3] [clauseNil; clauseVar]) noIO) /\
  reduceLocallyEquivalentClauses
    (mkTU (mkProgram [relation1 "H"; mkRelation ["A"] 3] [clauseNil; clauseVar]) noIO)
  = Ok (true, mkTU (mkProgram [relation1 "H"; mkRelation ["A"] 3] [clauseNil]) noIO).
Proof. split; vm_compute; reflexivity. Qed.

(** ** The iteration budget of the search always suffices *)

Lemma currentRowOf_Ok (row js r : list nat) :
  currentRowOf row js = Ok r -> forall j, j ∈ js -> j < length row.
Proof.
  revert r. induction js as [|j js IH]; intros r Hrun j' Hj'.
  - apply elem_of_nil in Hj'. contradiction.
  - simpl in Hrun. destruct (vecAt row j) as [x| |] eqn:Ex; cbn [bind] in Hrun;
      try discriminate.
    destruct (currentRowOf row js) as [rest| |] eqn:Erest; cbn [bind] in Hrun;
      try discriminate.
    apply elem_of_cons in Hj'. destruct Hj' as [->|Hj'].
    + apply vecAt_Ok in Ex. eapply lookup_lt_Some. eassumption.
    + eapply IH; [reflexivity | assumption].
Qed.

Lemma currentRowOf_fuel (row js : list nat) : currentRowOf row js <> OutOfFuel.
Proof.
  induction js as [|j js IH]; simpl; [discriminate|].
  unfold vecAt. destruct (row !! j); cbn [bind]; [|discriminate].
  destruct (currentRowOf row js); cbn [bind]; [discriminate | discriminate | contradiction].
Qed.

Lemma validMovesOf_Ok (m : list (list nat)) (n : nat) (rows : list nat) (vm : list (list nat)) :
  1 <= n ->
  validMovesOf m n rows = Ok vm ->
  forall i, i ∈ rows -> exists row, m !! i = Some row /\ n <= length row.
Proof.
  intros Hn. revert vm. induction rows as [|i rows IH]; intros vm Hrun i' Hi'.
  - apply elem_of_nil in Hi'. contradiction.
  - simpl in Hrun. destruct (vecAt m i) as [row| |] eqn:Erow; cbn [bind] in Hrun;
      try discriminate.
    destruct (currentRowOf row (seq 0 n)) as [cur| |] eqn:Ecur; cbn [bind] in Hrun;
      try discriminate.
    destruct (validMovesOf m n rows) as [rest| |] eqn:Erest; cbn [bind] in Hrun;
      try discriminate.
    apply elem_of_cons in Hi'. destruct Hi' as [->|Hi'].
    + exists row. split; [apply vecAt_Ok; assumption|].
      pose proof (currentRowOf_Ok _ _ _ Ecur (n - 1)) as Hlast.
      rewrite elem_of_seq in Hlast. lia.
    + eapply IH; [reflexivity | assumption].
Qed.

Lemma validMovesOf_fuel (m : list (list nat)) (n : nat) (rows : list nat) :
  validMovesOf m n rows <> OutOfFuel.
Proof.
  induction rows as [|i rows IH]; simpl; [discriminate|].
  unfold vecAt. destruct (m !! i) as [row|]; cbn [bind]; [|discriminate].
  pose proof (currentRowOf_fuel row (seq 0 n)) as Hrow.
  destruct (currentRowOf row (seq 0 n)); cbn [bind]; [|discriminate|contradiction].
  destruct (validMovesOf m n rows); cbn [bind]; [discriminate | discriminate | contradiction].
Qed.

(** Whatever the matrix, the model of [extractPermutations] never stops for
    lack of iterations: it returns, or the C++ code is undefined. *)
Lemma extractPermutations_budget (m : list (list nat)) :
  extractPermutations m <> OutOfFuel.
Proof.
  destruct (validMovesOf m (length m) (seq 0 (length m))) as [vm| |] eqn:Evm.
  - destruct (Nat.eq_dec (length m) 0) as [Hzero|Hpos].
    + destruct m; [|discriminate]. discriminate.
    + rewrite extractPermutations_completions; [discriminate | lia |].
      intros row Hrow. apply list_elem_of_lookup in Hrow. destruct Hrow as [i Hi].
      destruct (validMovesOf_Ok m (length m) _ vm ltac:(lia) Evm i) as (row' & Hrow' & Hlen).
      { apply elem_of_seq. apply lookup_lt_Some in Hi. lia. }
      congruence.
  - unfold extractPermutations. rewrite Evm. discriminate.
  - exfalso. eapply validMovesOf_fuel. eassumption.
Qed.

(** ** The oracle returns on well-formed clauses *)

Lemma matchArguments_total (leftArgs : list AstArgument) :
  forall rightArgs st,
    length leftArgs <= length rightArgs ->
    exists st', matchArguments st leftArgs rightArgs = Ok st'.
Proof.
  induction leftArgs as [|l ls IH]; intros rs st Hlen; simpl; [eauto|].
  destruct rs as [|r rs]; [simpl in Hlen; lia|].
  destruct (broken (matchArgument st l r)); [eauto|].
  apply IH. simpl in Hlen. lia.
Qed.

Lemma matchAtoms_total (leftAtoms : list AstLiteral) :
  forall rightAtoms st,
    length leftAtoms <= length rightAtoms ->
    (forall i l r, leftAtoms !! i = Some l -> rightAtoms !! i = Some r ->
                   exists a b, l = Atom a /\ r = Atom b /\ getArity a <= getArity b) ->
    exists st', matchAtoms st leftAtoms rightAtoms = Ok st'.
Proof.
  induction leftAtoms as [|l ls IH]; intros rs st Hlen Hpairs; simpl; [eauto|].
  destruct (validMapping st); simpl; [|eauto].
  destruct rs as [|r rs]; [simpl in Hlen; lia|].
  destruct (Hpairs 0 l r eq_refl eq_refl) as (a & b & -> & -> & Har). simpl.
  destruct (matchArguments_total (getArguments a) (getArguments b)
              (mkMatch (variableMap st) true false) Har) as [st1 ->].
  cbn [bind]. apply IH.
  - simpl in Hlen. lia.
  - intros i l r Hl Hr. apply (Hpairs (S i)); assumption.
Qed.

Lemma atomPositionsFrom_atoms (lits : list AstLiteral) :
  forall i, forallb isAtom lits = true -> atomPositionsFrom i lits = seq i (length lits).
Proof.
  induction lits as [|lit lits IH]; intros i Hall; simpl; [reflexivity|].
  simpl in Hall. apply andb_prop in Hall. destruct Hall as [Hlit Hall].
  rewrite Hlit, IH by assumption. reflexivity.
Qed.

Lemma vecSetN_pred {A : Type} (v : list A) (t : nat) (x : A) :
  1 <= t <= length v -> vecSetN v (uintPred t) x = Ok (<[t - 1 := x]> v).
Proof.
  intros Ht. destruct t as [|k]; [lia|]. unfold vecSetN, uintPred.
  destruct (decide (N.of_nat k < N.of_nat (length v))%N) as [_|Hno]; [|lia].
  rewrite Nat2N.id, vecSet_lt by lia. simpl. rewrite Nat.sub_0_r. reflexivity.
Qed.

(** The loop that turns "atom [i] goes to position [t]" into "position [t]
    holds atom [i]". *)
Lemma invertPermutation_spec (tail : list nat) :
  forall start acc,
    NoDup tail ->
    (forall t, t ∈ tail -> 1 <= t <= length acc) ->
    exists acc',
      invertPermutation (map uintPred tail) start acc = Ok acc' /\
      length acc' = length acc /\
      (forall i t, tail !! i = Some t -> acc' !! (t - 1) = Some (start + i)) /\
      (forall j, (forall t, t ∈ tail -> j <> t - 1) -> acc' !! j = acc !! j).
Proof.
  induction tail as [|t tail IH]; intros start acc Hnd Hrange; simpl.
  - exists acc. split_and!; auto. intros i t Hi. discriminate.
  - apply NoDup_cons in Hnd. destruct Hnd as [Ht Hnd].
    rewrite vecSetN_pred by (apply Hrange; left). cbn [bind].
    destruct (IH (S start) (<[t - 1 := start]> acc) Hnd) as (acc' & -> & Hlen & Hset & Hkeep).
    { intros t' Ht'. rewrite length_insert. apply Hrange. right. assumption. }
    exists acc'. rewrite length_insert in Hlen. split_and!; auto.
    + intros i t' Hi. destruct i as [|i]; simpl in Hi.
      * inversion Hi; subst t'. rewrite Hkeep.
        -- rewrite list_lookup_insert_eq; [f_equal; lia|].
           specialize (Hrange t ltac:(left)). lia.
        -- intros t' Ht' Heq. apply Ht.
           assert (1 <= t') by (apply Hrange; right; assumption).
           assert (1 <= t) by (apply Hrange; left).
           replace t with t' by lia. assumption.
      * rewrite (Hset i t' Hi). f_equal. lia.
    + intros j Hj. rewrite Hkeep.
      * apply list_lookup_insert_ne. intros Heq. apply (Hj t); [left | congruence].
      * intros t' Ht'. apply Hj. right. assumption.
Qed.

Lemma reorderedBody_atoms (bodyLiterals : list AstLiteral) (newOrder : list nat)
    (lits : list AstLiteral) :
  forall c,
    forallb isAtom lits = true ->
    (forall i, i < length lits ->
               exists k, newOrder !! (c + i) = Some k /\ k < length bodyLiterals) ->
    exists newBody,
      reorderedBody bodyLiterals (seq 0 (length bodyLiterals)) newOrder lits c = Ok newBody /\
      length newBody = length lits /\
      forall i k, i < length lits -> newOrder !! (c + i) = Some k ->
                  newBody !! i = bodyLiterals !! k.
Proof.
  induction lits as [|lit lits IH]; intros c Hall Horder; simpl.
  - exists []. split_and!; auto. intros i k Hi. simpl in Hi. lia.
  - simpl in Hall. apply andb_prop in Hall. destruct Hall as [Hlit Hall]. rewrite Hlit.
    destruct (Horder 0) as (k0 & Hk0 & Hlt0); [simpl; lia|].
    rewrite Nat.add_0_r in Hk0. rewrite (vecAt_Some _ _ _ Hk0). cbn [bind].
    rewrite (vecAt_Some _ _ k0) by (apply lookup_seq_lt; assumption). cbn [bind].
    destruct (lookup_lt_is_Some_2 bodyLiterals k0 Hlt0) as [moved Hmoved].
    rewrite (vecAt_Some _ _ _ Hmoved). cbn [bind].
    destruct (IH (S c) Hall) as (rest & -> & Hlen & Hrest).
    { intros i Hi. destruct (Horder (S i)) as (k & Hk & Hlt); [simpl; lia|].
      exists k. split; [|assumption]. rewrite <- Hk. f_equal. lia. }
    cbn [bind]. exists (moved :: rest). split_and!.
    + reflexivity.
    + simpl. lia.
    + intros i k Hi Hk. destruct i as [|i]; simpl.
      * rewrite Nat.add_0_r in Hk. congruence.
      * apply Hrest; [simpl in Hi; lia|]. rewrite <- Hk. f_equal. lia.
Qed.

Lemma reorderAtoms_atoms (clause : AstClause) (newOrder : list nat) :
  forallb isAtom (getBodyLiterals clause) = true ->
  length newOrder = length (getBodyLiterals clause) ->
  (forall k, k ∈ newOrder -> k < length (getBodyLiterals clause)) ->
  (forall i, i < length (getBodyLiterals clause) -> i ∈ newOrder) ->
  exists newBody,
    reorderAtoms clause newOrder = Ok (mkClause (getHead clause) newBody) /\
    length newBody = length (getBodyLiterals clause) /\
    forall c k, newOrder !! c = Some k -> newBody !! c = getBodyLiterals clause !! k.
Proof.
  intros Hall Hlen Hrange Hsurj. unfold reorderAtoms.
  rewrite atomPositionsFrom_atoms, length_seq by assumption.
  rewrite Hlen, Nat.eqb_refl. cbn [negb].
  assert (Hperm : forallb (fun i => existsb (Nat.eqb i) newOrder)
                          (seq 0 (length (getBodyLiterals clause))) = true).
  { apply forallb_forall. intros i Hi. apply in_seq in Hi.
    apply existsb_exists. exists i. split; [|apply Nat.eqb_refl].
    apply list_elem_of_In, Hsurj. lia. }
  rewrite Hperm. cbn [negb].
  destruct (reorderedBody_atoms (getBodyLiterals clause) newOrder (getBodyLiterals clause) 0 Hall)
    as (newBody & -> & Hlen' & Hbody).
  { intros i Hi. destruct (lookup_lt_is_Some_2 newOrder i) as [k Hk]; [lia|].
    exists k. split; [exact Hk|]. apply Hrange. eapply list_elem_of_lookup_2. eassumption. }
  cbn [bind]. exists newBody. split_and!; auto.
  intros c k Hk. apply Hbody; [|exact Hk].
  apply lookup_lt_Some in Hk. lia.
Qed.

(** A permutation of [0..n] that keeps 0 in place. *)
Lemma permutation_tail (n : nat) (p : list nat) :
  p ≡ₚ seq 0 (S n) -> p !! 0 = Some 0 ->
  exists tail,
    p = 0 :: tail /\ length tail = n /\ NoDup tail /\
    (forall t, t ∈ tail -> 1 <= t <= n) /\
    (forall c, c < n -> S c ∈ tail).
Proof.
  intros Hperm Hzero. destruct p as [|p0 tail]; [discriminate|].
  simpl in Hzero. inversion Hzero; subst p0.
  exists tail. simpl in Hperm. apply Permutation_cons_inv in Hperm.
  split_and!.
  - reflexivity.
  - rewrite Hperm. apply length_seq.
  - rewrite Hperm. apply NoDup_seq.
  - intros t Ht. rewrite Hperm in Ht. apply elem_of_seq in Ht. lia.
  - intros c Hc. rewrite Hperm. apply elem_of_seq. lia.
Qed.

Lemma matrixEntry_one (left right : AstClause) (i j : nat) :
  matrixEntry left right i j = 1 ->
  (i = 0 /\ j = 0) \/
  exists i' j' a b,
    i = S i' /\ j = S j' /\
    getBodyLiterals left !! i' = Some (Atom a) /\
    getBodyLiterals right !! j' = Some (Atom b) /\
    getQualifiedName a = getQualifiedName b.
Proof.
  destruct i as [|i'], j as [|j']; simpl; try discriminate; [auto|].
  intros H. right.
  destruct (getBodyLiterals left !! i') as [[a| | |]|] eqn:Ea; try discriminate.
  destruct (getBodyLiterals right !! j') as [[b| | |]|] eqn:Eb; try discriminate.
  destruct (bool_decide (getQualifiedName a = getQualifiedName b)) eqn:E; [|discriminate].
  apply bool_decide_eq_true in E.
  exists i', j', a, b. split_and!; auto.
Qed.

Lemma respectsMatrix_entry (m : list (list nat)) (p : list nat) (i j : nat) :
  respectsMatrix m p -> p !! i = Some j -> entryAt m i j = Some 1.
Proof.
  intros Hresp Hp. destruct (Hresp i j Hp) as (row & Hrow & Hone).
  unfold entryAt. rewrite Hrow. exact Hone.
Qed.

(** What the checker does with a permutation the enumerator can hand it:
    it walks, in lockstep with the right clause, a rearrangement of the left
    body in which every atom faces an atom of the same arity. *)
Lemma checkPermutation_shape (left right : AstClause) (m : list (list nat)) (p : list nat) :
  forallb isAtom (getBodyLiterals left) = true ->
  forallb isAtom (getBodyLiterals right) = true ->
  length (getBodyLiterals left) = length (getBodyLiterals right) ->
  getArity (getHead left) = getArity (getHead right) ->
  aritiesAgree left right ->
  (forall i j, i <= length (getBodyLiterals left) -> j <= length (getBodyLiterals left) ->
               entryAt m i j = Some (matrixEntry left right i j)) ->
  p ≡ₚ seq 0 (S (length (getBodyLiterals left))) ->
  respectsMatrix m p ->
  exists newBody,
    checkPermutation left right p
    = matchAtoms (mkMatch (initialVariableMap
                             (clauseVariableNames (mkClause (getHead left) newBody)))
                          true false)
                 (newBody ++ [Atom (getHead left)])
                 (getBodyLiterals right ++ [Atom (getHead right)]) /\
    length newBody = length (getBodyLiterals left) /\
    (forall k c, p !! S k = Some (S c) -> newBody !! c = getBodyLiterals left !! k) /\
    (forall lit, lit ∈ newBody <-> lit ∈ getBodyLiterals left) /\
    Forall2 sameShape (newBody ++ [Atom (getHead left)])
                      (getBodyLiterals right ++ [Atom (getHead right)]).
Proof.
  intros Hl Hr Hlen Hhead Harity Hentries Hperm Hresp.
  set (n := length (getBodyLiterals left)) in *.
  assert (Hplen : length p = S n) by (rewrite Hperm; apply length_seq).
  assert (Hbound : forall i j, p !! i = Some j -> i <= n /\ j <= n).
  { intros i j Hp. split.
    - apply lookup_lt_Some in Hp. lia.
    - apply list_elem_of_lookup_2 in Hp. rewrite Hperm in Hp. apply elem_of_seq in Hp. lia. }
  assert (Hnames : forall i j, p !! i = Some j -> matrixEntry left right i j = 1).
  { intros i j Hp. destruct (Hbound i j Hp) as [Hi Hj].
    pose proof (respectsMatrix_entry _ _ _ _ Hresp Hp) as He.
    rewrite Hentries in He by assumption. congruence. }
  assert (Hzero : p !! 0 = Some 0).
  { destruct (lookup_lt_is_Some_2 p 0) as [j Hj]; [lia|].
    destruct (matrixEntry_one _ _ _ _ (Hnames 0 j Hj)) as [[_ ->]|(i' & ? & ? & ? & Hi & _)];
      [assumption | discriminate]. }
  destruct (permutation_tail n p Hperm Hzero) as (tail & -> & Htlen & Hnd & Hrange & Hsurj).
  unfold checkPermutation.
  destruct (invertPermutation_spec tail 0 (replicate (length (map uintPred tail)) 0) Hnd)
    as (reordered & -> & Hrlen & Hset & _).
  { intros t Ht. rewrite length_replicate, length_map, Htlen. apply Hrange. assumption. }
  rewrite length_replicate, length_map, Htlen in Hrlen.
  cbn [bind].
  assert (Hinv : forall c k, reordered !! c = Some k -> tail !! k = Some (S c)).
  { intros c k Hk. assert (Hc : c < n) by (apply lookup_lt_Some in Hk; lia).
    specialize (Hsurj c Hc). apply list_elem_of_lookup in Hsurj. destruct Hsurj as [i Hi].
    specialize (Hset i (S c) Hi). simpl in Hset. rewrite Nat.sub_0_r in Hset.
    rewrite Hk in Hset. inversion Hset; subst k. exact Hi. }
  destruct (reorderAtoms_atoms left reordered Hl) as (newBody & -> & Hblen & Hbody).
  { exact Hrlen. }
  { intros k Hk. apply list_elem_of_lookup in Hk. destruct Hk as [c Hc].
    apply Hinv, lookup_lt_Some in Hc. fold n. lia. }
  { intros i Hi. fold n in Hi.
    destruct (lookup_lt_is_Some_2 tail i) as [t Ht]; [lia|].
    specialize (Hset i t Ht). simpl in Hset. eapply list_elem_of_lookup_2. exact Hset. }
  cbn [bind getBodyLiterals getHead]. fold n in Hblen.
  exists newBody. split; [reflexivity|]. split; [exact Hblen|]. split; [|split].
  - intros k c Hk. simpl in Hk. specialize (Hset k (S c) Hk). simpl in Hset.
    rewrite Nat.sub_0_r in Hset. apply Hbody. exact Hset.
  - intros lit. split.
    + intros Hlit. apply list_elem_of_lookup in Hlit. destruct Hlit as [c Hc].
      destruct (lookup_lt_is_Some_2 reordered c) as [k Hk].
      { apply lookup_lt_Some in Hc. lia. }
      rewrite (Hbody c k Hk) in Hc. eapply list_elem_of_lookup_2. exact Hc.
    + intros Hlit. apply list_elem_of_lookup in Hlit. destruct Hlit as [k Hk].
      destruct (lookup_lt_is_Some_2 tail k) as [t Ht].
      { apply lookup_lt_Some in Hk. fold n in Hk. lia. }
      specialize (Hset k t Ht). simpl in Hset.
      apply (list_elem_of_lookup_2 _ (t - 1)). rewrite (Hbody _ _ Hset). exact Hk.
  - apply Forall2_same_length_lookup_2.
    { rewrite !length_app. simpl. lia. }
    intros i l r Hli Hri.
    destruct (decide (i < n)) as [Hi|Hi].
    + rewrite lookup_app_l in Hli by lia. rewrite lookup_app_l in Hri by lia.
      destruct (lookup_lt_is_Some_2 reordered i) as [k Hk]; [lia|].
      rewrite (Hbody i k Hk) in Hli.
      pose proof (Hinv i k Hk) as Htail.
      assert (Hp : (0 :: tail) !! S k = Some (S i)) by exact Htail.
      destruct (matrixEntry_one _ _ _ _ (Hnames _ _ Hp))
        as [[Hbad _]|(i' & j' & a & b & Hi' & Hj' & Ha & Hb & Hname)]; [discriminate|].
      inversion Hi'; subst i'. inversion Hj'; subst j'.
      rewrite Ha in Hli. rewrite Hb in Hri. inversion Hli; subst l. inversion Hri; subst r.
      exists a, b. split_and!; auto.
      apply (Harity a b); [| |assumption]; eapply list_elem_of_lookup_2; eassumption.
    + assert (i = n).
      { apply lookup_lt_Some in Hli. rewrite length_app in Hli. simpl in Hli. lia. }
      subst i.
      rewrite lookup_app_r in Hli by lia. rewrite lookup_app_r in Hri by lia.
      rewrite Hblen, Nat.sub_diag in Hli. rewrite <- Hlen, Nat.sub_diag in Hri.
      simpl in Hli, Hri. inversion Hli; subst l. inversion Hri; subst r.
      exists (getHead left), (getHead right). split_and!; auto.
Qed.

(** The checker returns for every permutation the enumerator can hand it. *)
Lemma checkPermutation_total (left right : AstClause) (m : list (list nat)) (p : list nat) :
  forallb isAtom (getBodyLiterals left) = true ->
  forallb isAtom (getBodyLiterals right) = true ->
  length (getBodyLiterals left) = length (getBodyLiterals right) ->
  getArity (getHead left) = getArity (getHead right) ->
  aritiesAgree left right ->
  (forall i j, i <= length (getBodyLiterals left) -> j <= length (getBodyLiterals left) ->
               entryAt m i j = Some (matrixEntry left right i j)) ->
  p ≡ₚ seq 0 (S (length (getBodyLiterals left))) ->
  respectsMatrix m p ->
  exists st, checkPermutation left right p = Ok st.
Proof.
  intros Hl Hr Hlen Hhead Harity Hentries Hperm Hresp.
  destruct (checkPermutation_shape left right m p Hl Hr Hlen Hhead Harity Hentries Hperm Hresp)
    as (newBody & -> & _ & _ & _ & Hshape).
  apply matchAtoms_total.
  - apply Forall2_length in Hshape. lia.
  - intros i l r Hli Hri.
    destruct (Forall2_lookup_lr _ _ _ _ _ _ Hshape Hli Hri) as (a & b & -> & -> & Har).
    exists a, b. split_and!; auto. lia.
Qed.

Lemma anyValidPermutation_total (left right : AstClause) (perms : list (list nat)) :
  (forall p, p ∈ perms -> exists st, checkPermutation left right p = Ok st) ->
  exists b, anyValidPermutation left right perms = Ok b.
Proof.
  induction perms as [|p perms IH]; intros Hall; simpl; [eauto|].
  unfold isValidPermutation. destruct (Hall p) as [st ->]; [left|]. cbn [bind].
  destruct (validMapping st); [eauto|].
  apply IH. intros q Hq. apply Hall. right. assumption.
Qed.

(** The oracle is total on clauses whose equally named atoms have equal
    arities: it answers true or false, without undefined behaviour and
    within the iteration budget of the search. *)
Theorem areBijectivelyEquivalent_total (left right : AstClause) :
  aritiesAgree left right ->
  exists b, areBijectivelyEquivalent left right = Ok b.
Proof.
  intros Harity. unfold areBijectivelyEquivalent.
  destruct (isValidClause left) eqn:El; [|simpl; eauto].
  destruct (isValidClause right) eqn:Er; [|simpl; eauto].
  simpl.
  destruct (Nat.eqb_spec (length (getBodyLiterals left)) (length (getBodyLiterals right)))
    as [Hlen|_]; [|simpl; eauto].
  simpl.
  destruct (Nat.eqb_spec (getArity (getHead left)) (getArity (getHead right)))
    as [Hhead|_]; [|simpl; eauto].
  simpl.
  destruct (negb (_ =? _)); [eauto|].
  unfold isValidClause in El, Er.
  apply andb_prop in El. destruct El as [Hl _].
  apply andb_prop in Er. destruct Er as [Hr _].
  destruct (permutationMatrixOf_entries left right Hl Hr Hlen) as (m & -> & Hsq & Hentries).
  cbn [bind]. destruct Hsq as [Hmlen Hrows].
  destruct (extractPermutations_square m (S (length (getBodyLiterals left))) Hmlen
              ltac:(lia) Hrows) as (perms & -> & _ & Hperms & _).
  cbn [bind]. apply anyValidPermutation_total.
  intros p Hp. apply Hperms in Hp. destruct Hp as (_ & Hperm & Hresp).
  eapply checkPermutation_total; eassumption.
Qed.

(** ** The sub-passes return on well-formed programs *)

Lemma aritiesAgreeIn_within (cs cs' : list AstClause) :
  bodiesWithin cs cs' -> aritiesAgreeIn cs -> aritiesAgreeIn cs'.
Proof.
  intros Hwithin Hcs c' d' Hc' Hd' a b Ha Hb Hname.
  destruct (Hwithin c' Hc') as (c & Hc & Hbc).
  destruct (Hwithin d' Hd') as (d & Hd & Hbd).
  apply (Hcs c d Hc Hd a b); auto.
Qed.

Lemma bodiesWithin_subset (cs cs' : list AstClause) :
  (forall c, c ∈ cs' -> c ∈ cs) -> bodiesWithin cs cs'.
Proof. intros Hsub c' Hc'. exists c'. split; [apply Hsub; assumption | auto]. Qed.

Lemma foldl_removeFirstClause_subset (toRemove : list AstClause) :
  forall cs c, c ∈ foldl removeFirstClause cs toRemove -> c ∈ cs.
Proof.
  induction toRemove as [|d ds IH]; intros cs c Hc; simpl in Hc; [assumption|].
  apply IH in Hc. eapply removeFirstClause_subset. eassumption.
Qed.

Lemma joinClass_total (cs : list AstClause) (equivalenceClasses : list (list AstClause))
    (clause : AstClause) :
  aritiesAgreeIn cs -> clause ∈ cs ->
  Forall (fun eqClass => eqClass <> [] /\ forall c, c ∈ eqClass -> c ∈ cs) equivalenceClasses ->
  exists joined,
    joinClass equivalenceClasses clause = Ok joined /\
    forall classes', joined = Some classes' ->
      Forall (fun eqClass => eqClass <> [] /\ forall c, c ∈ eqClass -> c ∈ cs) classes'.
Proof.
  intros Hcs Hclause. induction 1 as [|eqClass rest [Hne Hin] Hrest IH].
  - exists None. split; [reflexivity | discriminate].
  - destruct eqClass as [|rep members]; [contradiction|].
    rewrite joinClass_cons.
    destruct (areBijectivelyEquivalent_total rep clause) as [same ->].
    { apply Hcs; [apply Hin; left | assumption]. }
    cbn [bind]. destruct same.
    + eexists. split; [reflexivity|]. intros classes' Heq. inversion Heq; subst.
      constructor; [|assumption]. split; [discriminate|].
      intros c Hc. change (rep :: members ++ [clause]) with ((rep :: members) ++ [clause]) in Hc.
      apply elem_of_app in Hc. destruct Hc as [Hc|Hc]; [auto|].
      apply list_elem_of_singleton in Hc. subst c. assumption.
    + destruct IH as (joined & -> & Hjoined). cbn [bind].
      eexists. split; [reflexivity|]. intros classes' Heq.
      destruct joined as [rest'|]; [|discriminate]. inversion Heq; subst.
      constructor; [split; assumption | apply Hjoined; reflexivity].
Qed.

Lemma classify_total (cs : list AstClause) (clausesOfRel : list AstClause) :
  aritiesAgreeIn cs ->
  (forall c, c ∈ clausesOfRel -> c ∈ cs) ->
  forall equivalenceClasses del,
    Forall (fun eqClass => eqClass <> [] /\ forall c, c ∈ eqClass -> c ∈ cs) equivalenceClasses ->
    exists st, foldOutcome classifyClause clausesOfRel (equivalenceClasses, del) = Ok st.
Proof.
  intros Hcs. induction clausesOfRel as [|c rest IH]; intros Hsub classes del Hinv; simpl;
    [eauto|].
  unfold classifyClause at 1. cbn [fst snd].
  destruct (joinClass_total cs classes c Hcs) as (joined & -> & Hjoined);
    [apply Hsub; left | assumption |].
  cbn [bind]. destruct joined as [classes'|]; cbn [bind].
  - apply IH; [intros; apply Hsub; right; assumption | apply Hjoined; reflexivity].
  - apply IH; [intros; apply Hsub; right; assumption|].
    apply Forall_app. split; [assumption|]. constructor; [|constructor].
    split; [discriminate|]. intros c' Hc'. apply list_elem_of_singleton in Hc'. subst c'.
    apply Hsub. left.
Qed.

Lemma clausesNamed_subset (name : AstQualifiedName) (cs : list AstClause) (c : AstClause) :
  c ∈ clausesNamed name cs -> c ∈ cs.
Proof. unfold clausesNamed. intros H. apply filter_elem in H. tauto. Qed.

Lemma reduceLocallyEquivalentClauses_total (tu : AstTranslationUnit) :
  aritiesAgreeIn (programClauses (getProgram tu)) ->
  exists changed tu',
    reduceLocallyEquivalentClauses tu = Ok (changed, tu') /\
    isIO tu' = isIO tu /\
    getRelations (getProgram tu') = getRelations (getProgram tu) /\
    forall c, c ∈ programClauses (getProgram tu') -> c ∈ programClauses (getProgram tu).
Proof.
  intros Hcs. unfold reduceLocallyEquivalentClauses.
  assert (Hfold : forall rels del,
            exists del', foldOutcome (classifyRelation (getProgram tu)) rels del = Ok del').
  { induction rels as [|rel rels IH]; intros del; simpl; [eauto|].
    unfold classifyRelation at 1. rewrite getClauses_values.
    destruct (classify_total (programClauses (getProgram tu))
                (clausesNamed (relName rel) (programClauses (getProgram tu))) Hcs
                (clausesNamed_subset _ _) [] del) as [st ->]; [constructor|].
    cbn [bind]. apply IH. }
  destruct (Hfold (getRelations (getProgram tu)) []) as [toDelete ->]. cbn [bind].
  eexists. eexists. split; [reflexivity|]. unfold withProgram. simpl.
  rewrite foldl_removeClause. simpl. split_and!; auto.
  apply foldl_removeFirstClause_subset.
Qed.

Lemma compareWithLater_total (cs : list AstClause) (first : ClausePtr)
    (later : list ClausePtr) :
  aritiesAgreeIn cs -> first.2 ∈ cs -> (forall p, p ∈ later -> p.2 ∈ cs) ->
  forall st, exists st', compareWithLater first later st = Ok st'.
Proof.
  intros Hcs Hfirst. induction later as [|second later IH]; intros Hlater st; simpl; [eauto|].
  destruct (areBijectivelyEquivalent_total first.2 second.2) as [same ->].
  { apply Hcs; [assumption | apply Hlater; left]. }
  cbn [bind]. apply IH. intros p Hp. apply Hlater. right. assumption.
Qed.

Lemma comparePairwise_total (cs : list AstClause) (singletons : list ClausePtr) :
  aritiesAgreeIn cs -> (forall p, p ∈ singletons -> p.2 ∈ cs) ->
  forall st, exists st', comparePairwise singletons st = Ok st'.
Proof.
  intros Hcs. induction singletons as [|first later IH]; intros Hsub st; simpl; [eauto|].
  assert (Hlater : forall p, p ∈ later -> p.2 ∈ cs) by (intros; apply Hsub; right; assumption).
  destruct (decide (first.1 ∈ redundantClauses st)); [apply IH; assumption|].
  destruct (compareWithLater_total cs first later Hcs (Hsub first ltac:(left)) Hlater st)
    as [st1 ->].
  cbn [bind]. apply IH. assumption.
Qed.

Lemma getRelation_Some (program : AstProgram) (rel : AstRelation) :
  rel ∈ getRelations program -> exists rel', getRelation program (relName rel) = Some rel'.
Proof.
  intros Hrel. unfold getRelation.
  destruct (find _ _) as [rel'|] eqn:E; [eauto|].
  exfalso. apply list_elem_of_In in Hrel.
  pose proof (find_none _ _ E rel Hrel) as Hno.
  apply bool_decide_eq_false in Hno. contradiction.
Qed.

Lemma removeRedundantRelations_total (redundant : list AstClause) :
  forall program,
    NoDup (map headName redundant) ->
    (forall c, c ∈ redundant ->
               exists rel, rel ∈ getRelations program /\ relName rel = headName c) ->
    exists program', removeRedundantRelations program redundant = Ok program'.
Proof.
  induction redundant as [|clause rest IH]; intros program Hnd Hrels; simpl; [eauto|].
  simpl in Hnd. apply NoDup_cons in Hnd. destruct Hnd as [Hfresh Hnd].
  destruct (Hrels clause) as (rel & Hrel & Hname); [left|].
  destruct (getRelation_Some program rel Hrel) as [rel' Hget].
  fold (headName clause). rewrite <- Hname, Hget, Hname.
  apply IH; [assumption|].
  intros c Hc. destruct (Hrels c) as (rel0 & Hrel0 & Hname0); [right; assumption|].
  exists rel0. split; [|assumption]. simpl.
  apply removeFirstRelation_other; [assumption|].
  rewrite Hname0. intros Heq. apply Hfresh. rewrite <- Heq.
  change (map headName rest) with (headName <$> rest). apply list_elem_of_fmap_2. assumption.
Qed.

Lemma singletonRelationClausesOf_names (io : AstRelation -> bool) (program : AstProgram)
    (rels : list AstRelation) (f : ClausePtr -> bool) :
  NoDup (map relName rels) ->
  NoDup (map headName
             (map snd (List.filter f (singletonRelationClausesOf io program rels)))) /\
  forall c, c ∈ map snd (List.filter f (singletonRelationClausesOf io program rels)) ->
            exists rel, rel ∈ rels /\ relName rel = headName c.
Proof.
  induction rels as [|rel rels IH]; intros Hnd; simpl.
  - split; [apply NoDup_nil_2|]. intros c Hc. apply elem_of_nil in Hc. contradiction.
  - simpl in Hnd. apply NoDup_cons in Hnd. destruct Hnd as [Hfresh Hnd].
    destruct (IH Hnd) as [IHnd IHrel].
    assert (Hrest : NoDup (map headName
                     (map snd (List.filter f (singletonRelationClausesOf io program rels)))) /\
                   forall c, c ∈ map snd (List.filter f
                                            (singletonRelationClausesOf io program rels)) ->
                             exists rel0, rel0 ∈ rel :: rels /\ relName rel0 = headName c).
    { split; [assumption|]. intros c Hc. destruct (IHrel c Hc) as (rel0 & Hin & Hname).
      exists rel0. split; [right; assumption | assumption]. }
    destruct (negb (io rel) && (length (getClauses program rel) =? 1)); [|exact Hrest].
    destruct (getClauses program rel) as [|ptr others] eqn:Ecs; [exact Hrest|].
    assert (Hptr : headName ptr.2 = relName rel).
    { assert (Hin : ptr ∈ getClauses program rel) by (rewrite Ecs; left).
      apply getClauses_elem in Hin. tauto. }
    simpl. destruct (f ptr); [|exact Hrest]. simpl. split.
    + apply NoDup_cons. split; [|assumption].
      intros Hin. change (map headName ?l) with (headName <$> l) in Hin.
      apply list_elem_of_fmap in Hin. destruct Hin as (c & Hc & Hcin).
      destruct (IHrel c Hcin) as (rel0 & Hrel0 & Hname0).
      apply Hfresh. rewrite <- Hptr, Hc, <- Hname0.
      change (map relName rels) with (relName <$> rels). apply list_elem_of_fmap_2. assumption.
    + intros c Hc. apply elem_of_cons in Hc. destruct Hc as [->|Hc].
      * exists rel. split; [left | congruence].
      * destruct Hrest as [_ Hrest]. apply Hrest. assumption.
Qed.

Lemma singletonRelationClausesOf_clauses (io : AstRelation -> bool) (program : AstProgram)
    (rels : list AstRelation) (ptr : ClausePtr) :
  ptr ∈ singletonRelationClausesOf io program rels -> ptr.2 ∈ programClauses program.
Proof.
  intros Hptr. apply singletonRelationClausesOf_elem in Hptr.
  destruct Hptr as (rel & _ & _ & Hcs).
  assert (Hin : ptr ∈ getClauses program rel) by (rewrite Hcs; left).
  apply getClauses_elem in Hin. destruct Hin as [Hin _].
  eapply list_elem_of_lookup_2. eassumption.
Qed.

Lemma reduceSingletonRelations_total (tu : AstTranslationUnit) :
  wellFormed (getProgram tu) ->
  exists changed tu', reduceSingletonRelations tu = Ok (changed, tu').
Proof.
  intros [Hnames Hcs]. unfold reduceSingletonRelations, findRedundantSingletons.
  destruct (comparePairwise_total (programClauses (getProgram tu))
              (singletonRelationClausesOf (isIO tu) (getProgram tu)
                                          (getRelations (getProgram tu)))
              Hcs (singletonRelationClausesOf_clauses _ _ _) (mkRedundancy ∅ ∅))
    as [found ->].
  cbn [bind fst snd].
  destruct (singletonRelationClausesOf_names (isIO tu) (getProgram tu)
              (getRelations (getProgram tu))
              (fun ptr : ClausePtr => bool_decide (ptr.1 ∈ redundantClauses found)) Hnames)
    as [Hnd Hrels].
  destruct (removeRedundantRelations_total _ (getProgram tu) Hnd Hrels) as [program1 ->].
  cbn [bind]. eauto.
Qed.

Lemma foldl_addClause (program : AstProgram) (toAdd : list AstClause) :
  foldl addClause program toAdd
  = mkProgram (getRelations program) (programClauses program ++ toAdd).
Proof.
  revert program. induction toAdd as [|c cs IH]; intros program; simpl.
  - rewrite app_nil_r. destruct program; reflexivity.
  - rewrite IH. simpl. rewrite <- app_assoc. reflexivity.
Qed.

Lemma keepFrom_subset (bodyLiterals : list AstLiteral) (redundant : gset nat) :
  forall i lit, lit ∈ keepFrom i bodyLiterals redundant -> lit ∈ bodyLiterals.
Proof.
  induction bodyLiterals as [|l ls IH]; intros i lit Hlit; simpl in Hlit; [assumption|].
  destruct (decide (i ∈ redundant)).
  - right. eapply IH. eassumption.
  - apply elem_of_cons in Hlit. destruct Hlit as [->|Hlit]; [left | right; eapply IH; eassumption].
Qed.

Lemma minimisedClauseOf_within (clause minimised : AstClause) :
  minimisedClauseOf clause = Some minimised ->
  getHead minimised = getHead clause /\
  forall lit, lit ∈ getBodyLiterals minimised -> lit ∈ getBodyLiterals clause.
Proof.
  unfold minimisedClauseOf. destruct (decide (_ = ∅)); [discriminate|].
  intros H. inversion H; subst. simpl. split; [reflexivity|].
  intros lit. apply keepFrom_subset.
Qed.

(** The Body Deduplicator keeps the relations and the well-formedness. *)
Lemma reduceClauseBodies_wellFormed (tu : AstTranslationUnit) :
  wellFormed (getProgram tu) -> wellFormed (getProgram (reduceClauseBodies tu).2).
Proof.
  intros [Hnames Hcs]. unfold reduceClauseBodies, withProgram. cbn [snd getProgram].
  rewrite foldl_addClause, foldl_removeClause. cbn [getRelations programClauses].
  split; [assumption|].
  eapply aritiesAgreeIn_within; [|exact Hcs].
  intros c' Hc'. apply elem_of_app in Hc'. destruct Hc' as [Hc'|Hc'].
  - exists c'. split; [|auto]. eapply foldl_removeFirstClause_subset. eassumption.
  - change (map snd ?l) with (snd <$> l) in Hc'.
    apply list_elem_of_fmap in Hc'. destruct Hc' as ([c minimised] & -> & Hpair).
    apply list_elem_of_omap in Hpair. destruct Hpair as (c0 & Hc0 & Hmin).
    destruct (minimisedClauseOf c0) as [minimised0|] eqn:E; [|discriminate].
    inversion Hmin; subst. exists c. split; [assumption|].
    apply minimisedClauseOf_within in E. tauto.
Qed.

(** So does the Self-Implication Filter. *)
Lemma removeRedundantClauses_wellFormed (tu : AstTranslationUnit) :
  wellFormed (getProgram tu) -> wellFormed (getProgram (removeRedundantClauses tu).2).
Proof.
  intros [Hnames Hcs]. rewrite removeRedundantClauses_filter. cbn [snd getProgram].
  split; [assumption|]. cbn [programClauses].
  eapply aritiesAgreeIn_within; [|exact Hcs].
  apply bodiesWithin_subset. intros c Hc. apply filter_elem in Hc. tauto.
Qed.

(** The driver returns on every well-formed program. *)
Theorem transform_total (tu : AstTranslationUnit) :
  wellFormed (getProgram tu) ->
  exists changed tu', transform tu = Ok (changed, tu').
Proof.
  intros Hwf. unfold transform. cbv zeta.
  apply reduceClauseBodies_wellFormed in Hwf.
  apply removeRedundantClauses_wellFormed in Hwf.
  set (tu2 := (removeRedundantClauses (reduceClauseBodies tu).2).2) in *.
  destruct Hwf as [Hnames Hcs].
  destruct (reduceLocallyEquivalentClauses_total tu2 Hcs)
    as (c3 & tu3 & -> & _ & Hrels & Hsub).
  cbn [bind fst snd].
  destruct (reduceSingletonRelations_total tu3) as (c4 & tu4 & ->).
  { split; [rewrite Hrels; assumption|].
    eapply aritiesAgreeIn_within; [|exact Hcs]. apply bodiesWithin_subset. exact Hsub. }
  cbn [bind]. eauto.
Qed.

Lemma transform_total_witness :
  wellFormed (getProgram cascade) /\ exists changed tu', transform cascade = Ok (changed, tu').
Proof.
  assert (Hwf : wellFormed (getProgram cascade)).
  { split.
    - apply (bool_decide_unpack _). vm_compute. exact I.
    - intros c d Hc Hd a b Ha Hb _.
      repeat (apply elem_of_cons in Hc; destruct Hc as [->|Hc]);
        try (apply elem_of_nil in Hc; contradiction);
        repeat (apply elem_of_cons in Hd; destruct Hd as [->|Hd]);
        try (apply elem_of_nil in Hd; contradiction);
        apply list_elem_of_singleton in Ha, Hb; inversion Ha; inversion Hb; reflexivity. }
  split; [exact Hwf | apply transform_total; exact Hwf].
Defined.

(** ** The claims on the driver, the unifier and repeated runs *)

(** C6. The driver runs the Body Deduplicator, the Self-Implication Filter,
    the Local Equivalence Reducer and the Singleton Relation Unifier, once
    each and in this order, every pass on the result of the one before; the
    flag it returns is the "or" of the four change flags; and it does
    return on every well-formed program. *)
Theorem transform_runs_four_passes_once (tu : AstTranslationUnit) :
  transform tu
  = runInOrder [BodyDeduplicator; SelfImplicationFilter;
                LocalEquivalenceReducer; SingletonRelationUnifier] false tu
  /\
  (forall changed tu',
     transform tu = Ok (changed, tu') ->
     exists c1 tu1 c2 tu2 c3 tu3 c4,
       reduceClauseBodies tu = (c1, tu1) /\
       removeRedundantClauses tu1 = (c2, tu2) /\
       reduceLocallyEquivalentClauses tu2 = Ok (c3, tu3) /\
       reduceSingletonRelations tu3 = Ok (c4, tu') /\
       changed = c1 || c2 || c3 || c4)
  /\
  (wellFormed (getProgram tu) -> exists changed tu', transform tu = Ok (changed, tu')).
Proof.
  split; [apply transform_in_order|]. split; [apply transform_in_order|].
  apply transform_total.
Qed.

Lemma cascade_wellFormed : wellFormed (getProgram cascade).
Proof. exact (proj1 transform_total_witness). Qed.

Lemma transform_runs_four_passes_once_witness :
  wellFormed (getProgram cascade) /\
  exists changed tu',
    transform cascade = Ok (changed, tu') /\
    exists c1 tu1 c2 tu2 c3 tu3 c4,
      reduceClauseBodies cascade = (c1, tu1) /\
      removeRedundantClauses tu1 = (c2, tu2) /\
      reduceLocallyEquivalentClauses tu2 = Ok (c3, tu3) /\
      reduceSingletonRelations tu3 = Ok (c4, tu') /\
      changed = c1 || c2 || c3 || c4.
Proof.
  split; [exact cascade_wellFormed|].
  destruct (proj2 (proj2 (transform_runs_four_passes_once cascade)) cascade_wellFormed)
    as (changed & tu' & E).
  exists changed, tu'. split; [exact E|].
  apply (proj1 (proj2 (transform_runs_four_passes_once cascade)) changed tu'). exact E.
Defined.

(** C9. In a program whose relations have distinct names, the Singleton
    Relation Unifier works on the sole clauses of non-I/O relations only.
    For a relation the I/O oracle flags, no clause of it is marked
    redundant, its name is neither replaced nor chosen as a canonical name,
    the relation stays in the program, and its clauses stay with their
    heads unchanged (atoms in their bodies may be renamed).  The pass
    returns whenever, in addition, equally named atoms have equal
    arities. *)
Theorem singleton_unifier_spares_io (tu : AstTranslationUnit) :
  NoDup (map relName (getRelations (getProgram tu))) ->
  (forall singletons found changed tu',
     findRedundantSingletons tu = Ok (singletons, found) ->
     reduceSingletonRelations tu = Ok (changed, tu') ->
     (forall ptr, ptr ∈ singletons ->
        exists rel, rel ∈ getRelations (getProgram tu) /\ isIO tu rel = false /\
                    getClauses (getProgram tu) rel = [ptr]) /\
     (forall i, i ∈ redundantClauses found -> exists ptr, ptr ∈ singletons /\ ptr.1 = i) /\
     (forall rel, rel ∈ getRelations (getProgram tu) -> isIO tu rel = true ->
        (forall ptr, ptr ∈ getClauses (getProgram tu) rel -> ptr.1 ∉ redundantClauses found) /\
        canonicalName found !! relName rel = None /\
        (forall k, canonicalName found !! k <> Some (relName rel)) /\
        rel ∈ getRelations (getProgram tu') /\
        (forall c, c ∈ programClauses (getProgram tu) -> headName c = relName rel ->
                   renameClause (canonicalName found) c ∈ programClauses (getProgram tu') /\
                   getHead (renameClause (canonicalName found) c) = getHead c)))
  /\
  (aritiesAgreeIn (programClauses (getProgram tu)) ->
   exists singletons found changed tu',
     findRedundantSingletons tu = Ok (singletons, found) /\
     reduceSingletonRelations tu = Ok (changed, tu')).
Proof.
  intros Hnames. split.
  - intros singletons found changed tu' Hfind Hrun.
    exact (singleton_unifier_frame tu singletons found changed tu' Hnames Hfind Hrun).
  - intros Hcs.
    destruct (reduceSingletonRelations_total tu (conj Hnames Hcs)) as (changed & tu' & Hrun).
    destruct (findRedundantSingletons tu) as [[singletons found]| |] eqn:Hfind.
    + exists singletons, found, changed, tu'. split; [reflexivity | exact Hrun].
    + unfold reduceSingletonRelations in Hrun. rewrite Hfind in Hrun. discriminate.
    + unfold reduceSingletonRelations in Hrun. rewrite Hfind in Hrun. discriminate.
Qed.

Lemma ioUnit_names : NoDup (map relName (getRelations (getProgram ioUnit))).
Proof. apply (bool_decide_unpack _). vm_compute. exact I. Qed.

Lemma ioUnit_arities : aritiesAgreeIn (programClauses (getProgram ioUnit)).
Proof.
  intros c d Hc Hd a b Ha Hb _.
  repeat (apply elem_of_cons in Hc; destruct Hc as [->|Hc]);
    try (apply elem_of_nil in Hc; contradiction);
    repeat (apply elem_of_cons in Hd; destruct Hd as [->|Hd]);
    try (apply elem_of_nil in Hd; contradiction);
    apply list_elem_of_singleton in Ha, Hb; inversion Ha; inversion Hb; reflexivity.
Qed.

Lemma singleton_unifier_spares_io_witness :
  NoDup (map relName (getRelations (getProgram ioUnit))) /\
  exists singletons found changed tu',
    findRedundantSingletons ioUnit = Ok (singletons, found) /\
    reduceSingletonRelations ioUnit = Ok (changed, tu') /\
    forall rel, rel ∈ getRelations (getProgram ioUnit) -> isIO ioUnit rel = true ->
                rel ∈ getRelations (getProgram tu').
Proof.
  split; [exact ioUnit_names|].
  destruct (proj2 (singleton_unifier_spares_io ioUnit ioUnit_names) ioUnit_arities)
    as (singletons & found & changed & tu' & Hfind & Hrun).
  exists singletons, found, changed, tu'.
  split; [exact Hfind|]. split; [exact Hrun|].
  intros rel Hrel Hflag.
  destruct (proj1 (singleton_unifier_spares_io ioUnit ioUnit_names)
                  singletons found changed tu' Hfind Hrun) as (_ & _ & Hio).
  destruct (Hio rel Hrel Hflag) as (_ & _ & _ & Hstay & _). exact Hstay.
Defined.

(** C3, as far as the code has it by design.  The Self-Implication Filter
    run on its own output changes nothing and reports no change, for every
    program.  So does the Local Equivalence Reducer on a program whose
    relations have distinct names and whose clauses are pairwise distinct,
    once its first run has returned; and that run returns when equally
    named atoms have equal arities. *)
Theorem filter_and_local_reducer_idempotent :
  (forall tu,
     removeRedundantClauses (removeRedundantClauses tu).2
     = (false, (removeRedundantClauses tu).2)) /\
  (forall tu,
     NoDup (map relName (getRelations (getProgram tu))) ->
     NoDup (programClauses (getProgram tu)) ->
     (forall changed tu1,
        reduceLocallyEquivalentClauses tu = Ok (changed, tu1) ->
        reduceLocallyEquivalentClauses tu1 = Ok (false, tu1)) /\
     (aritiesAgreeIn (programClauses (getProgram tu)) ->
      exists changed tu1, reduceLocallyEquivalentClauses tu = Ok (changed, tu1))).
Proof.
  split.
  - apply removeRedundantClauses_idempotent.
  - intros tu Hnames Hcs. split.
    + intros changed tu1. apply reduceLocallyEquivalentClauses_idempotent; assumption.
    + intros Har. destruct (reduceLocallyEquivalentClauses_total tu Har)
        as (changed & tu1 & Hrun & _).
      eauto.
Qed.

Lemma scenario3_names : NoDup (map relName (getRelations (getProgram scenario3Unit))).
Proof. apply (bool_decide_unpack _). vm_compute. exact I. Qed.

Lemma scenario3_clauses : NoDup (programClauses (getProgram scenario3Unit)).
Proof.
  apply NoDup_cons. split; [|apply NoDup_singleton].
  intros H. apply list_elem_of_singleton in H. discriminate H.
Qed.

Lemma scenario3_arities : aritiesAgreeIn (programClauses (getProgram scenario3Unit)).
Proof.
  intros c d Hc Hd a b Ha Hb Hname.
  repeat (apply elem_of_cons in Hc; destruct Hc as [->|Hc]);
    try (apply elem_of_nil in Hc; contradiction);
    repeat (apply elem_of_cons in Hd; destruct Hd as [->|Hd]);
    try (apply elem_of_nil in Hd; contradiction);
    repeat (apply elem_of_cons in Ha; destruct Ha as [Ha|Ha]);
    try (apply elem_of_nil in Ha; contradiction);
    repeat (apply elem_of_cons in Hb; destruct Hb as [Hb|Hb]);
    try (apply elem_of_nil in Hb; contradiction);
    inversion Ha; inversion Hb; subst; reflexivity.
Qed.

Lemma filter_and_local_reducer_idempotent_witness :
  NoDup (map relName (getRelations (getProgram scenario3Unit))) /\
  NoDup (programClauses (getProgram scenario3Unit)) /\
  aritiesAgreeIn (programClauses (getProgram scenario3Unit)) /\
  exists changed tu1,
    reduceLocallyEquivalentClauses scenario3Unit = Ok (changed, tu1) /\
    reduceLocallyEquivalentClauses tu1 = Ok (false, tu1).
Proof.
  split; [exact scenario3_names|]. split; [exact scenario3_clauses|].
  split; [exact scenario3_arities|].
  destruct (proj2 filter_and_local_reducer_idempotent scenario3Unit
                  scenario3_names scenario3_clauses) as [Hagain Hfirst].
  destruct (Hfirst scenario3_arities) as (changed & tu1 & Hrun).
  exists changed, tu1. split; [exact Hrun|]. exact (Hagain changed tu1 Hrun).
Defined.

(** Scenario 3 of the specification, through the Local Equivalence Reducer. *)
Example scenario3_reduced :
  reduceLocallyEquivalentClauses scenario3Unit
  = Ok (true,
        mkTU (mkProgram
                [mkRelation ["R"] 2; mkRelation ["P"] 2; mkRelation ["Q"] 2]
                [rule "R" [var "x"; var "y"]
                      [atom "P" [var "x"; var "z"]; atom "Q" [var "z"; var "y"]]])
             noIO).
Proof. vm_compute. reflexivity. Qed.

(** ** What the checker accepts when no nil constant is involved *)

Lemma extendsMap_refl (m : gmap string string) : extendsMap m m.
Proof. intros u v H _. exact H. Qed.

Lemma extendsMap_trans (m1 m2 m3 : gmap string string) :
  extendsMap m1 m2 -> extendsMap m2 m3 -> extendsMap m1 m3.
Proof. intros H12 H23 u v H Hv. apply H23; [apply H12|]; assumption. Qed.

Lemma argumentsMatch_extends (m m' : gmap string string) (l r : AstArgument) :
  extendsMap m m' -> properlyNamed [r] -> argumentsMatch m l r -> argumentsMatch m' l r.
Proof.
  intros Hext Hnamed. destruct l, r; simpl; auto.
  intros H. apply Hext; [assumption|]. apply Hnamed. left.
Qed.

(** One step of the inner loop, for a left argument that is not nil. *)
Lemma matchArgument_step (st : MatchState) (l r : AstArgument) :
  isNilConstant l = false -> properlyNamed [r] ->
  validMapping st = true -> broken st = false ->
  (broken (matchArgument st l r) = true /\ validMapping (matchArgument st l r) = false) \/
  (broken (matchArgument st l r) = false /\ validMapping (matchArgument st l r) = true /\
   argumentsMatch (variableMap (matchArgument st l r)) l r /\
   extendsMap (variableMap st) (variableMap (matchArgument st l r))).
Proof.
  intros Hnil Hnamed Hvalid Hunbroken. unfold matchArgument.
  destruct l as [u| | |x|x tx| |op args|args], r as [v| | |y|y ty| |op' args'|args'];
    try discriminate Hnil; simpl;
    try (left; split; reflexivity).
  - assert (Hv : v <> EmptyString) by (apply Hnamed; left).
    unfold readMap. destruct (variableMap st !! u) as [w|] eqn:Eu; simpl.
    + destruct (bool_decide (w = EmptyString)) eqn:Ew; simpl.
      * right. split_and!; auto.
        -- apply lookup_insert_eq.
        -- apply bool_decide_eq_true in Ew. subst w.
           intros u' v' H Hv'. destruct (decide (u' = u)) as [->|Hne].
           ++ rewrite Eu in H. inversion H. congruence.
           ++ rewrite lookup_insert_ne by congruence. assumption.
      * destruct (bool_decide (w ≠ v)) eqn:Ewv; simpl.
        -- left. split; reflexivity.
        -- right. apply bool_decide_eq_false in Ewv.
           assert (w = v) by (destruct (decide (w = v)); [assumption | contradiction]).
           subst w. split_and!; auto. apply extendsMap_refl.
    + right. split_and!; auto.
      * apply lookup_insert_eq.
      * intros u' v' H Hv'. destruct (decide (u' = u)) as [->|Hne].
        -- rewrite Eu in H. discriminate.
        -- rewrite lookup_insert_ne by congruence. assumption.
  - destruct (bool_decide (x = y)) eqn:E; simpl.
    + right. apply bool_decide_eq_true in E. split_and!; auto. apply extendsMap_refl.
    + left. split; reflexivity.
  - destruct (bool_decide (x = y) && bool_decide (tx = ty)) eqn:E; simpl.
    + right. apply andb_prop in E. destruct E as [E1 E2].
      apply bool_decide_eq_true in E1, E2. split_and!; auto. apply extendsMap_refl.
    + left. split; reflexivity.
Qed.

Lemma matchArguments_sound (leftArgs : list AstArgument) :
  forall rightArgs st st',
    length leftArgs = length rightArgs ->
    nilFree leftArgs -> properlyNamed rightArgs ->
    validMapping st = true -> broken st = false ->
    matchArguments st leftArgs rightArgs = Ok st' ->
    validMapping st' = true ->
    Forall2 (argumentsMatch (variableMap st')) leftArgs rightArgs /\
    extendsMap (variableMap st) (variableMap st').
Proof.
  induction leftArgs as [|l ls IH];
    intros rs st st' Hlen Hnil Hnamed Hvalid Hunbroken Hrun Hvalid'.
  - destruct rs; [|discriminate]. simpl in Hrun. inversion Hrun; subst.
    split; [constructor | apply extendsMap_refl].
  - destruct rs as [|r rs]; [discriminate|]. simpl in Hrun.
    assert (Hr : properlyNamed [r]).
    { intros x Hx. apply list_elem_of_singleton in Hx. apply Hnamed. rewrite <- Hx. left. }
    destruct (matchArgument_step st l r (Hnil l ltac:(left)) Hr Hvalid Hunbroken)
      as [[Hb Hv]|(Hb & Hv & Hmatch & Hext)]; rewrite Hb in Hrun.
    + inversion Hrun; subst. congruence.
    + destruct (IH rs (matchArgument st l r) st') as [Hrest Hext']; auto.
      * intros arg Harg. apply Hnil. right. assumption.
      * intros x Hx. apply Hnamed. right. assumption.
      * split; [|eapply extendsMap_trans; eassumption].
        constructor; [|assumption].
        eapply argumentsMatch_extends; eassumption.
Qed.

Lemma matchAtoms_invalid (st : MatchState) (leftAtoms rightAtoms : list AstLiteral) :
  validMapping st = false -> matchAtoms st leftAtoms rightAtoms = Ok st.
Proof. intros H. destruct leftAtoms; simpl; [reflexivity|]. rewrite H. reflexivity. Qed.

Lemma Forall2_argumentsMatch_extends (m m' : gmap string string)
    (ls rs : list AstArgument) :
  extendsMap m m' -> properlyNamed rs ->
  Forall2 (argumentsMatch m) ls rs -> Forall2 (argumentsMatch m') ls rs.
Proof.
  intros Hext Hnamed H. induction H as [|l r ls rs Hlr Hrest IH]; constructor.
  - eapply argumentsMatch_extends; [exact Hext| |exact Hlr].
    intros x Hx. apply list_elem_of_singleton in Hx. apply Hnamed. rewrite <- Hx. left.
  - apply IH. intros x Hx. apply Hnamed. right. assumption.
Qed.

Lemma matchAtoms_sound (leftAtoms rightAtoms : list AstLiteral) :
  Forall2 sameShape leftAtoms rightAtoms ->
  (forall a, Atom a ∈ leftAtoms -> nilFree (getArguments a)) ->
  (forall b, Atom b ∈ rightAtoms -> properlyNamed (getArguments b)) ->
  forall st st',
    validMapping st = true ->
    matchAtoms st leftAtoms rightAtoms = Ok st' ->
    validMapping st' = true ->
    Forall2 (atomsMatch (variableMap st')) leftAtoms rightAtoms /\
    extendsMap (variableMap st) (variableMap st').
Proof.
  induction 1 as [|l r ls rs (a & b & -> & -> & Harity) Hrest IH];
    intros Hnil Hnamed st st' Hvalid Hrun Hvalid'.
  - simpl in Hrun. inversion Hrun; subst. split; [constructor | apply extendsMap_refl].
  - simpl in Hrun. rewrite Hvalid in Hrun. simpl in Hrun.
    destruct (matchArguments _ _ _) as [st1| |] eqn:Eargs; cbn [bind] in Hrun;
      try discriminate.
    assert (Hvalid1 : validMapping st1 = true).
    { destruct (validMapping st1) eqn:E; [reflexivity|].
      rewrite matchAtoms_invalid in Hrun by assumption. inversion Hrun; subst. congruence. }
    apply matchArguments_sound in Eargs; auto.
    2:{ apply Hnil. left. }
    2:{ apply Hnamed. left. }
    destruct Eargs as [Hargs Hext1]. simpl in Hext1.
    destruct (IH (fun a' Ha' => Hnil a' (list_elem_of_further _ _ _ Ha'))
                 (fun b' Hb' => Hnamed b' (list_elem_of_further _ _ _ Hb'))
                 st1 st' Hvalid1 Hrun Hvalid') as [Hrest' Hext'].
    split; [|eapply extendsMap_trans; eassumption].
    constructor; [|assumption].
    exists a, b. split_and!; auto.
    eapply Forall2_argumentsMatch_extends; [exact Hext'| |exact Hargs].
    apply Hnamed. left.
Qed.

(** *** Variables of an admissible clause *)

Lemma argNodes_head (a : AstArgument) : exists rest, argNodes a = a :: rest.
Proof. destruct a; simpl; eauto. Qed.

Lemma argNodes_primitive (a : AstArgument) : isPrimitive a = true -> argNodes a = [a].
Proof. destruct a; simpl; try discriminate; reflexivity. Qed.

Lemma flat_map_argNodes_primitive (args : list AstArgument) :
  forallb isPrimitive (flat_map argNodes args) = true -> flat_map argNodes args = args.
Proof.
  induction args as [|a args IH]; simpl; [reflexivity|].
  rewrite forallb_app. intros H. apply andb_prop in H. destruct H as [Ha Hargs].
  destruct (argNodes_head a) as [rest Hrest]. rewrite Hrest in Ha. simpl in Ha.
  apply andb_prop in Ha. destruct Ha as [Ha _].
  rewrite (argNodes_primitive a Ha), IH by assumption. reflexivity.
Qed.

Lemma forallb_flat_map {A B : Type} (f : B -> bool) (g : A -> list B) (xs : list A) :
  forallb f (flat_map g xs) = true <-> forall x, x ∈ xs -> forallb f (g x) = true.
Proof.
  induction xs as [|x xs IH]; simpl.
  - split; [|reflexivity]. intros _ x Hx. apply elem_of_nil in Hx. contradiction.
  - rewrite forallb_app, andb_true_iff, IH. split.
    + intros [Hx Hxs] y Hy. apply elem_of_cons in Hy. destruct Hy as [->|Hy]; auto.
    + intros H. split; [apply H; left | intros y Hy; apply H; right; assumption].
Qed.

(** In an admissible clause the argument nodes are the arguments of its
    atoms. *)
Lemma clauseArgNodes_valid (clause : AstClause) (arg : AstArgument) :
  isValidClause clause = true ->
  arg ∈ clauseArgNodes clause <->
  exists a, Atom a ∈ clauseAtoms clause /\ arg ∈ getArguments a.
Proof.
  unfold isValidClause, clauseArgNodes, clauseAtoms, atomArgNodes.
  rewrite andb_true_iff, forallb_app, andb_true_iff. intros (Hatoms & Hhead & Hbody).
  rewrite (flat_map_argNodes_primitive _ Hhead).
  rewrite elem_of_app. split.
  - intros [Harg|Harg].
    + exists (getHead clause). split; [|assumption].
      apply elem_of_app. right. left.
    + apply list_elem_of_In, in_flat_map in Harg. destruct Harg as (lit & Hlit & Harg).
      apply list_elem_of_In in Hlit, Harg.
      rewrite forallb_forall in Hatoms. pose proof (Hatoms lit) as Hisatom.
      rewrite <- list_elem_of_In in Hisatom. specialize (Hisatom Hlit).
      destruct lit as [a| | |]; try discriminate.
      exists a. split; [apply elem_of_app; left; assumption|].
      simpl in Harg. unfold atomArgNodes in Harg.
      rewrite flat_map_argNodes_primitive in Harg; [assumption|].
      apply (proj1 (forallb_flat_map _ _ _) Hbody (Atom a) Hlit).
  - intros (a & Ha & Harg). apply elem_of_app in Ha. destruct Ha as [Ha|Ha].
    + right. apply list_elem_of_In, in_flat_map. exists (Atom a).
      split; [apply list_elem_of_In; assumption|].
      apply list_elem_of_In. simpl. unfold atomArgNodes.
      rewrite flat_map_argNodes_primitive; [assumption|].
      apply (proj1 (forallb_flat_map _ _ _) Hbody (Atom a) Ha).
    + apply list_elem_of_singleton in Ha. inversion Ha; subst a. left. assumption.
Qed.

Lemma clauseVariableNames_elem (clause : AstClause) (x : string) :
  x ∈ clauseVariableNames clause <-> AstVariable x ∈ clauseArgNodes clause.
Proof.
  unfold clauseVariableNames. rewrite list_elem_of_omap. split.
  - intros (arg & Harg & Hx). destruct arg; try discriminate. inversion Hx; subst. assumption.
  - intros H. exists (AstVariable x). split; [assumption | reflexivity].
Qed.

Lemma variableNameSet_valid (clause : AstClause) (x : string) :
  isValidClause clause = true ->
  x ∈ variableNameSet clause <->
  exists a, Atom a ∈ clauseAtoms clause /\ AstVariable x ∈ getArguments a.
Proof.
  intros Hvalid. unfold variableNameSet.
  rewrite elem_of_list_to_set, clauseVariableNames_elem.
  apply clauseArgNodes_valid. assumption.
Qed.

(** *** A surjection between sets of equal size is injective *)

Lemma size_set_map_le (g : string -> string) (X : gset string) :
  size (set_map g X : gset string) <= size X.
Proof.
  induction X as [|x X Hx IH] using set_ind_L.
  - rewrite set_map_empty. rewrite !size_empty. lia.
  - rewrite set_map_union_L, set_map_singleton_L.
    rewrite size_union_alt, size_singleton.
    rewrite (size_union {[x]} X) by set_solver. rewrite size_singleton.
    assert (Hsub : (set_map g X : gset string) ∖ {[g x]} ⊆ set_map g X).
    { intros y Hy. apply elem_of_difference in Hy. tauto. }
    apply subseteq_size in Hsub. lia.
Qed.

Lemma surjection_injective (phi : gmap string string) (X Y : gset string) :
  size X = size Y ->
  (forall v, v ∈ Y -> exists u, u ∈ X /\ phi !! u = Some v) ->
  forall u u' v, u ∈ X -> u' ∈ X -> phi !! u = Some v -> phi !! u' = Some v -> u = u'.
Proof.
  intros Hsize Hsurj u u' v Hu Hu' Hv Hv'.
  destruct (decide (u = u')) as [|Hne]; [assumption|]. exfalso.
  set (g := fun x => default EmptyString (phi !! x)).
  assert (Hsub : Y ⊆ set_map g (X ∖ {[u]})).
  { intros w Hw. destruct (Hsurj w Hw) as (x & Hx & Hxw).
    apply elem_of_map. destruct (decide (x = u)) as [->|Hxu].
    - exists u'. split; [unfold g; rewrite Hv'; simpl; congruence | set_solver].
    - exists x. split; [unfold g; rewrite Hxw; reflexivity | set_solver]. }
  apply subseteq_size in Hsub.
  pose proof (size_set_map_le g (X ∖ {[u]})) as Hle.
  rewrite size_difference in Hle by set_solver. rewrite size_singleton in Hle.
  assert (size X <> 0).
  { intros Hzero. apply size_empty_inv in Hzero. set_solver. }
  lia.
Qed.

(** *** The accepted map is a bijection *)

Lemma passesPrecheck_valid (left right : AstClause) :
  passesPrecheck left right = true ->
  isValidClause left = true /\ isValidClause right = true /\
  getArity (getHead left) = getArity (getHead right) /\
  size (variableNameSet left) = size (variableNameSet right).
Proof.
  unfold passesPrecheck. rewrite !andb_true_iff.
  intros [[[[Hl Hr] _] Har] Hsz].
  apply Nat.eqb_eq in Har, Hsz. split_and!; assumption.
Qed.

Lemma argumentsMatch_variable_left (phi : gmap string string) (u : string) (r : AstArgument) :
  argumentsMatch phi (AstVariable u) r -> exists v, r = AstVariable v /\ phi !! u = Some v.
Proof. destruct r; simpl; try contradiction. eauto. Qed.

Lemma argumentsMatch_variable_right (phi : gmap string string) (l : AstArgument) (v : string) :
  argumentsMatch phi l (AstVariable v) -> exists u, l = AstVariable u /\ phi !! u = Some v.
Proof. destruct l; simpl; try contradiction. eauto. Qed.

(** If the walk over two lists of atoms accepts the map, every variable on
    the left has its image on the right and every variable on the right is
    an image. *)
Lemma atomsMatch_variables (phi : gmap string string) (leftAtoms rightAtoms : list AstLiteral) :
  Forall2 (atomsMatch phi) leftAtoms rightAtoms ->
  (forall a u, Atom a ∈ leftAtoms -> AstVariable u ∈ getArguments a ->
     exists b v, Atom b ∈ rightAtoms /\ AstVariable v ∈ getArguments b /\ phi !! u = Some v) /\
  (forall b v, Atom b ∈ rightAtoms -> AstVariable v ∈ getArguments b ->
     exists a u, Atom a ∈ leftAtoms /\ AstVariable u ∈ getArguments a /\ phi !! u = Some v).
Proof.
  intros Hall. split.
  - intros a u Ha Hu. apply list_elem_of_lookup in Ha. destruct Ha as [i Hi].
    destruct (Forall2_lookup_l _ _ _ _ _ Hall Hi) as (r & Hr & (a' & b & Heq & -> & Hargs)).
    inversion Heq; subst a'.
    apply list_elem_of_lookup in Hu. destruct Hu as [j Hj].
    destruct (Forall2_lookup_l _ _ _ _ _ Hargs Hj) as (rj & Hrj & Hmatch).
    apply argumentsMatch_variable_left in Hmatch. destruct Hmatch as (v & -> & Hphi).
    exists b, v. split_and!; [| |assumption]; eapply list_elem_of_lookup_2; eassumption.
  - intros b v Hb Hv. apply list_elem_of_lookup in Hb. destruct Hb as [i Hi].
    destruct (Forall2_lookup_r _ _ _ _ _ Hall Hi) as (l & Hl & (a & b' & -> & Heq & Hargs)).
    inversion Heq; subst b'.
    apply list_elem_of_lookup in Hv. destruct Hv as [j Hj].
    destruct (Forall2_lookup_r _ _ _ _ _ Hargs Hj) as (lj & Hlj & Hmatch).
    apply argumentsMatch_variable_right in Hmatch. destruct Hmatch as (u & -> & Hphi).
    exists a, u. split_and!; [| |assumption]; eapply list_elem_of_lookup_2; eassumption.
Qed.

(** Without a nil constant on the left and with properly named variables on
    the right, the map accepted for a permutation of the enumerator is a
    bijection between the variable names of the two clauses. *)
Theorem accepted_map_bijective_without_nil (left right : AstClause)
    (m : list (list nat)) (perms : list (list nat)) (p : list nat) (st : MatchState) :
  passesPrecheck left right = true ->
  aritiesAgree left right ->
  nilFree (clauseArgNodes left) ->
  properlyNamed (clauseArgNodes right) ->
  permutationMatrixOf left right = Ok m ->
  extractPermutations m = Ok perms ->
  p ∈ perms ->
  checkPermutation left right p = Ok st ->
  validMapping st = true ->
  bijectionBetween (variableMap st) (variableNameSet left) (variableNameSet right).
Proof.
  intros Hpre Harity Hnil Hnamed Hm Hperms Hp Hcheck Hvalid.
  destruct (passesPrecheck_valid _ _ Hpre) as (Hvl & Hvr & Hhead & Hsize).
  destruct (passesPrecheck_true _ _ Hpre) as (Hl & Hr & Hlen).
  destruct (permutationMatrixOf_entries left right Hl Hr Hlen) as (m' & Hm' & Hsq & Hentries).
  rewrite Hm in Hm'. inversion Hm'; subst m'. destruct Hsq as [Hmlen Hrows].
  destruct (extractPermutations_square m _ Hmlen ltac:(lia) Hrows)
    as (perms' & Hperms' & _ & Hspec & _).
  rewrite Hperms in Hperms'. inversion Hperms'; subst perms'.
  apply Hspec in Hp. destruct Hp as (_ & Hperm & Hresp).
  destruct (checkPermutation_shape left right m p Hl Hr Hlen Hhead Harity Hentries Hperm Hresp)
    as (newBody & Hrun & _ & _ & Hsame & Hshape).
  rewrite Hrun in Hcheck.
  assert (Hleft : forall a, Atom a ∈ newBody ++ [Atom (getHead left)] <->
                            Atom a ∈ clauseAtoms left).
  { intros a. unfold clauseAtoms. rewrite !elem_of_app, Hsame. reflexivity. }
  apply matchAtoms_sound in Hcheck; auto.
  2:{ intros a Ha arg Harg. apply Hnil. apply clauseArgNodes_valid; [assumption|].
      exists a. split; [apply Hleft; assumption | assumption]. }
  2:{ intros b Hb x Hx. apply Hnamed. apply clauseArgNodes_valid; [assumption|].
      exists b. split; assumption. }
  destruct Hcheck as [Hmatch _]. cbn [variableMap] in Hmatch.
  apply atomsMatch_variables in Hmatch. destruct Hmatch as [Hinto Honto].
  assert (Hsurj : forall v, v ∈ variableNameSet right ->
                    exists u, u ∈ variableNameSet left /\ variableMap st !! u = Some v).
  { intros v Hv. apply variableNameSet_valid in Hv; [|assumption].
    destruct Hv as (b & Hb & Hvb).
    destruct (Honto b v Hb Hvb) as (a & u & Ha & Hu & Hphi).
    exists u. split; [|assumption]. apply variableNameSet_valid; [assumption|].
    exists a. split; [apply Hleft; assumption | assumption]. }
  split_and!.
  - intros u Hu. apply variableNameSet_valid in Hu; [|assumption].
    destruct Hu as (a & Ha & Hua).
    destruct (Hinto a u (proj2 (Hleft a) Ha) Hua) as (b & v & Hb & Hv & Hphi).
    exists v. split; [|assumption]. apply variableNameSet_valid; [assumption|].
    exists b. split; assumption.
  - exact Hsurj.
  - apply surjection_injective with (Y := variableNameSet right); assumption.
Qed.

(** ** The oracle is symmetric when no nil constant is involved *)

(** *** Inverse permutations *)

Lemma indexOf_lookup (j : nat) (p : list nat) : j ∈ p -> p !! indexOf j p = Some j.
Proof.
  induction p as [|x p IH]; intros Hj; simpl.
  - apply elem_of_nil in Hj. contradiction.
  - destruct (Nat.eqb_spec x j) as [->|Hne]; [reflexivity|].
    apply elem_of_cons in Hj. destruct Hj as [->|Hj]; [contradiction|]. simpl. auto.
Qed.

Lemma indexOf_NoDup (p : list nat) (i j : nat) :
  NoDup p -> p !! i = Some j -> indexOf j p = i.
Proof.
  intros Hnd Hi. eapply NoDup_lookup; [exact Hnd| |exact Hi].
  apply indexOf_lookup. eapply list_elem_of_lookup_2. eassumption.
Qed.

Lemma inversePermutation_lookup (n : nat) (p : list nat) (i j : nat) :
  p ≡ₚ seq 0 n -> inversePermutation p !! j = Some i <-> p !! i = Some j.
Proof.
  intros Hperm. apply permutation_of_range in Hperm. destruct Hperm as (Hlen & Hnd & Hrange).
  unfold inversePermutation. rewrite list_lookup_fmap. split.
  - intros H. destruct (seq 0 (length p) !! j) as [j'|] eqn:E; [|discriminate].
    apply lookup_seq in E. destruct E as [-> Hj]. simpl in H. inversion H; subst i.
    apply indexOf_lookup.
    assert (Hin : j ∈ seq 0 n) by (apply elem_of_seq; lia).
    assert (Hp : p ≡ₚ seq 0 n) by (apply permutation_of_range; auto).
    rewrite Hp. assumption.
  - intros H. assert (Hj : j < length p).
    { rewrite Hlen. apply Hrange. eapply list_elem_of_lookup_2. eassumption. }
    rewrite lookup_seq_lt by assumption. simpl. f_equal.
    apply indexOf_NoDup; assumption.
Qed.

Lemma inversePermutation_perm (n : nat) (p : list nat) :
  p ≡ₚ seq 0 n -> inversePermutation p ≡ₚ seq 0 n.
Proof.
  intros Hperm. pose proof (proj1 (permutation_of_range n p) Hperm) as (Hlen & Hnd & Hrange).
  apply permutation_of_range. split_and!.
  - unfold inversePermutation. rewrite length_map, length_seq. assumption.
  - apply NoDup_alt. intros j1 j2 i H1 H2.
    apply (inversePermutation_lookup n p i j1 Hperm) in H1.
    apply (inversePermutation_lookup n p i j2 Hperm) in H2. congruence.
  - intros i Hi. apply list_elem_of_lookup in Hi. destruct Hi as [j Hj].
    apply (inversePermutation_lookup n p i j Hperm) in Hj.
    apply lookup_lt_Some in Hj. lia.
Qed.

(** *** The precheck and the matrix with the clauses swapped *)

Lemma matrixEntry_swap (left right : AstClause) (i j : nat) :
  matrixEntry right left j i = matrixEntry left right i j.
Proof.
  destruct i as [|i], j as [|j]; simpl; try reflexivity.
  destruct (getBodyLiterals left !! i) as [[a| | |]|];
    destruct (getBodyLiterals right !! j) as [[b'| | |]|]; try reflexivity.
  destruct (decide (getQualifiedName a = getQualifiedName b')) as [E|E].
  - rewrite !bool_decide_eq_true_2 by congruence. reflexivity.
  - rewrite !bool_decide_eq_false_2 by congruence. reflexivity.
Qed.

Lemma passesPrecheck_swap (left right : AstClause) :
  passesPrecheck right left = passesPrecheck left right.
Proof.
  unfold passesPrecheck.
  rewrite (andb_comm (isValidClause right)).
  rewrite (Nat.eqb_sym (length (getBodyLiterals right))).
  rewrite (Nat.eqb_sym (getArity (getHead right))).
  rewrite (Nat.eqb_sym (size (variableNameSet right))).
  reflexivity.
Qed.

Lemma aritiesAgree_swap (left right : AstClause) :
  aritiesAgree left right -> aritiesAgree right left.
Proof. intros H b a Hb Ha Hname. symmetry. apply H; auto. Qed.

(** *** The oracle unfolded *)

Lemma areBijectivelyEquivalent_precheck (left right : AstClause) :
  areBijectivelyEquivalent left right
  = if passesPrecheck left right
    then let* m := permutationMatrixOf left right in
         let* perms := extractPermutations m in
         anyValidPermutation left right perms
    else Ok false.
Proof.
  unfold areBijectivelyEquivalent, passesPrecheck.
  destruct (isValidClause left); [|reflexivity].
  destruct (isValidClause right); [|reflexivity]. simpl.
  destruct (_ =? _); [|reflexivity]. simpl.
  destruct (_ =? _); [|reflexivity]. simpl.
  destruct (_ =? _); reflexivity.
Qed.

Lemma anyValidPermutation_true (left right : AstClause) (perms : list (list nat)) :
  anyValidPermutation left right perms = Ok true ->
  exists p st, p ∈ perms /\ checkPermutation left right p = Ok st /\ validMapping st = true.
Proof.
  induction perms as [|p perms IH]; simpl; [discriminate|].
  unfold isValidPermutation.
  destruct (checkPermutation left right p) as [st| |] eqn:E; cbn [bind]; try discriminate.
  destruct (validMapping st) eqn:Ev.
  - intros _. exists p, st. split_and!; auto. left.
  - intros H. destruct (IH H) as (q & st' & Hq & Hrun & Hvalid).
    exists q, st'. split_and!; auto. right. assumption.
Qed.

Lemma anyValidPermutation_found (left right : AstClause) (perms : list (list nat)) :
  (forall p, p ∈ perms -> exists st, checkPermutation left right p = Ok st) ->
  (exists p st, p ∈ perms /\ checkPermutation left right p = Ok st /\
                validMapping st = true) ->
  anyValidPermutation left right perms = Ok true.
Proof.
  induction perms as [|p perms IH]; intros Hall (q & st & Hq & Hrun & Hvalid).
  - apply elem_of_nil in Hq. contradiction.
  - simpl. unfold isValidPermutation.
    destruct (Hall p ltac:(left)) as [stp Hp]. rewrite Hp. cbn [bind].
    destruct (validMapping stp) eqn:Ev; [reflexivity|].
    apply IH.
    + intros p' Hp'. apply Hall. right. assumption.
    + apply elem_of_cons in Hq. destruct Hq as [->|Hq].
      * rewrite Hp in Hrun. inversion Hrun; subst. congruence.
      * exists q, st. split_and!; assumption.
Qed.

(** *** The walk accepts every pair of atom lists that match under a map *)

Lemma initialVariableMap_empty (names : list string) (u w : string) :
  initialVariableMap names !! u = Some w -> w = EmptyString.
Proof.
  unfold initialVariableMap.
  assert (H : forall m : gmap string string,
             (forall u w, m !! u = Some w -> w = EmptyString) ->
             forall u w, foldl (fun m x => <[x:=EmptyString]> m) m names !! u = Some w ->
                         w = EmptyString).
  { induction names as [|x names IH]; intros m Hm; simpl; [exact Hm|].
    apply IH. intros u' w' Hu'. destruct (decide (u' = x)) as [->|Hne].
    - rewrite lookup_insert_eq in Hu'. congruence.
    - rewrite lookup_insert_ne in Hu' by congruence. eapply Hm. eassumption. }
  apply H. intros u' w' Hu'. rewrite lookup_empty in Hu'. discriminate.
Qed.

Lemma agreesWith_initial (names : list string) (psi : gmap string string) :
  agreesWith (initialVariableMap names) psi.
Proof. intros u w Hu Hw. apply initialVariableMap_empty in Hu. contradiction. Qed.

Lemma argumentsMatch_pair (phi : gmap string string) (l r : AstArgument) :
  argumentsMatch phi l r -> argumentsPair phi l r.
Proof. destruct l, r; simpl; auto. Qed.

Lemma atomsMatch_pair (phi : gmap string string) (l r : AstLiteral) :
  atomsMatch phi l r -> atomsPair phi l r.
Proof.
  intros (a & b & -> & -> & Hargs). exists a, b. split_and!; auto.
  eapply Forall2_impl; [exact Hargs|]. apply argumentsMatch_pair.
Qed.

Lemma matchArgument_complete (psi : gmap string string) (st : MatchState)
    (l r : AstArgument) :
  argumentsPair psi l r -> agreesWith (variableMap st) psi ->
  validMapping st = true -> broken st = false ->
  broken (matchArgument st l r) = false /\
  validMapping (matchArgument st l r) = true /\
  agreesWith (variableMap (matchArgument st l r)) psi.
Proof.
  intros Hmatch Hagree Hvalid Hunbroken. unfold matchArgument.
  destruct l as [u| | |x|x tx| |op args|args], r as [v| | |y|y ty| |op' args'|args'];
    simpl in Hmatch; try contradiction; simpl.
  - unfold readMap. destruct (variableMap st !! u) as [w|] eqn:Eu; simpl.
    + destruct (bool_decide (w = EmptyString)) eqn:Ew; simpl.
      * split_and!; auto. intros u' w' Hu' Hw'.
        destruct (decide (u' = u)) as [->|Hne].
        -- rewrite lookup_insert_eq in Hu'. congruence.
        -- rewrite lookup_insert_ne in Hu' by congruence. apply Hagree; assumption.
      * apply bool_decide_eq_false in Ew.
        pose proof (Hagree u w Eu Ew) as Hpsi.
        assert (w = v) by congruence. subst w.
        rewrite bool_decide_eq_false_2 by (intros Hne; apply Hne; reflexivity).
        split_and!; assumption.
    + split_and!; auto. intros u' w' Hu' Hw'.
      destruct (decide (u' = u)) as [->|Hne].
      * rewrite lookup_insert_eq in Hu'. congruence.
      * rewrite lookup_insert_ne in Hu' by congruence. apply Hagree; assumption.
  - rewrite bool_decide_eq_true_2 by assumption. simpl. split_and!; auto.
  - destruct Hmatch as [-> ->]. rewrite !bool_decide_eq_true_2 by reflexivity.
    simpl. split_and!; auto.
  - split_and!; auto.
Qed.

Lemma matchArguments_complete (psi : gmap string string) (leftArgs rightArgs : list AstArgument) :
  Forall2 (argumentsPair psi) leftArgs rightArgs ->
  forall st,
    agreesWith (variableMap st) psi -> validMapping st = true -> broken st = false ->
    exists st', matchArguments st leftArgs rightArgs = Ok st' /\
                validMapping st' = true /\ agreesWith (variableMap st') psi.
Proof.
  induction 1 as [|l r ls rs Hlr Hrest IH]; intros st Hagree Hvalid Hunbroken; simpl.
  - exists st. split_and!; auto.
  - destruct (matchArgument_complete psi st l r Hlr Hagree Hvalid Hunbroken)
      as (Hb & Hv & Ha).
    rewrite Hb. apply IH; assumption.
Qed.

Lemma matchAtoms_complete (psi : gmap string string) (leftAtoms rightAtoms : list AstLiteral) :
  Forall2 (atomsPair psi) leftAtoms rightAtoms ->
  forall st,
    agreesWith (variableMap st) psi -> validMapping st = true ->
    exists st', matchAtoms st leftAtoms rightAtoms = Ok st' /\ validMapping st' = true.
Proof.
  induction 1 as [|l r ls rs (a & b & -> & -> & Hargs) Hrest IH];
    intros st Hagree Hvalid; simpl.
  - exists st. split; auto.
  - rewrite Hvalid. simpl.
    destruct (matchArguments_complete psi _ _ Hargs
                (mkMatch (variableMap st) true false))
      as (st1 & -> & Hv1 & Ha1); auto.
    cbn [bind]. apply IH; assumption.
Qed.

(** *** The inverse of an accepted map *)

Lemma inverseMap_lookup (phi : gmap string string) (X Y : gset string) (u v : string) :
  bijectionBetween phi X Y -> u ∈ X -> phi !! u = Some v ->
  inverseMap phi X !! v = Some u.
Proof.
  intros (Hinto & _ & Hinj) Hu Hv. unfold inverseMap.
  apply elem_of_list_to_map_1.
  - rewrite <- list_fmap_compose.
    apply NoDup_fmap_2_strong; [|apply NoDup_elements].
    intros x y Hx Hy Hxy. apply elem_of_elements in Hx, Hy. simpl in Hxy.
    destruct (Hinto x Hx) as (vx & _ & Hvx). destruct (Hinto y Hy) as (vy & _ & Hvy).
    rewrite Hvx, Hvy in Hxy. simpl in Hxy. subst vy.
    eapply Hinj; eassumption.
  - apply list_elem_of_fmap. exists u. split; [rewrite Hv; reflexivity|].
    apply elem_of_elements. assumption.
Qed.

Lemma argumentsMatch_inverse (phi : gmap string string) (X Y : gset string)
    (l r : AstArgument) :
  bijectionBetween phi X Y ->
  (forall u, l = AstVariable u -> u ∈ X) ->
  argumentsMatch phi l r -> argumentsMatch (inverseMap phi X) r l.
Proof.
  intros Hbij Hvars.
  destruct l as [u| | |x|x tx| |op args|args], r as [v| | |y|y ty| |op' args'|args'];
    simpl; try contradiction.
  - intros H. eapply inverseMap_lookup; eauto.
  - congruence.
  - intros [-> ->]. split; reflexivity.
Qed.

Lemma atomsMatch_inverse (phi : gmap string string) (X Y : gset string)
    (l r : AstLiteral) :
  bijectionBetween phi X Y ->
  (forall a u, l = Atom a -> AstVariable u ∈ getArguments a -> u ∈ X) ->
  atomsMatch phi l r -> atomsMatch (inverseMap phi X) r l.
Proof.
  intros Hbij Hvars (a & b & -> & -> & Hargs).
  exists b, a. split_and!; auto.
  apply Forall2_same_length_lookup_2; [symmetry; eapply Forall2_length; eassumption|].
  intros i y x Hy Hx.
  eapply argumentsMatch_inverse; [exact Hbij| |].
  - intros u ->. apply (Hvars a u eq_refl). eapply list_elem_of_lookup_2. exact Hx.
  - eapply Forall2_lookup_lr; eassumption.
Qed.

(** *** From one direction to the other *)

Lemma respectsMatrix_inverse (left right : AstClause) (m m' : list (list nat))
    (p : list nat) (n : nat) :
  (forall i j, i <= n -> j <= n -> entryAt m i j = Some (matrixEntry left right i j)) ->
  (forall i j, i <= n -> j <= n -> entryAt m' i j = Some (matrixEntry right left i j)) ->
  p ≡ₚ seq 0 (S n) -> respectsMatrix m p -> respectsMatrix m' (inversePermutation p).
Proof.
  intros He He' Hperm Hresp j i Hq.
  apply (inversePermutation_lookup (S n) p i j Hperm) in Hq.
  assert (Hi : i <= n).
  { apply lookup_lt_Some in Hq. rewrite Hperm, length_seq in Hq. lia. }
  assert (Hj : j <= n).
  { apply list_elem_of_lookup_2 in Hq. rewrite Hperm in Hq. apply elem_of_seq in Hq. lia. }
  pose proof (respectsMatrix_entry _ _ _ _ Hresp Hq) as H1.
  rewrite He in H1 by assumption.
  specialize (He' j i Hj Hi). rewrite matrixEntry_swap in He'.
  unfold entryAt in He'. destruct (m' !! j) as [row|]; [|discriminate].
  exists row. split; [reflexivity | congruence].
Qed.

(** If the oracle accepts a pair of clauses, none of whose left arguments
    is nil and whose right variables are properly named, it accepts the
    swapped pair: the inverse permutation passes the checker with the
    inverse map. *)
Lemma areBijectivelyEquivalent_converse (left right : AstClause) :
  aritiesAgree left right ->
  nilFree (clauseArgNodes left) ->
  properlyNamed (clauseArgNodes right) ->
  areBijectivelyEquivalent left right = Ok true ->
  areBijectivelyEquivalent right left = Ok true.
Proof.
  intros Harity Hnil Hnamed Htrue.
  rewrite areBijectivelyEquivalent_precheck in Htrue.
  destruct (passesPrecheck left right) eqn:Hpre; [|discriminate].
  destruct (passesPrecheck_valid _ _ Hpre) as (Hvl & Hvr & Hhead & Hsize).
  destruct (passesPrecheck_true _ _ Hpre) as (Hl & Hr & Hlen).
  destruct (permutationMatrixOf_entries left right Hl Hr Hlen)
    as (m & Hm & [Hmlen Hrows] & Hentries).
  destruct (extractPermutations_square m _ Hmlen ltac:(lia) Hrows)
    as (perms & Hperms & _ & Hspec & _).
  rewrite Hm in Htrue. cbn [bind] in Htrue. rewrite Hperms in Htrue. cbn [bind] in Htrue.
  destruct (anyValidPermutation_true _ _ _ Htrue) as (p & st & Hp & Hcheck & Hvalid).
  pose proof (accepted_map_bijective_without_nil left right m perms p st
                Hpre Harity Hnil Hnamed Hm Hperms Hp Hcheck Hvalid) as Hbij.
  apply Hspec in Hp. destruct Hp as (Hplen & Hperm & Hresp).
  destruct (checkPermutation_shape left right m p Hl Hr Hlen Hhead Harity Hentries Hperm Hresp)
    as (body1 & Hrun & Hblen & Hidx & Hsame & Hshape).
  rewrite Hrun in Hcheck.
  apply matchAtoms_sound in Hcheck; auto.
  2:{ intros a Ha arg Harg. apply Hnil. apply clauseArgNodes_valid; [assumption|].
      exists a. split; [|assumption].
      unfold clauseAtoms. rewrite elem_of_app in Ha |- *. rewrite <- Hsame. assumption. }
  2:{ intros b Hb x Hx. apply Hnamed. apply clauseArgNodes_valid; [assumption|].
      exists b. split; assumption. }
  destruct Hcheck as [Hmatch _]. cbn [variableMap] in Hmatch.
  rewrite areBijectivelyEquivalent_precheck, passesPrecheck_swap, Hpre.
  destruct (permutationMatrixOf_entries right left Hr Hl (eq_sym Hlen))
    as (m' & Hm' & [Hmlen' Hrows'] & Hentries').
  destruct (extractPermutations_square m' _ Hmlen' ltac:(lia) Hrows')
    as (perms' & Hperms' & _ & Hspec' & _).
  rewrite Hm'. cbn [bind]. rewrite Hperms'. cbn [bind].
  pose proof (aritiesAgree_swap _ _ Harity) as Harity'.
  assert (Hperm' : inversePermutation p ≡ₚ seq 0 (S (length (getBodyLiterals right)))).
  { rewrite <- Hlen. apply inversePermutation_perm. assumption. }
  assert (Hresp' : respectsMatrix m' (inversePermutation p)).
  { apply (respectsMatrix_inverse left right m m' p (length (getBodyLiterals left)));
      try assumption.
    rewrite Hlen. assumption. }
  apply anyValidPermutation_found.
  { intros q Hq. apply Hspec' in Hq. destruct Hq as (_ & Hqperm & Hqresp).
    apply (checkPermutation_total right left m' q Hr Hl (eq_sym Hlen) (eq_sym Hhead)
             Harity' Hentries' Hqperm Hqresp). }
  exists (inversePermutation p).
  destruct (checkPermutation_shape right left m' _ Hr Hl (eq_sym Hlen) (eq_sym Hhead)
              Harity' Hentries' Hperm' Hresp')
    as (body2 & Hrun2 & Hblen2 & Hidx2 & _ & _).
  destruct (matchAtoms_complete
              (inverseMap (variableMap st) (variableNameSet left))
              (body2 ++ [Atom (getHead right)])
              (getBodyLiterals left ++ [Atom (getHead left)]))
    with (st := mkMatch (initialVariableMap
                           (clauseVariableNames (mkClause (getHead right) body2)))
                        true false)
    as (st2 & Hst2 & Hvalid2).
  - eapply Forall2_impl; [|apply atomsMatch_pair].
    apply Forall2_same_length_lookup_2.
    { rewrite !length_app. simpl. lia. }
    intros c l r Hl2 Hr2.
    destruct (decide (c < length (getBodyLiterals left))) as [Hc|Hc].
    + rewrite lookup_app_l in Hl2 by lia. rewrite lookup_app_l in Hr2 by lia.
      destruct (lookup_lt_is_Some_2 p (S c)) as [j Hj]; [lia|].
      assert (Hone : matrixEntry left right (S c) j = 1).
      { pose proof (respectsMatrix_entry _ _ _ _ Hresp Hj) as He.
        rewrite Hentries in He; [congruence|lia|].
        apply list_elem_of_lookup_2 in Hj. rewrite Hperm in Hj.
        apply elem_of_seq in Hj. lia. }
      destruct (matrixEntry_one _ _ _ _ Hone)
        as [[Hbad _]|(c' & k & a & b & Hc' & -> & Ha & Hb & _)]; [discriminate|].
      inversion Hc'; subst c'.
      assert (Hq : inversePermutation p !! S k = Some (S c)).
      { apply (inversePermutation_lookup _ p _ _ Hperm). exact Hj. }
      rewrite (Hidx2 k c Hq), Hb in Hl2. rewrite Ha in Hr2.
      inversion Hl2; subst l. inversion Hr2; subst r.
      pose proof (Hidx c k Hj) as H1.
      assert (Hpair : atomsMatch (variableMap st) (Atom a) (Atom b)).
      { apply (Forall2_lookup_lr _ _ _ k _ _ Hmatch).
        - rewrite lookup_app_l; [rewrite H1; exact Ha|].
          apply lookup_lt_Some in Hb. lia.
        - rewrite lookup_app_l; [exact Hb|]. apply lookup_lt_Some in Hb. lia. }
      eapply atomsMatch_inverse; [exact Hbij| |exact Hpair].
      intros a' u Heq Hu. inversion Heq; subst a'.
      apply variableNameSet_valid; [assumption|]. exists a. split; [|assumption].
      unfold clauseAtoms. apply elem_of_app. left.
      eapply list_elem_of_lookup_2. exact Ha.
    + assert (c = length (getBodyLiterals left)).
      { apply lookup_lt_Some in Hr2. rewrite length_app in Hr2. simpl in Hr2. lia. }
      subst c.
      rewrite lookup_app_r in Hl2 by lia. rewrite lookup_app_r in Hr2 by lia.
      rewrite Hblen2, <- Hlen, Nat.sub_diag in Hl2. rewrite Nat.sub_diag in Hr2.
      simpl in Hl2, Hr2. inversion Hl2; subst l. inversion Hr2; subst r.
      assert (Hpair : atomsMatch (variableMap st) (Atom (getHead left)) (Atom (getHead right))).
      { apply (Forall2_lookup_lr _ _ _ (length (getBodyLiterals left)) _ _ Hmatch).
        - rewrite lookup_app_r by lia. rewrite Hblen, Nat.sub_diag. reflexivity.
        - rewrite lookup_app_r by lia. rewrite <- Hlen, Nat.sub_diag. reflexivity. }
      eapply atomsMatch_inverse; [exact Hbij| |exact Hpair].
      intros a' u Heq Hu. inversion Heq; subst a'.
      apply variableNameSet_valid; [assumption|]. exists (getHead left). split; [|assumption].
      unfold clauseAtoms. apply elem_of_app. right. left.
  - apply agreesWith_initial.
  - reflexivity.
  - exists st2. split_and!.
    + apply Hspec'. split_and!; [|assumption|assumption].
      rewrite Hperm', length_seq. reflexivity.
    + rewrite Hrun2. exact Hst2.
    + exact Hvalid2.
Qed.

(** X9. Where neither clause has a nil constant or a variable with the
    empty name, and equally named atoms have equal arities, the oracle gives
    the same answer for a pair of clauses and for the swapped pair. *)
Theorem areBijectivelyEquivalent_symmetric_without_nil (left right : AstClause) :
  aritiesAgree left right ->
  nilFree (clauseArgNodes left) -> nilFree (clauseArgNodes right) ->
  properlyNamed (clauseArgNodes left) -> properlyNamed (clauseArgNodes right) ->
  areBijectivelyEquivalent left right = areBijectivelyEquivalent right left.
Proof.
  intros Harity Hnl Hnr Hpl Hpr.
  pose proof (aritiesAgree_swap _ _ Harity) as Harity'.
  destruct (areBijectivelyEquivalent_total left right Harity) as [b Hb].
  destruct (areBijectivelyEquivalent_total right left Harity') as [b' Hb'].
  rewrite Hb, Hb'. f_equal.
  destruct b, b'; try reflexivity.
  - rewrite (areBijectivelyEquivalent_converse left right Harity Hnl Hpr Hb) in Hb'.
    inversion Hb'.
  - rewrite (areBijectivelyEquivalent_converse right left Harity' Hnr Hpl Hb') in Hb.
    inversion Hb.
Qed.

(* ===================================================================== *)
(** * Further properties of the code *)
(* ===================================================================== *)

(** ** The enumerator on particular matrices *)

Lemma NoDup_all_equal {A : Type} (xs : list A) (x : A) :
  NoDup xs -> x ∈ xs -> (forall y, y ∈ xs -> y = x) -> xs = [x].
Proof.
  intros Hnd Hx Hall. destruct xs as [|a [|b rest]].
  - apply elem_of_nil in Hx. contradiction.
  - rewrite (Hall a) by left. reflexivity.
  - exfalso. apply NoDup_cons in Hnd. destruct Hnd as [Ha _]. apply Ha.
    rewrite (Hall a) by left. rewrite <- (Hall b) by (right; left). left.
Qed.

(** X1. The matrix of a permutation is decoded to that permutation: if row
    [i] of a square matrix holds its only 1 in column [p(i)], for a
    permutation [p] of the row indices, the enumerator returns [p] and
    nothing else. *)
Theorem extractPermutations_of_permutation (m : list (list nat)) (p : list nat) :
  1 <= length m ->
  (forall row, row ∈ m -> length row = length m) ->
  p ≡ₚ seq 0 (length m) ->
  (forall i j row, m !! i = Some row -> (row !! j = Some 1 <-> p !! i = Some j)) ->
  extractPermutations m = Ok [p].
Proof.
  intros Hn Hrows Hperm Hones.
  destruct (extractPermutations_square m (length m) eq_refl Hn Hrows)
    as (perms & -> & Hnd & Hspec & _).
  f_equal. apply NoDup_all_equal; [assumption| |].
  - apply Hspec. split_and!; [rewrite Hperm; apply length_seq | assumption |].
    intros i j Hp.
    destruct (lookup_lt_is_Some_2 m i) as [row Hrow].
    { apply lookup_lt_Some in Hp. rewrite Hperm, length_seq in Hp. assumption. }
    exists row. split; [assumption|]. apply (Hones i j row Hrow). assumption.
  - intros q Hq. apply Hspec in Hq. destruct Hq as (Hqlen & _ & Hresp).
    apply (list_eq_same_length _ _ (length m)); [rewrite Hperm; apply length_seq|assumption|].
    intros i x y Hi Hx Hy.
    destruct (Hresp i x Hx) as (row & Hrow & Hone).
    apply (Hones i x row Hrow) in Hone. congruence.
Qed.

Lemma extractPermutations_of_permutation_witness :
  extractPermutations [[0;1;0];[0;0;1];[1;0;0]] = Ok [[1;2;0]].
Proof.
  apply (extractPermutations_of_permutation [[0;1;0];[0;0;1];[1;0;0]] [1;2;0]).
  - simpl. lia.
  - intros row Hrow.
    repeat (apply elem_of_cons in Hrow; destruct Hrow as [->|Hrow]; [reflexivity|]).
    apply elem_of_nil in Hrow. contradiction.
  - apply (bool_decide_unpack _). vm_compute. exact I.
  - intros [|[|[|i]]] j row Hrow; simpl in Hrow; try discriminate;
      inversion Hrow; subst row;
      destruct j as [|[|[|j]]]; simpl; split; intros H; try discriminate H; reflexivity.
Defined.

Lemma currentRowOf_short (row js : list nat) (j : nat) :
  j ∈ js -> length row <= j -> currentRowOf row js = Undefined.
Proof.
  induction js as [|j0 js IH]; intros Hj Hshort.
  - apply elem_of_nil in Hj. contradiction.
  - simpl. unfold vecAt. destruct (row !! j0) as [x|] eqn:E; [|reflexivity].
    cbn [bind]. apply elem_of_cons in Hj. destruct Hj as [->|Hj].
    + apply lookup_lt_Some in E. lia.
    + rewrite IH by assumption. reflexivity.
Qed.

Lemma validMovesOf_short (m : list (list nat)) (n : nat) (rows : list nat)
    (i : nat) (row : list nat) :
  i ∈ rows -> m !! i = Some row -> length row < n ->
  validMovesOf m n rows = Undefined.
Proof.
  intros Hi Hrow Hshort. induction rows as [|i0 rows IH].
  - apply elem_of_nil in Hi. contradiction.
  - simpl. unfold vecAt at 1. destruct (m !! i0) as [row0|] eqn:E0; [|reflexivity].
    cbn [bind].
    destruct (currentRowOf row0 (seq 0 n)) as [r| |] eqn:Er; cbn [bind]; [|reflexivity|].
    + apply elem_of_cons in Hi. destruct Hi as [->|Hi].
      * rewrite Hrow in E0. inversion E0; subst row0.
        rewrite (currentRowOf_short row (seq 0 n) (length row)) in Er; [discriminate| |lia].
        apply elem_of_seq. lia.
      * rewrite IH by assumption. reflexivity.
    + exfalso. eapply currentRowOf_fuel. eassumption.
Qed.

(** X2. The matrix has to be square: if one of its rows has fewer entries
    than the matrix has rows, the first loop reads that row past its end,
    which is undefined behaviour. *)
Theorem extractPermutations_short_row (m : list (list nat)) (row : list nat) :
  row ∈ m -> length row < length m -> extractPermutations m = Undefined.
Proof.
  intros Hrow Hshort. apply list_elem_of_lookup in Hrow. destruct Hrow as [i Hi].
  unfold extractPermutations.
  rewrite (validMovesOf_short m (length m) (seq 0 (length m)) i row); auto.
  apply elem_of_seq. apply lookup_lt_Some in Hi. lia.
Qed.

Lemma extractPermutations_short_row_witness :
  extractPermutations [[1;0];[1]] = Undefined.
Proof.
  apply (extractPermutations_short_row [[1;0];[1]] [1]).
  - right. left.
  - simpl. lia.
Defined.

(** ** The compatibility matrix of two clauses *)

(** X3. For two clauses whose bodies are atoms only and equally long,
    the matrix of the oracle is square with one row per atom, the head
    included; beside [M[0][0]] its row 0 and its column 0 hold zeros, and
    [M[i+1][j+1]] is 1 exactly when body atom [i] of the left clause and
    body atom [j] of the right clause carry the same qualified name. *)
Theorem permutationMatrixOf_names (left right : AstClause) :
  forallb isAtom (getBodyLiterals left) = true ->
  forallb isAtom (getBodyLiterals right) = true ->
  length (getBodyLiterals left) = length (getBodyLiterals right) ->
  exists m,
    permutationMatrixOf left right = Ok m /\
    isSquare (S (length (getBodyLiterals left))) m /\
    (forall k, k < length (getBodyLiterals left) ->
       entryAt m 0 (S k) = Some 0 /\ entryAt m (S k) 0 = Some 0) /\
    (forall i j a b,
       getBodyLiterals left !! i = Some (Atom a) ->
       getBodyLiterals right !! j = Some (Atom b) ->
       (entryAt m (S i) (S j) = Some 1 <-> getQualifiedName a = getQualifiedName b) /\
       (entryAt m (S i) (S j) = Some 0 <-> getQualifiedName a <> getQualifiedName b)).
Proof.
  intros Hl Hr Hlen.
  destruct (permutationMatrixOf_entries left right Hl Hr Hlen) as (m & Hm & Hsq & Hentries).
  exists m. split_and!; [assumption | assumption | |].
  - intros k Hk. split; rewrite Hentries by lia; reflexivity.
  - intros i j a b Ha Hb.
    assert (Hi : i < length (getBodyLiterals left)) by (eapply lookup_lt_Some; eassumption).
    assert (Hj : j < length (getBodyLiterals right)) by (eapply lookup_lt_Some; eassumption).
    rewrite Hentries by lia. simpl. rewrite Ha, Hb.
    destruct (decide (getQualifiedName a = getQualifiedName b)) as [E|E].
    + rewrite bool_decide_eq_true_2 by assumption.
      split; split; intros H; first [assumption | reflexivity | discriminate H | contradiction].
    + rewrite bool_decide_eq_false_2 by assumption.
      split; split; intros H; first [assumption | reflexivity | discriminate H | contradiction].
Qed.

Lemma permutationMatrixOf_names_witness :
  exists m,
    permutationMatrixOf clauseTriple clauseTriple = Ok m /\
    isSquare (S (length (getBodyLiterals clauseTriple))) m.
Proof.
  destruct (permutationMatrixOf_names clauseTriple clauseTriple)
    as (m & Hm & Hsq & _); [reflexivity | reflexivity | reflexivity |].
  exists m. split; assumption.
Defined.

(** X4. Swapping the two clauses transposes the matrix. *)
Theorem permutationMatrixOf_transposed (left right : AstClause) :
  forallb isAtom (getBodyLiterals left) = true ->
  forallb isAtom (getBodyLiterals right) = true ->
  length (getBodyLiterals left) = length (getBodyLiterals right) ->
  exists m m',
    permutationMatrixOf left right = Ok m /\
    permutationMatrixOf right left = Ok m' /\
    forall i j, i <= length (getBodyLiterals left) -> j <= length (getBodyLiterals left) ->
                entryAt m' j i = entryAt m i j.
Proof.
  intros Hl Hr Hlen.
  destruct (permutationMatrixOf_entries left right Hl Hr Hlen) as (m & Hm & _ & He).
  destruct (permutationMatrixOf_entries right left Hr Hl (eq_sym Hlen)) as (m' & Hm' & _ & He').
  exists m, m'. split_and!; [assumption | assumption |].
  intros i j Hi Hj. rewrite He by assumption. rewrite He' by lia.
  rewrite matrixEntry_swap. reflexivity.
Qed.

Lemma permutationMatrixOf_transposed_witness :
  exists m m',
    permutationMatrixOf clauseNil clauseVar = Ok m /\
    permutationMatrixOf clauseVar clauseNil = Ok m' /\
    entryAt m' 1 1 = entryAt m 1 1.
Proof.
  destruct (permutationMatrixOf_transposed clauseNil clauseVar)
    as (m & m' & Hm & Hm' & Hswap); [reflexivity | reflexivity | reflexivity |].
  exists m, m'. split_and!; [assumption | assumption |].
  apply Hswap; simpl; lia.
Defined.

Lemma permutation_pairs_names (left right : AstClause)
    (m : list (list nat)) (perms : list (list nat)) (p : list nat) :
  forallb isAtom (getBodyLiterals left) = true ->
  forallb isAtom (getBodyLiterals right) = true ->
  length (getBodyLiterals left) = length (getBodyLiterals right) ->
  permutationMatrixOf left right = Ok m ->
  extractPermutations m = Ok perms ->
  p ∈ perms ->
  p ≡ₚ seq 0 (S (length (getBodyLiterals left))) /\
  p !! 0 = Some 0 /\
  forall k j, p !! S k = Some j ->
    exists c a b,
      j = S c /\ uintPred j = N.of_nat c /\
      getBodyLiterals left !! k = Some (Atom a) /\
      getBodyLiterals right !! c = Some (Atom b) /\
      getQualifiedName a = getQualifiedName b.
Proof.
  intros Hl Hr Hlen Hm Hperms Hp.
  destruct (permutationMatrixOf_entries left right Hl Hr Hlen) as (m' & Hm' & Hsq & Hentries).
  rewrite Hm in Hm'. inversion Hm'; subst m'. destruct Hsq as [Hmlen Hrows].
  destruct (extractPermutations_square m _ Hmlen ltac:(lia) Hrows)
    as (perms' & Hperms' & _ & Hspec & _).
  rewrite Hperms in Hperms'. inversion Hperms'; subst perms'.
  apply Hspec in Hp. destruct Hp as (Hplen & Hperm & Hresp).
  assert (Hnames : forall i j, p !! i = Some j -> matrixEntry left right i j = 1).
  { intros i j Hij.
    pose proof (respectsMatrix_entry _ _ _ _ Hresp Hij) as He.
    rewrite Hentries in He; [congruence| |].
    - apply lookup_lt_Some in Hij. lia.
    - apply list_elem_of_lookup_2 in Hij. rewrite Hperm in Hij.
      apply elem_of_seq in Hij. lia. }
  split_and!.
  - assumption.
  - destruct (lookup_lt_is_Some_2 p 0) as [j Hj]; [lia|].
    destruct (matrixEntry_one _ _ _ _ (Hnames 0 j Hj)) as [[_ ->]|(i' & ? & ? & ? & Hi & _)];
      [assumption | discriminate].
  - intros k j Hj.
    destruct (matrixEntry_one _ _ _ _ (Hnames _ _ Hj))
      as [[Hbad _]|(k' & c & a & b & Hk' & -> & Ha & Hb & Hname)]; [discriminate|].
    inversion Hk'; subst k'.
    exists c, a, b. split_and!; auto.
Qed.

(** X5. Every permutation the oracle hands to the checker sends the head
    to the head and a body atom to a body atom of the same qualified name;
    so no entry after the first is 0, and the decrement [i -= 1] of the
    checker never wraps around. *)
Theorem enumerated_permutations_match_names (left right : AstClause)
    (m : list (list nat)) (perms : list (list nat)) (p : list nat) :
  forallb isAtom (getBodyLiterals left) = true ->
  forallb isAtom (getBodyLiterals right) = true ->
  length (getBodyLiterals left) = length (getBodyLiterals right) ->
  permutationMatrixOf left right = Ok m ->
  extractPermutations m = Ok perms ->
  p ∈ perms ->
  p ≡ₚ seq 0 (S (length (getBodyLiterals left))) /\
  p !! 0 = Some 0 /\
  forall k j, p !! S k = Some j ->
    exists c a b,
      j = S c /\ uintPred j = N.of_nat c /\
      getBodyLiterals left !! k = Some (Atom a) /\
      getBodyLiterals right !! c = Some (Atom b) /\
      getQualifiedName a = getQualifiedName b.
Proof. apply permutation_pairs_names. Qed.

Lemma enumerated_permutations_match_names_witness :
  [0;1] ≡ₚ seq 0 (S (length (getBodyLiterals clauseA))) /\ [0;1] !! 0 = Some 0.
Proof.
  destruct (enumerated_permutations_match_names clauseA clauseB [[1;0];[0;1]] [[0;1]] [0;1])
    as (Hperm & Hzero & _).
  - reflexivity.
  - reflexivity.
  - reflexivity.
  - vm_compute. reflexivity.
  - vm_compute. reflexivity.
  - left.
  - split; assumption.
Defined.

(** ** What the oracle accepts *)

Lemma Forall2_argumentsMatch_pair (phi : gmap string string) (ls rs : list AstArgument) :
  Forall2 (argumentsMatch phi) ls rs -> Forall2 (argumentsPair phi) ls rs.
Proof. intros H. eapply Forall2_impl; [exact H|]. apply argumentsMatch_pair. Qed.

(** A permutation and a renaming that carry the left clause onto the right
    one make the oracle answer true. *)
Lemma oracle_complete (left right : AstClause) (p : list nat) (phi : gmap string string) :
  passesPrecheck left right = true ->
  aritiesAgree left right ->
  carriedOnto p phi left right ->
  areBijectivelyEquivalent left right = Ok true.
Proof.
  intros Hpre Harity (Hperm & Hzero & Hhead & Hbody).
  rewrite areBijectivelyEquivalent_precheck, Hpre.
  destruct (passesPrecheck_valid _ _ Hpre) as (Hvl & Hvr & Harhead & Hsize).
  destruct (passesPrecheck_true _ _ Hpre) as (Hl & Hr & Hlen).
  destruct (permutationMatrixOf_entries left right Hl Hr Hlen)
    as (m & Hm & [Hmlen Hrows] & Hentries).
  destruct (extractPermutations_square m _ Hmlen ltac:(lia) Hrows)
    as (perms & Hperms & _ & Hspec & _).
  rewrite Hm. cbn [bind]. rewrite Hperms. cbn [bind].
  pose proof (proj1 (permutation_of_range _ _) Hperm) as (Hplen & Hnd & Hrange).
  assert (Hsucc : forall k j, p !! S k = Some j -> exists c, j = S c).
  { intros k [|c] Hj; [|eauto]. exfalso.
    pose proof (NoDup_lookup _ _ _ _ Hnd Hzero Hj). discriminate. }
  assert (Hresp : respectsMatrix m p).
  { intros i j Hij.
    assert (He : entryAt m i j = Some 1).
    { rewrite Hentries.
      - f_equal. destruct i as [|k].
        + rewrite Hzero in Hij. inversion Hij; subst j. reflexivity.
        + destruct (Hsucc k j Hij) as [c ->].
          destruct (Hbody k c Hij) as (a & b & Ha & Hb & Hname & _).
          simpl. rewrite Ha, Hb. rewrite bool_decide_eq_true_2 by assumption. reflexivity.
      - apply lookup_lt_Some in Hij. lia.
      - apply list_elem_of_lookup_2, Hrange in Hij. lia. }
    unfold entryAt in He. destruct (m !! i) as [row|]; [|discriminate].
    exists row. split; [reflexivity | assumption]. }
  apply anyValidPermutation_found.
  { intros q Hq. apply Hspec in Hq. destruct Hq as (_ & Hqperm & Hqresp).
    apply (checkPermutation_total left right m q Hl Hr Hlen Harhead Harity Hentries
             Hqperm Hqresp). }
  exists p.
  destruct (checkPermutation_shape left right m p Hl Hr Hlen Harhead Harity Hentries
              Hperm Hresp)
    as (body1 & Hrun & Hblen & Hidx & _ & _).
  destruct (matchAtoms_complete phi
              (body1 ++ [Atom (getHead left)])
              (getBodyLiterals right ++ [Atom (getHead right)]))
    with (st := mkMatch (initialVariableMap
                           (clauseVariableNames (mkClause (getHead left) body1)))
                        true false)
    as (st & Hst & Hvalid).
  - apply Forall2_same_length_lookup_2.
    { rewrite !length_app. simpl. lia. }
    intros c l r Hlc Hrc.
    destruct (decide (c < length (getBodyLiterals left))) as [Hc|Hc].
    + rewrite lookup_app_l in Hlc by lia. rewrite lookup_app_l in Hrc by lia.
      assert (Hin : S c ∈ p).
      { rewrite Hperm. apply elem_of_seq. lia. }
      apply list_elem_of_lookup in Hin. destruct Hin as [[|k] Hk].
      { rewrite Hzero in Hk. discriminate. }
      destruct (Hbody k c Hk) as (a & b & Ha & Hb & _ & Hargs).
      rewrite (Hidx k c Hk), Ha in Hlc. rewrite Hb in Hrc.
      inversion Hlc; subst l. inversion Hrc; subst r.
      exists a, b. split_and!; auto.
    + assert (c = length (getBodyLiterals left)).
      { apply lookup_lt_Some in Hlc. rewrite length_app in Hlc. simpl in Hlc. lia. }
      subst c.
      rewrite lookup_app_r in Hlc by lia. rewrite lookup_app_r in Hrc by lia.
      rewrite Hblen, Nat.sub_diag in Hlc. rewrite <- Hlen, Nat.sub_diag in Hrc.
      simpl in Hlc, Hrc. inversion Hlc; subst l. inversion Hrc; subst r.
      exists (getHead left), (getHead right). split_and!; auto.
  - apply agreesWith_initial.
  - reflexivity.
  - exists st. split_and!.
    + apply Hspec. split_and!; assumption.
    + rewrite Hrun. exact Hst.
    + exact Hvalid.
Qed.

(** Facts about the two example rules. *)
Lemma clauseJoin_arities : aritiesAgree clauseJoin clauseJoinSwapped.
Proof.
  intros a b Ha Hb Hname.
  repeat (apply elem_of_cons in Ha; destruct Ha as [Ha|Ha]);
    try (apply elem_of_nil in Ha; contradiction);
    repeat (apply elem_of_cons in Hb; destruct Hb as [Hb|Hb]);
    try (apply elem_of_nil in Hb; contradiction);
    inversion Ha; inversion Hb; reflexivity.
Qed.

Lemma clauseJoin_arities_swapped : aritiesAgree clauseJoinSwapped clauseJoin.
Proof. apply aritiesAgree_swap, clauseJoin_arities. Qed.

Lemma clauseJoin_arities_self : aritiesAgree clauseJoin clauseJoin.
Proof.
  intros a b Ha Hb Hname.
  repeat (apply elem_of_cons in Ha; destruct Ha as [Ha|Ha]);
    try (apply elem_of_nil in Ha; contradiction);
    repeat (apply elem_of_cons in Hb; destruct Hb as [Hb|Hb]);
    try (apply elem_of_nil in Hb; contradiction);
    inversion Ha; inversion Hb; reflexivity.
Qed.

Lemma clauseJoin_nilFree : nilFree (clauseArgNodes clauseJoin).
Proof.
  intros arg Harg. simpl in Harg.
  repeat (apply elem_of_cons in Harg; destruct Harg as [->|Harg]; [reflexivity|]).
  apply elem_of_nil in Harg. contradiction.
Qed.

Lemma clauseJoinSwapped_nilFree : nilFree (clauseArgNodes clauseJoinSwapped).
Proof.
  intros arg Harg. simpl in Harg.
  repeat (apply elem_of_cons in Harg; destruct Harg as [->|Harg]; [reflexivity|]).
  apply elem_of_nil in Harg. contradiction.
Qed.

Lemma clauseJoin_named : properlyNamed (clauseArgNodes clauseJoin).
Proof.
  intros x Hx. simpl in Hx.
  repeat (apply elem_of_cons in Hx; destruct Hx as [Hx|Hx]; [inversion Hx; discriminate|]).
  apply elem_of_nil in Hx. contradiction.
Qed.

Lemma clauseJoinSwapped_named : properlyNamed (clauseArgNodes clauseJoinSwapped).
Proof.
  intros x Hx. simpl in Hx.
  repeat (apply elem_of_cons in Hx; destruct Hx as [Hx|Hx]; [inversion Hx; discriminate|]).
  apply elem_of_nil in Hx. contradiction.
Qed.

(** X6. Soundness of the oracle.  If it answers true for two clauses, the
    left one without a nil constant and the right one without a variable of
    the empty name, equally named atoms having equal arities, then the
    clauses pass the precheck and there are a permutation of the atom
    positions and a renaming of variables that carry the left clause onto
    the right one, atom by atom and argument by argument; the renaming is a
    bijection between the variable names of the two clauses. *)
Theorem areBijectivelyEquivalent_sound (left right : AstClause) :
  aritiesAgree left right ->
  nilFree (clauseArgNodes left) ->
  properlyNamed (clauseArgNodes right) ->
  areBijectivelyEquivalent left right = Ok true ->
  passesPrecheck left right = true /\
  exists p phi,
    carriedOnto p phi left right /\
    bijectionBetween phi (variableNameSet left) (variableNameSet right).
Proof.
  intros Harity Hnil Hnamed Htrue.
  rewrite areBijectivelyEquivalent_precheck in Htrue.
  destruct (passesPrecheck left right) eqn:Hpre; [|discriminate].
  split; [reflexivity|].
  destruct (passesPrecheck_valid _ _ Hpre) as (Hvl & Hvr & Hhead & Hsize).
  destruct (passesPrecheck_true _ _ Hpre) as (Hl & Hr & Hlen).
  destruct (permutationMatrixOf_entries left right Hl Hr Hlen)
    as (m & Hm & [Hmlen Hrows] & Hentries).
  destruct (extractPermutations_square m _ Hmlen ltac:(lia) Hrows)
    as (perms & Hperms & _ & Hspec & _).
  rewrite Hm in Htrue. cbn [bind] in Htrue. rewrite Hperms in Htrue. cbn [bind] in Htrue.
  destruct (anyValidPermutation_true _ _ _ Htrue) as (p & st & Hp & Hcheck & Hvalid).
  pose proof (accepted_map_bijective_without_nil left right m perms p st
                Hpre Harity Hnil Hnamed Hm Hperms Hp Hcheck Hvalid) as Hbij.
  destruct (permutation_pairs_names left right m perms p Hl Hr Hlen Hm Hperms Hp)
    as (Hperm & Hzero & Hnames).
  apply Hspec in Hp. destruct Hp as (Hplen & _ & Hresp).
  destruct (checkPermutation_shape left right m p Hl Hr Hlen Hhead Harity Hentries Hperm Hresp)
    as (body1 & Hrun & Hblen & Hidx & Hsame & Hshape).
  rewrite Hrun in Hcheck.
  apply matchAtoms_sound in Hcheck; auto.
  2:{ intros a Ha arg Harg. apply Hnil. apply clauseArgNodes_valid; [assumption|].
      exists a. split; [|assumption].
      unfold clauseAtoms. rewrite elem_of_app in Ha |- *. rewrite <- Hsame. assumption. }
  2:{ intros b Hb x Hx. apply Hnamed. apply clauseArgNodes_valid; [assumption|].
      exists b. split; assumption. }
  destruct Hcheck as [Hmatch _]. cbn [variableMap] in Hmatch.
  exists p, (variableMap st). split; [|exact Hbij].
  split_and!; [assumption | assumption | |].
  - assert (Hpair : atomsMatch (variableMap st) (Atom (getHead left)) (Atom (getHead right))).
    { apply (Forall2_lookup_lr _ _ _ (length (getBodyLiterals left)) _ _ Hmatch).
      - rewrite lookup_app_r by lia. rewrite Hblen, Nat.sub_diag. reflexivity.
      - rewrite lookup_app_r by lia. rewrite <- Hlen, Nat.sub_diag. reflexivity. }
    destruct Hpair as (a & b & Ha & Hb & Hargs). inversion Ha; inversion Hb; subst.
    apply Forall2_argumentsMatch_pair. assumption.
  - intros k c Hk.
    destruct (Hnames k (S c) Hk) as (c' & a & b & Hc' & _ & Ha & Hb & Hname).
    inversion Hc'; subst c'.
    exists a, b. split_and!; auto.
    assert (Hpair : atomsMatch (variableMap st) (Atom a) (Atom b)).
    { apply (Forall2_lookup_lr _ _ _ c _ _ Hmatch).
      - rewrite lookup_app_l; [rewrite (Hidx k c Hk); exact Ha|].
        apply lookup_lt_Some in Hb. lia.
      - rewrite lookup_app_l; [exact Hb|]. apply lookup_lt_Some in Hb. lia. }
    destruct Hpair as (a' & b' & Ha' & Hb' & Hargs). inversion Ha'; inversion Hb'; subst.
    apply Forall2_argumentsMatch_pair. assumption.
Qed.

Lemma areBijectivelyEquivalent_sound_witness :
  passesPrecheck clauseJoin clauseJoinSwapped = true /\
  exists p phi,
    carriedOnto p phi clauseJoin clauseJoinSwapped /\
    bijectionBetween phi (variableNameSet clauseJoin) (variableNameSet clauseJoinSwapped).
Proof.
  apply (areBijectivelyEquivalent_sound clauseJoin clauseJoinSwapped).
  - exact clauseJoin_arities.
  - exact clauseJoin_nilFree.
  - exact clauseJoinSwapped_named.
  - vm_compute. reflexivity.
Defined.

(** X7. Completeness of the oracle.  If two clauses pass the precheck,
    equally named atoms have equal arities, and some permutation of the
    atom positions and some renaming of variables carry the left clause
    onto the right one (nil constants facing nil constants), the oracle
    answers true. *)
Theorem areBijectivelyEquivalent_complete (left right : AstClause)
    (p : list nat) (phi : gmap string string) :
  passesPrecheck left right = true ->
  aritiesAgree left right ->
  carriedOnto p phi left right ->
  areBijectivelyEquivalent left right = Ok true.
Proof. apply oracle_complete. Qed.

Lemma clauseJoin_carried :
  carriedOnto [0; 2; 1] {["x" := "a"; "y" := "b"; "z" := "c"]} clauseJoin clauseJoinSwapped.
Proof.
  split_and!.
  - apply (bool_decide_unpack _). vm_compute. exact I.
  - reflexivity.
  - repeat constructor.
  - intros [|[|k]] c Hc; simpl in Hc; inversion Hc; subst c.
    + eexists _, _. split_and!; [reflexivity | reflexivity | reflexivity |].
      repeat constructor.
    + eexists _, _. split_and!; [reflexivity | reflexivity | reflexivity |].
      repeat constructor.
Qed.

Lemma areBijectivelyEquivalent_complete_witness :
  areBijectivelyEquivalent clauseJoin clauseJoinSwapped = Ok true.
Proof.
  apply (areBijectivelyEquivalent_complete clauseJoin clauseJoinSwapped
           [0; 2; 1] {["x" := "a"; "y" := "b"; "z" := "c"]}).
  - vm_compute. reflexivity.
  - exact clauseJoin_arities.
  - exact clauseJoin_carried.
Defined.

Lemma identityMap_lookup (X : gset string) (u : string) :
  u ∈ X -> identityMap X !! u = Some u.
Proof.
  intros Hu. unfold identityMap. apply lookup_set_to_map.
  - intros y y' _ _ H. exact H.
  - exists u. split; [assumption | reflexivity].
Qed.

Lemma argumentsPair_identity (X : gset string) (arg : AstArgument) :
  isPrimitive arg = true ->
  (forall u, arg = AstVariable u -> u ∈ X) ->
  argumentsPair (identityMap X) arg arg.
Proof.
  intros Hprim Hvars. destruct arg; simpl; try discriminate Hprim; auto.
  apply identityMap_lookup. apply Hvars. reflexivity.
Qed.

Lemma atom_identity (clause : AstClause) (a : AstAtom) :
  isValidClause clause = true ->
  Atom a ∈ clauseAtoms clause ->
  Forall2 (argumentsPair (identityMap (variableNameSet clause)))
          (getArguments a) (getArguments a).
Proof.
  intros Hvalid Ha. apply Forall2_same_length_lookup_2; [reflexivity|].
  intros i x y Hx Hy. rewrite Hx in Hy. inversion Hy; subst y.
  assert (Hin : x ∈ getArguments a) by (eapply list_elem_of_lookup_2; eassumption).
  apply argumentsPair_identity.
  - pose proof Hvalid as Hv. unfold isValidClause in Hv.
    apply andb_prop in Hv. destruct Hv as [_ Hprim].
    rewrite forallb_forall in Hprim. apply Hprim. apply list_elem_of_In.
    apply clauseArgNodes_valid; [assumption|]. exists a. split; assumption.
  - intros u ->. apply variableNameSet_valid; [assumption|]. exists a. split; assumption.
Qed.

(** X8. The oracle is reflexive exactly on the admissible clauses: asked
    about a clause and itself it answers true when all body literals are
    atoms and all arguments are variables or constants, and false
    otherwise. *)
Theorem areBijectivelyEquivalent_reflexive (clause : AstClause) :
  aritiesAgree clause clause ->
  areBijectivelyEquivalent clause clause = Ok (isValidClause clause).
Proof.
  intros Harity. destruct (isValidClause clause) eqn:Hvalid.
  - apply (oracle_complete clause clause (seq 0 (S (length (getBodyLiterals clause))))
             (identityMap (variableNameSet clause))).
    + unfold passesPrecheck. rewrite Hvalid, !Nat.eqb_refl. reflexivity.
    + assumption.
    + split_and!.
      * reflexivity.
      * reflexivity.
      * apply atom_identity; [assumption|].
        unfold clauseAtoms. apply elem_of_app. right. left.
      * intros k c Hk. apply lookup_seq in Hk. destruct Hk as [Hc Hk].
        assert (c = k) by lia. subst c.
        pose proof Hvalid as Hv. unfold isValidClause in Hv.
        apply andb_prop in Hv. destruct Hv as [Hatoms _].
        destruct (forallb_isAtom_lookup _ k Hatoms) as [a Ha]; [lia|].
        exists a, a. split_and!; auto.
        apply atom_identity; [assumption|].
        unfold clauseAtoms. apply elem_of_app. left.
        eapply list_elem_of_lookup_2. exact Ha.
  - unfold areBijectivelyEquivalent. rewrite Hvalid. reflexivity.
Qed.

Lemma areBijectivelyEquivalent_reflexive_witness :
  areBijectivelyEquivalent clauseJoin clauseJoin = Ok (isValidClause clauseJoin).
Proof.
  apply (areBijectivelyEquivalent_reflexive clauseJoin). exact clauseJoin_arities_self.
Defined.

(** X10. The oracle returns on clauses whose equally named atoms have equal
    arities: the search ends within its iteration budget, no vector is read
    or written past its end and no [assert] fails. *)
Theorem areBijectivelyEquivalent_returns (left right : AstClause) :
  aritiesAgree left right ->
  exists b, areBijectivelyEquivalent left right = Ok b.
Proof. apply areBijectivelyEquivalent_total. Qed.

Lemma areBijectivelyEquivalent_returns_witness :
  exists b, areBijectivelyEquivalent clauseJoin clauseJoinSwapped = Ok b.
Proof.
  apply (areBijectivelyEquivalent_returns clauseJoin clauseJoinSwapped).
  exact clauseJoin_arities.
Defined.

Lemma omap_atomName (lits : list AstLiteral) :
  forallb isAtom lits = true ->
  omap atomName lits = map (fun lit => default [] (atomName lit)) lits.
Proof.
  induction lits as [|lit lits IH]; intros H; [reflexivity|].
  simpl in H. apply andb_prop in H. destruct H as [Hlit Hlits].
  destruct lit; try discriminate Hlit.
  change (omap atomName (Atom a :: lits)) with (getQualifiedName a :: omap atomName lits).
  rewrite IH by assumption. reflexivity.
Qed.

(** X11. Whatever the arguments are, the oracle answers true only for
    clauses whose bodies name the same relations the same number of times:
    the qualified names of the body atoms of the one clause are a
    rearrangement of those of the other. *)
Theorem accepted_bodies_name_same_relations (left right : AstClause) :
  areBijectivelyEquivalent left right = Ok true ->
  bodyAtomNames left ≡ₚ bodyAtomNames right.
Proof.
  intros Htrue. rewrite areBijectivelyEquivalent_precheck in Htrue.
  destruct (passesPrecheck left right) eqn:Hpre; [|discriminate].
  destruct (passesPrecheck_true _ _ Hpre) as (Hl & Hr & Hlen).
  destruct (permutationMatrixOf_entries left right Hl Hr Hlen)
    as (m & Hm & [Hmlen Hrows] & Hentries).
  destruct (extractPermutations_square m _ Hmlen ltac:(lia) Hrows)
    as (perms & Hperms & _ & Hspec & _).
  rewrite Hm in Htrue. cbn [bind] in Htrue. rewrite Hperms in Htrue. cbn [bind] in Htrue.
  destruct (anyValidPermutation_true _ _ _ Htrue) as (p & st & Hp & _ & _).
  destruct (permutation_pairs_names left right m perms p Hl Hr Hlen Hm Hperms Hp)
    as (Hperm & Hzero & Hnames).
  pose proof (proj1 (permutation_of_range _ _) Hperm) as (Hplen & Hnd & Hrange).
  unfold bodyAtomNames. rewrite !omap_atomName by assumption.
  set (n := length (getBodyLiterals left)) in *.
  set (f := fun i => if decide (i < n) then pred (default 0 (p !! S i)) else i).
  assert (Hf : forall i, i < n ->
            exists a b, p !! S i = Some (S (f i)) /\
                        getBodyLiterals left !! i = Some (Atom a) /\
                        getBodyLiterals right !! f i = Some (Atom b) /\
                        getQualifiedName a = getQualifiedName b).
  { intros i Hi. destruct (lookup_lt_is_Some_2 p (S i)) as [j Hj]; [lia|].
    destruct (Hnames i j Hj) as (c & a & b & -> & _ & Ha & Hb & Hname).
    assert (Hfi : f i = c).
    { unfold f. rewrite decide_True by assumption. rewrite Hj. reflexivity. }
    rewrite Hfi. exists a, b. split_and!; assumption. }
  apply Permutation_inj. split.
  { rewrite !length_map. assumption. }
  exists f. split.
  - intros i i' Heq.
    destruct (decide (i < n)) as [Hi|Hi], (decide (i' < n)) as [Hi'|Hi'].
    + destruct (Hf i Hi) as (_ & _ & Hpi & _). destruct (Hf i' Hi') as (_ & _ & Hpi' & _).
      rewrite Heq in Hpi.
      pose proof (NoDup_lookup _ _ _ _ Hnd Hpi Hpi'). lia.
    + destruct (Hf i Hi) as (_ & b & _ & _ & Hb & _).
      apply lookup_lt_Some in Hb. fold n in Hlen. rewrite <- Hlen in Hb.
      unfold f at 2 in Heq. rewrite decide_False in Heq by assumption. lia.
    + destruct (Hf i' Hi') as (_ & b & _ & _ & Hb & _).
      apply lookup_lt_Some in Hb. fold n in Hlen. rewrite <- Hlen in Hb.
      unfold f at 1 in Heq. rewrite decide_False in Heq by assumption. lia.
    + unfold f in Heq. rewrite !decide_False in Heq by assumption. assumption.
  - intros i. rewrite !list_lookup_fmap.
    destruct (decide (i < n)) as [Hi|Hi].
    + destruct (Hf i Hi) as (a & b & _ & Ha & Hb & Hname).
      rewrite Ha, Hb. simpl. rewrite Hname. reflexivity.
    + unfold f. rewrite decide_False by assumption.
      rewrite !lookup_ge_None_2 by (fold n; lia). reflexivity.
Qed.

Lemma accepted_bodies_name_same_relations_witness :
  bodyAtomNames clauseJoin ≡ₚ bodyAtomNames clauseJoinSwapped.
Proof.
  apply (accepted_bodies_name_same_relations clauseJoin clauseJoinSwapped).
  vm_compute. reflexivity.
Defined.

(** ** The Body Deduplicator as the code has it *)

(** X12. The two nested loops record a position as redundant exactly when
    it holds the first occurrence of a literal that occurs again at a later
    position of the body. *)
Theorem redundantPositions_first_occurrences (bodyLiterals : list AstLiteral) (j : nat) :
  j ∈ redundantPositionsOf bodyLiterals <->
  exists i lit,
    j < i /\ bodyLiterals !! i = Some lit /\ bodyLiterals !! j = Some lit /\
    forall k, k < j -> bodyLiterals !! k <> Some lit.
Proof. apply redundantPositionsOf_spec. Qed.

Lemma firstEqualPosition_None (lit : AstLiteral) (earlier : list AstLiteral) :
  forall start, firstEqualPosition lit earlier start = None -> lit ∉ earlier.
Proof.
  induction earlier as [|e es IH]; intros start Hnone Hin.
  - apply elem_of_nil in Hin. contradiction.
  - simpl in Hnone. destruct (Literal_eqb lit e) eqn:E; [discriminate|].
    apply elem_of_cons in Hin. destruct Hin as [->|Hin].
    + rewrite (proj2 (Literal_eqb_eq e e) eq_refl) in E. discriminate.
    + exact (IH _ Hnone Hin).
Qed.

Lemma redundantPositionsOf_empty (bodyLiterals : list AstLiteral) :
  redundantPositionsOf bodyLiterals = ∅ <-> NoDup bodyLiterals.
Proof.
  split.
  - intros Hempty. apply NoDup_alt.
    assert (Hlt : forall i j x, i < j -> bodyLiterals !! i = Some x ->
                                bodyLiterals !! j = Some x -> False).
    { intros i j x Hij Hi Hj.
      destruct (firstEqualPosition x (take j bodyLiterals) 0) as [k|] eqn:E.
      - assert (Hk : k ∈ redundantPositionsOf bodyLiterals).
        { unfold redundantPositionsOf. apply redundantPositions_fold. right.
          exists j, x. split_and!; [|assumption|assumption].
          apply elem_of_seq. apply lookup_lt_Some in Hj. lia. }
        rewrite Hempty in Hk. apply not_elem_of_empty in Hk. contradiction.
      - apply firstEqualPosition_None in E. apply E.
        apply (list_elem_of_lookup_2 _ i). rewrite lookup_take_lt by assumption. assumption. }
    intros i j x Hi Hj.
    destruct (Nat.lt_trichotomy i j) as [Hij|[Hij|Hij]]; [|assumption|].
    + exfalso. eapply Hlt; eassumption.
    + exfalso. eapply Hlt; eassumption.
  - intros Hnd. apply set_eq. intros j. split.
    + intros Hj. apply redundantPositionsOf_spec in Hj.
      destruct Hj as (i & lit & Hji & Hi & Hj & _).
      pose proof (NoDup_lookup _ _ _ _ Hnd Hi Hj). lia.
    + intros Hj. apply not_elem_of_empty in Hj. contradiction.
Qed.

(** X13. A clause is left alone exactly when its body literals are
    pairwise distinct. *)
Theorem minimisedClauseOf_None (clause : AstClause) :
  minimisedClauseOf clause = None <-> NoDup (getBodyLiterals clause).
Proof.
  rewrite <- redundantPositionsOf_empty. unfold minimisedClauseOf.
  destruct (decide (redundantPositionsOf (getBodyLiterals clause) = ∅)) as [E|E].
  - split; auto.
  - split; [discriminate | contradiction].
Qed.

Lemma keepFrom_sublist (bodyLiterals : list AstLiteral) (redundant : gset nat) :
  forall i, keepFrom i bodyLiterals redundant `sublist_of` bodyLiterals.
Proof.
  induction bodyLiterals as [|l ls IH]; intros i; simpl; [constructor|].
  destruct (decide (i ∈ redundant)).
  - apply sublist_cons. apply IH.
  - apply sublist_skip. apply IH.
Qed.

Lemma keepFrom_kept (bodyLiterals : list AstLiteral) (redundant : gset nat) :
  forall start i lit,
    bodyLiterals !! i = Some lit -> start + i ∉ redundant ->
    lit ∈ keepFrom start bodyLiterals redundant.
Proof.
  induction bodyLiterals as [|l ls IH]; intros start i lit Hi Hkeep; [discriminate|].
  simpl. destruct i as [|i].
  - simpl in Hi. inversion Hi; subst l. rewrite Nat.add_0_r in Hkeep.
    rewrite decide_False by assumption. left.
  - simpl in Hi. assert (Hrest : lit ∈ keepFrom (S start) ls redundant).
    { apply (IH (S start) i); [assumption|]. replace (S start + i) with (start + S i) by lia.
      assumption. }
    destruct (decide (start ∈ redundant)); [assumption | right; assumption].
Qed.

Lemma keepFrom_shorter (bodyLiterals : list AstLiteral) (redundant : gset nat) :
  forall start j,
    start <= j < start + length bodyLiterals -> j ∈ redundant ->
    length (keepFrom start bodyLiterals redundant) < length bodyLiterals.
Proof.
  induction bodyLiterals as [|l ls IH]; intros start j Hj Hred; simpl in *; [lia|].
  pose proof (sublist_length _ _ (keepFrom_sublist ls redundant (S start))) as Hle.
  destruct (decide (start ∈ redundant)) as [Hs|Hs]; [lia|].
  simpl. assert (Hne : j <> start) by (intros ->; contradiction).
  specialize (IH (S start) j ltac:(lia) Hred). lia.
Qed.

Lemma literal_elem_dec (x : AstLiteral) (ys : list AstLiteral) : x ∈ ys \/ x ∉ ys.
Proof.
  destruct (existsb (Literal_eqb x) ys) eqn:E.
  - left. apply existsb_exists in E. destruct E as (y & Hy & Heq).
    apply Literal_eqb_eq in Heq. subst y. apply list_elem_of_In. assumption.
  - right. intros Hin.
    assert (Htrue : existsb (Literal_eqb x) ys = true).
    { apply existsb_exists. exists x. split; [apply list_elem_of_In; assumption|].
      apply Literal_eqb_eq. reflexivity. }
    congruence.
Qed.

Lemma last_occurrence (xs : list AstLiteral) (x : AstLiteral) :
  x ∈ xs -> exists i, xs !! i = Some x /\ forall k, i < k -> xs !! k <> Some x.
Proof.
  induction xs as [|y ys IH]; intros Hx.
  - apply elem_of_nil in Hx. contradiction.
  - destruct (literal_elem_dec x ys) as [Hlater|Hnone].
    + destruct (IH Hlater) as (i & Hi & Hlast). exists (S i). split; [exact Hi|].
      intros [|k] Hk; [lia|]. simpl. apply Hlast. lia.
    + apply elem_of_cons in Hx. destruct Hx as [->|Hx]; [|contradiction].
      exists 0. split; [reflexivity|].
      intros [|k] Hk; [lia|]. simpl. intros Hin. apply Hnone.
      eapply list_elem_of_lookup_2. eassumption.
Qed.

(** X14. The clause that replaces a clause with repeated literals has the
    same head, a strictly shorter body that is a subsequence of the old
    body, and the very same set of body literals: no literal is lost. *)
Theorem minimisedClauseOf_keeps_literals (clause minimised : AstClause) :
  minimisedClauseOf clause = Some minimised ->
  getHead minimised = getHead clause /\
  getBodyLiterals minimised `sublist_of` getBodyLiterals clause /\
  length (getBodyLiterals minimised) < length (getBodyLiterals clause) /\
  forall lit, lit ∈ getBodyLiterals minimised <-> lit ∈ getBodyLiterals clause.
Proof.
  unfold minimisedClauseOf.
  destruct (decide (redundantPositionsOf (getBodyLiterals clause) = ∅)) as [E|E];
    [discriminate|].
  intros H. inversion H; subst minimised. clear H. simpl. split_and!.
  - reflexivity.
  - apply keepFrom_sublist.
  - apply set_choose_L in E. destruct E as [j Hj].
    apply (keepFrom_shorter _ _ 0 j); [|assumption].
    apply redundantPositionsOf_spec in Hj. destruct Hj as (i & lit & Hji & Hi & _).
    apply lookup_lt_Some in Hi. lia.
  - intros lit. split; [apply keepFrom_subset|].
    intros Hlit. destruct (last_occurrence _ _ Hlit) as (i & Hi & Hlast).
    apply (keepFrom_kept _ _ 0 i); [assumption|]. simpl.
    intros Hred. apply redundantPositionsOf_spec in Hred.
    destruct Hred as (i' & lit' & Hlt & Hi' & Hlit' & _).
    rewrite Hi in Hlit'. inversion Hlit'; subst lit'.
    exact (Hlast i' Hlt Hi').
Qed.

Lemma minimisedClauseOf_keeps_literals_witness :
  getHead (rule "A" [var "x"] [atomBx; atomBx]) = getHead clauseTriple /\
  getBodyLiterals (rule "A" [var "x"] [atomBx; atomBx])
    `sublist_of` getBodyLiterals clauseTriple /\
  length (getBodyLiterals (rule "A" [var "x"] [atomBx; atomBx]))
    < length (getBodyLiterals clauseTriple) /\
  forall lit, lit ∈ getBodyLiterals (rule "A" [var "x"] [atomBx; atomBx]) <->
              lit ∈ getBodyLiterals clauseTriple.
Proof.
  apply (minimisedClauseOf_keeps_literals clauseTriple (rule "A" [var "x"] [atomBx; atomBx])).
  vm_compute. reflexivity.
Defined.

Lemma changes_removed (cs : list AstClause) :
  map fst (omap (fun clause => match minimisedClauseOf clause with
                               | Some minimised => Some (clause, minimised)
                               | None => None
                               end) cs)
  = List.filter (fun c => negb (bool_decide (minimisedClauseOf c = None))) cs.
Proof.
  induction cs as [|c cs IH]; [reflexivity|].
  cbn [omap list_omap List.filter]. destruct (minimisedClauseOf c) as [c'|] eqn:E.
  - rewrite bool_decide_eq_false_2 by discriminate. simpl. f_equal. exact IH.
  - rewrite bool_decide_eq_true_2 by reflexivity. simpl. exact IH.
Qed.

Lemma changes_added (cs : list AstClause) :
  map snd (omap (fun clause => match minimisedClauseOf clause with
                               | Some minimised => Some (clause, minimised)
                               | None => None
                               end) cs)
  = omap minimisedClauseOf cs.
Proof.
  induction cs as [|c cs IH]; [reflexivity|].
  cbn [omap list_omap]. destruct (minimisedClauseOf c) as [c'|] eqn:E.
  - simpl. f_equal. exact IH.
  - exact IH.
Qed.

(** X15. The Body Deduplicator on a whole program: the relations and the
    I/O oracle stay; the clauses with pairwise distinct body literals keep
    their places at the front of the clause sequence, and the minimised
    versions of the other clauses follow them (the code walks them in the
    order of a set of addresses, so their order among themselves is not
    fixed); the flag tells whether some clause was minimised. *)
Theorem reduceClauseBodies_result (tu : AstTranslationUnit) :
  let cs := programClauses (getProgram tu) in
  let r := reduceClauseBodies tu in
  getRelations (getProgram r.2) = getRelations (getProgram tu) /\
  isIO r.2 = isIO tu /\
  (exists added,
     added ≡ₚ omap minimisedClauseOf cs /\
     programClauses (getProgram r.2)
     = List.filter (fun c => bool_decide (minimisedClauseOf c = None)) cs ++ added) /\
  (r.1 = true <-> exists c, c ∈ cs /\ minimisedClauseOf c <> None).
Proof.
  cbv zeta. unfold reduceClauseBodies, withProgram.
  cbn [fst snd getProgram isIO].
  rewrite foldl_addClause, foldl_removeClause. cbn [getRelations programClauses].
  rewrite changes_removed, changes_added, remove_filtered.
  split_and!; [reflexivity | reflexivity | |].
  - exists (omap minimisedClauseOf (programClauses (getProgram tu))).
    split; [reflexivity|]. f_equal. apply filter_ext_elem.
    intros c _. rewrite negb_involutive. reflexivity.
  - rewrite negb_true_iff, bool_decide_eq_false. split.
    + intros Hne.
      destruct (omap minimisedClauseOf (programClauses (getProgram tu))) as [|c' rest] eqn:E;
        [contradiction|].
      assert (Hin : c' ∈ omap minimisedClauseOf (programClauses (getProgram tu))).
      { rewrite E. left. }
      apply list_elem_of_omap in Hin. destruct Hin as (c & Hc & Hmin).
      exists c. split; [assumption | congruence].
    + intros (c & Hc & Hmin) Hnil.
      destruct (minimisedClauseOf c) as [c'|] eqn:E; [|contradiction].
      assert (Hin : c' ∈ omap minimisedClauseOf (programClauses (getProgram tu))).
      { apply list_elem_of_omap. exists c. split; assumption. }
      rewrite Hnil in Hin. apply elem_of_nil in Hin. contradiction.
Qed.

(** ** The Self-Implication Filter as the code has it *)

Lemma isRedundant_head (clause : AstClause) :
  isRedundant clause = true <-> Atom (getHead clause) ∈ getBodyLiterals clause.
Proof.
  unfold isRedundant. rewrite existsb_exists. split.
  - intros (lit & Hlit & Heq). apply Literal_eqb_eq in Heq. subst lit.
    apply list_elem_of_In. assumption.
  - intros Hin. exists (Atom (getHead clause)).
    split; [apply list_elem_of_In; assumption | apply Literal_eqb_eq; reflexivity].
Qed.

(** X16. The Self-Implication Filter keeps the relations and the I/O
    oracle, and of the clauses exactly those, in their order, whose head
    atom is not one of their own body literals; duplicates of a removed
    clause go with it.  The flag tells whether some clause had its head in
    its body. *)
Theorem removeRedundantClauses_result (tu : AstTranslationUnit) :
  let cs := programClauses (getProgram tu) in
  let r := removeRedundantClauses tu in
  getRelations (getProgram r.2) = getRelations (getProgram tu) /\
  isIO r.2 = isIO tu /\
  programClauses (getProgram r.2) = List.filter (fun c => negb (isRedundant c)) cs /\
  (forall c, c ∈ programClauses (getProgram r.2) <->
             c ∈ cs /\ Atom (getHead c) ∉ getBodyLiterals c) /\
  (r.1 = true <-> exists c, c ∈ cs /\ Atom (getHead c) ∈ getBodyLiterals c).
Proof.
  cbv zeta. rewrite removeRedundantClauses_filter.
  cbn [fst snd getProgram getRelations programClauses isIO].
  split_and!; [reflexivity | reflexivity | reflexivity | |].
  - intros c. rewrite filter_elem, negb_true_iff, <- isRedundant_head.
    destruct (isRedundant c); split; intros [Hc H]; split; auto; try discriminate.
    exfalso. apply H. reflexivity.
  - rewrite negb_true_iff, bool_decide_eq_false. split.
    + intros Hne.
      destruct (List.filter isRedundant (programClauses (getProgram tu))) as [|c rest] eqn:E;
        [contradiction|].
      assert (Hin : c ∈ List.filter isRedundant (programClauses (getProgram tu))).
      { rewrite E. left. }
      apply filter_elem in Hin. destruct Hin as [Hc Hred].
      exists c. split; [assumption | apply isRedundant_head; assumption].
    + intros (c & Hc & Hhead) Hnil.
      assert (Hin : c ∈ List.filter isRedundant (programClauses (getProgram tu))).
      { apply filter_elem. split; [assumption | apply isRedundant_head; assumption]. }
      rewrite Hnil in Hin. apply elem_of_nil in Hin. contradiction.
Qed.

(** ** The Local Equivalence Reducer deletes equivalent clauses only *)

Lemma anyEquivalent_true (reps : list AstClause) (clause : AstClause) :
  anyEquivalent reps clause = Ok true ->
  exists rep, rep ∈ reps /\ areBijectivelyEquivalent rep clause = Ok true.
Proof.
  induction reps as [|r reps IH]; simpl; [discriminate|].
  destruct (areBijectivelyEquivalent r clause) as [[|]| |] eqn:E; cbn [bind];
    try discriminate.
  - intros _. exists r. split; [left | assumption].
  - intros H. destruct (IH H) as (rep & Hrep & Heq).
    exists rep. split; [right; assumption | assumption].
Qed.

(** The clauses of one relation: each one is deleted or becomes the
    representative of a new class, and a deleted one is equivalent to a
    representative. *)
Lemma classify_sound (clausesOfRel : list AstClause) :
  forall equivalenceClasses del classes' del',
    Forall (fun eqClass => eqClass <> []) equivalenceClasses ->
    NoDup clausesOfRel ->
    foldOutcome classifyClause clausesOfRel (equivalenceClasses, del) = Ok (classes', del') ->
    exists deleted kept,
      del' = del ++ deleted /\
      representatives classes' = representatives equivalenceClasses ++ kept /\
      (forall c, c ∈ clausesOfRel <-> c ∈ deleted \/ c ∈ kept) /\
      (forall c, c ∈ deleted -> c ∉ kept) /\
      forall d, d ∈ deleted ->
        exists rep, rep ∈ representatives classes' /\
                    areBijectivelyEquivalent rep d = Ok true.
Proof.
  induction clausesOfRel as [|c cs IH]; intros classes del classes' del' Hne Hnd Hrun.
  - simpl in Hrun. inversion Hrun; subst. exists [], []. split_and!.
    + rewrite app_nil_r. reflexivity.
    + rewrite app_nil_r. reflexivity.
    + intros c. split; [intros H; apply elem_of_nil in H; contradiction|].
      intros [H|H]; apply elem_of_nil in H; contradiction.
    + intros c H. apply elem_of_nil in H. contradiction.
    + intros d H. apply elem_of_nil in H. contradiction.
  - apply NoDup_cons in Hnd. destruct Hnd as [Hc Hnd].
    simpl in Hrun. unfold classifyClause at 1 in Hrun. cbn [fst snd] in Hrun.
    destruct (joinClass classes c) as [joined| |] eqn:Ejoin; cbn [bind] in Hrun;
      try discriminate.
    destruct (joinClass_representatives _ _ Hne _ Ejoin) as [Hany Hsome].
    destruct joined as [classes1|]; cbn [bind] in Hrun.
    + destruct (Hsome _ eq_refl) as [Hreps Hne1].
      destruct (IH _ _ _ _ Hne1 Hnd Hrun) as (deleted & kept & -> & Hreps' & Hpart & Hdisj & Heq).
      rewrite Hreps in Hreps'.
      exists (c :: deleted), kept. split_and!.
      * rewrite <- app_assoc. reflexivity.
      * assumption.
      * intros x. rewrite !elem_of_cons, Hpart. tauto.
      * intros x Hx Hkept. apply elem_of_cons in Hx. destruct Hx as [->|Hx].
        -- apply Hc. apply Hpart. right. assumption.
        -- exact (Hdisj x Hx Hkept).
      * intros d Hd. apply elem_of_cons in Hd. destruct Hd as [->|Hd]; [|auto].
        rewrite bool_decide_eq_true_2 in Hany by eauto.
        destruct (anyEquivalent_true _ _ Hany) as (rep & Hrep & Hsame).
        exists rep. split; [|assumption].
        rewrite Hreps'. apply elem_of_app. left. assumption.
    + assert (Hne1 : Forall (fun eqClass => eqClass <> []) (classes ++ [[c]])).
      { apply Forall_app. split; [assumption|]. constructor; [discriminate | constructor]. }
      destruct (IH _ _ _ _ Hne1 Hnd Hrun) as (deleted & kept & -> & Hreps' & Hpart & Hdisj & Heq).
      rewrite representatives_snoc, <- app_assoc in Hreps'.
      exists deleted, (c :: kept). split_and!.
      * reflexivity.
      * assumption.
      * intros x. rewrite !elem_of_cons, Hpart. tauto.
      * intros x Hx Hkept. apply elem_of_cons in Hkept. destruct Hkept as [->|Hkept].
        -- apply Hc. apply Hpart. left. assumption.
        -- exact (Hdisj x Hx Hkept).
      * exact Heq.
Qed.

Lemma classifyRelation_sound (program : AstProgram) (del del' : list AstClause)
    (rel : AstRelation) :
  NoDup (programClauses program) ->
  classifyRelation program del rel = Ok del' ->
  exists deleted,
    del' = del ++ deleted /\
    forall d, d ∈ deleted ->
      d ∈ programClauses program /\ headName d = relName rel /\
      exists rep, rep ∈ programClauses program /\ headName rep = relName rel /\
                  (rep ∉ deleted) /\ areBijectivelyEquivalent rep d = Ok true.
Proof.
  intros Hnd Hrun. unfold classifyRelation in Hrun. rewrite getClauses_values in Hrun.
  destruct (foldOutcome classifyClause _ _) as [[classes' del1]| |] eqn:E;
    cbn [bind snd] in Hrun; try discriminate.
  inversion Hrun; subst del1. clear Hrun.
  apply classify_sound in E; [|constructor|apply filter_NoDup; assumption].
  destruct E as (deleted & kept & -> & Hreps & Hpart & Hdisj & Heq).
  simpl in Hreps.
  assert (Hin : forall c, c ∈ deleted \/ c ∈ kept ->
                          c ∈ programClauses program /\ headName c = relName rel).
  { intros c Hc. apply Hpart, filter_elem in Hc. destruct Hc as [Hc Hname].
    apply bool_decide_eq_true in Hname. split; assumption. }
  exists deleted. split; [reflexivity|].
  intros d Hd. destruct (Hin d (or_introl Hd)) as [Hdin Hdname].
  split_and!; [assumption | assumption |].
  destruct (Heq d Hd) as (rep & Hrep & Hsame). rewrite Hreps in Hrep.
  destruct (Hin rep (or_intror Hrep)) as [Hrin Hrname].
  exists rep. split_and!; [assumption | assumption | | assumption].
  intros Hbad. exact (Hdisj rep Hbad Hrep).
Qed.

Lemma classifyRelations_sound (program : AstProgram) (rels : list AstRelation) :
  forall del del',
    NoDup (programClauses program) ->
    NoDup (map relName rels) ->
    foldOutcome (classifyRelation program) rels del = Ok del' ->
    exists added,
      del' = del ++ added /\
      forall d, d ∈ added ->
        d ∈ programClauses program /\
        (exists rel, rel ∈ rels /\ headName d = relName rel) /\
        exists rep, rep ∈ programClauses program /\ headName rep = headName d /\
                    (rep ∉ added) /\ areBijectivelyEquivalent rep d = Ok true.
Proof.
  induction rels as [|rel rels IH]; intros del del' Hcs Hnames Hrun; simpl in Hrun.
  - inversion Hrun; subst. exists []. split; [rewrite app_nil_r; reflexivity|].
    intros d Hd. apply elem_of_nil in Hd. contradiction.
  - simpl in Hnames. apply NoDup_cons in Hnames. destruct Hnames as [Hfresh Hnames].
    destruct (classifyRelation program del rel) as [del1| |] eqn:E; cbn [bind] in Hrun;
      try discriminate.
    destruct (classifyRelation_sound _ _ _ _ Hcs E) as (deleted & -> & Hdel).
    destruct (IH _ _ Hcs Hnames Hrun) as (added & -> & Hadded).
    assert (Hother : forall x, x ∈ added -> headName x <> relName rel).
    { intros x Hx Hname. destruct (Hadded x Hx) as (_ & (rel' & Hrel' & Hname') & _).
      apply Hfresh. rewrite <- Hname, Hname'.
      change (map relName rels) with (relName <$> rels).
      apply list_elem_of_fmap_2. assumption. }
    exists (deleted ++ added). split; [rewrite app_assoc; reflexivity|].
    intros d Hd. apply elem_of_app in Hd. destruct Hd as [Hd|Hd].
    + destruct (Hdel d Hd) as (Hin & Hname & rep & Hrin & Hrname & Hrdel & Hsame).
      split_and!; [assumption | exists rel; split; [left | assumption] |].
      exists rep. split_and!; [assumption | congruence | | assumption].
      intros Hbad. apply elem_of_app in Hbad. destruct Hbad as [Hbad|Hbad];
        [contradiction|]. exact (Hother rep Hbad Hrname).
    + destruct (Hadded d Hd) as (Hin & (rel' & Hrel' & Hname') & rep & Hrin & Hrname & Hradd & Hsame).
      split_and!; [assumption | exists rel'; split; [right; assumption | assumption] |].
      exists rep. split_and!; [assumption | assumption | | assumption].
      intros Hbad. apply elem_of_app in Hbad. destruct Hbad as [Hbad|Hbad];
        [|contradiction].
      destruct (Hdel rep Hbad) as (_ & Hname & _).
      apply (Hother d Hd). congruence.
Qed.

Lemma filter_sublist {A : Type} (f : A -> bool) (xs : list A) :
  List.filter f xs `sublist_of` xs.
Proof.
  induction xs as [|x xs IH]; simpl; [constructor|].
  destruct (f x); [apply sublist_skip | apply sublist_cons]; assumption.
Qed.

(** X17. The Local Equivalence Reducer, on a program with distinct
    relation names and pairwise distinct clauses: the relations stay, the
    clauses that remain keep their order, and a clause is deleted only if
    the oracle found it equivalent to a clause with the same head name
    that remains.  The flag tells whether a clause was deleted. *)
Theorem reduceLocallyEquivalentClauses_sound (tu : AstTranslationUnit)
    (changed : bool) (tu' : AstTranslationUnit) :
  NoDup (map relName (getRelations (getProgram tu))) ->
  NoDup (programClauses (getProgram tu)) ->
  reduceLocallyEquivalentClauses tu = Ok (changed, tu') ->
  getRelations (getProgram tu') = getRelations (getProgram tu) /\
  isIO tu' = isIO tu /\
  programClauses (getProgram tu') `sublist_of` programClauses (getProgram tu) /\
  (forall d, d ∈ programClauses (getProgram tu) -> d ∉ programClauses (getProgram tu') ->
     exists rep, rep ∈ programClauses (getProgram tu') /\ headName rep = headName d /\
                 areBijectivelyEquivalent rep d = Ok true) /\
  (changed = true <-> programClauses (getProgram tu') <> programClauses (getProgram tu)).
Proof.
  intros Hnames Hcs Hrun. unfold reduceLocallyEquivalentClauses in Hrun.
  destruct (foldOutcome _ _ _) as [toDelete| |] eqn:E; cbn [bind] in Hrun; try discriminate.
  inversion Hrun; subst changed tu'. clear Hrun.
  destruct (classifyRelations_sound _ _ _ _ Hcs Hnames E) as (added & Heq & Hadded).
  simpl in Heq. subst added.
  unfold withProgram. cbn [getProgram isIO].
  rewrite foldl_removeClause. cbn [getRelations programClauses].
  rewrite foldl_removeFirstClause_filter by assumption.
  split_and!; [reflexivity | reflexivity | apply filter_sublist | |].
  - intros d Hd Hgone.
    assert (Hdel : d ∈ toDelete).
    { apply memClause_elem. destruct (memClause d toDelete) eqn:Em; [reflexivity|].
      exfalso. apply Hgone. apply filter_elem. rewrite Em. split; [assumption | reflexivity]. }
    destruct (Hadded d Hdel) as (_ & _ & rep & Hrin & Hrname & Hrkeep & Hsame).
    exists rep. split_and!; [|assumption|assumption].
    apply filter_elem. split; [assumption|].
    apply negb_true_iff, memClause_false. assumption.
  - rewrite negb_true_iff, bool_decide_eq_false. split.
    + intros Hne Hsame. destruct toDelete as [|d rest]; [contradiction|].
      destruct (Hadded d ltac:(left)) as (Hd & _).
      rewrite <- Hsame in Hd. apply filter_elem in Hd. destruct Hd as [_ Hd].
      apply negb_true_iff, memClause_false in Hd. apply Hd. left.
    + intros Hdiff ->. apply Hdiff. apply filter_all. reflexivity.
Qed.

Lemma reduceLocallyEquivalentClauses_sound_witness :
  programClauses (getProgram (withProgram scenario3Unit
                                (mkProgram (getRelations (getProgram scenario3Unit))
                                           [clauseJoin])))
    `sublist_of` programClauses (getProgram scenario3Unit).
Proof.
  refine (proj1 (proj2 (proj2 (reduceLocallyEquivalentClauses_sound scenario3Unit true _
                                 scenario3_names scenario3_clauses _)))).
  vm_compute. reflexivity.
Defined.

(** ** The Singleton Relation Unifier merges equivalent singletons only *)

Lemma mapInsert_is_Some (m : gmap AstQualifiedName AstQualifiedName)
    (key value k : AstQualifiedName) :
  is_Some (m !! k) \/ k = key -> is_Some (mapInsert m key value !! k).
Proof.
  unfold mapInsert. intros [H| ->].
  - destruct (m !! key) eqn:E; [assumption|].
    destruct (decide (k = key)) as [->|Hne].
    + rewrite lookup_insert_eq. eauto.
    + rewrite lookup_insert_ne by congruence. assumption.
  - destruct (m !! key) eqn:E; [eauto|]. rewrite lookup_insert_eq. eauto.
Qed.

Lemma mergesJustified_mono (singletons processed processed' : list ClausePtr)
    (st : Redundancy) :
  (forall p, p ∈ processed -> p ∈ processed') ->
  mergesJustified singletons processed st -> mergesJustified singletons processed' st.
Proof.
  intros Hsub [Ha Hb]. split; [exact Ha|].
  intros k v Hkv. destruct (Hb k v Hkv) as (p & q & Hp & Hrest).
  exists p, q. split; [apply Hsub; assumption | exact Hrest].
Qed.

Lemma compareWithLater_justified (singletons processed : list ClausePtr)
    (first : ClausePtr) (later : list ClausePtr) :
  forall st st',
    first ∈ processed ->
    (forall q, q ∈ later -> q ∈ singletons) ->
    (forall p q, p ∈ processed -> q ∈ later -> p.1 <> q.1) ->
    first.1 ∉ redundantClauses st ->
    mergesJustified singletons processed st ->
    compareWithLater first later st = Ok st' ->
    mergesJustified singletons processed st'.
Proof.
  induction later as [|second later IH];
    intros st st' Hfirst Hlater Hsep Hfresh Hinv Hrun; simpl in Hrun.
  - inversion Hrun; subst. assumption.
  - destruct (areBijectivelyEquivalent first.2 second.2) as [same| |] eqn:Esame;
      cbn [bind] in Hrun; try discriminate.
    assert (Hlater' : forall q, q ∈ later -> q ∈ singletons).
    { intros q Hq. apply Hlater. right. assumption. }
    assert (Hsep' : forall p q, p ∈ processed -> q ∈ later -> p.1 <> q.1).
    { intros p q Hp Hq. apply Hsep; [assumption | right; assumption]. }
    destruct same; [|eapply IH; eassumption].
    eapply IH; [assumption | assumption | assumption | | | exact Hrun].
    + simpl. intros Hin. apply elem_of_union in Hin. destruct Hin as [Hin|Hin];
        [|contradiction].
      apply elem_of_singleton in Hin. apply (Hsep first second Hfirst); [left | assumption].
    + destruct Hinv as [Ha Hb]. split; simpl.
      * intros i Hi. apply elem_of_union in Hi. destruct Hi as [Hi|Hi].
        -- apply elem_of_singleton in Hi. subst i.
           exists second. split_and!; [apply Hlater; left | reflexivity |].
           apply mapInsert_is_Some. right. reflexivity.
        -- destruct (Ha i Hi) as (q & Hq & Hqi & Hkey).
           exists q. split_and!; [assumption | assumption |].
           apply mapInsert_is_Some. left. assumption.
      * intros k v Hkv. apply mapInsert_lookup in Hkv. destruct Hkv as [Hkv|[-> ->]].
        -- destruct (Hb k v Hkv) as (p & q & Hp & Hq & Hk & Hv & Hqr & Hpr & Heq).
           exists p, q. split_and!; try assumption.
           ++ apply elem_of_union. right. assumption.
           ++ intros Hin. apply elem_of_union in Hin. destruct Hin as [Hin|Hin];
                [|contradiction].
              apply elem_of_singleton in Hin.
              apply (Hsep p second Hp); [left | assumption].
        -- exists first, second. split_and!; try reflexivity; try assumption.
           ++ apply Hlater. left.
           ++ apply elem_of_union. left. apply elem_of_singleton. reflexivity.
           ++ intros Hin. apply elem_of_union in Hin. destruct Hin as [Hin|Hin];
                [|contradiction].
              apply elem_of_singleton in Hin.
              apply (Hsep first second Hfirst); [left | assumption].
Qed.

Lemma comparePairwise_justified (singletons : list ClausePtr) (todo : list ClausePtr) :
  forall processed st st',
    NoDup (map fst (processed ++ todo)) ->
    (forall q, q ∈ todo -> q ∈ singletons) ->
    mergesJustified singletons processed st ->
    comparePairwise todo st = Ok st' ->
    mergesJustified singletons (processed ++ todo) st'.
Proof.
  induction todo as [|first later IH]; intros processed st st' Hnd Htodo Hinv Hrun;
    simpl in Hrun.
  - inversion Hrun; subst. rewrite app_nil_r. assumption.
  - assert (Hlater : forall q, q ∈ later -> q ∈ singletons).
    { intros q Hq. apply Htodo. right. assumption. }
    replace (processed ++ first :: later) with ((processed ++ [first]) ++ later) in *
      by (rewrite <- app_assoc; reflexivity).
    assert (Hmono : mergesJustified singletons (processed ++ [first]) st).
    { eapply mergesJustified_mono; [|exact Hinv].
      intros p Hp. apply elem_of_app. left. assumption. }
    destruct (decide (first.1 ∈ redundantClauses st)) as [Hred|Hfresh].
    + eapply IH; eassumption.
    + destruct (compareWithLater first later st) as [st1| |] eqn:E; cbn [bind] in Hrun;
        try discriminate.
      eapply IH; [assumption | assumption | | exact Hrun].
      eapply compareWithLater_justified; [| | | | exact Hmono | exact E].
      * apply elem_of_app. right. left.
      * assumption.
      * intros p q Hp Hq Heq.
        rewrite map_app in Hnd. apply NoDup_app in Hnd. destruct Hnd as (_ & Hdisj & _).
        apply (Hdisj p.1).
        -- change (map fst ?l) with (fst <$> l). apply list_elem_of_fmap_2. assumption.
        -- rewrite Heq. change (map fst ?l) with (fst <$> l).
           apply list_elem_of_fmap_2. assumption.
      * assumption.
Qed.

(** The singleton clauses of relations with distinct names have distinct
    head names and sit at distinct places. *)
Lemma singletonRelationClausesOf_names_NoDup (io : AstRelation -> bool)
    (program : AstProgram) (rels : list AstRelation) :
  NoDup (map relName rels) ->
  NoDup (map (fun p : ClausePtr => headName p.2)
             (singletonRelationClausesOf io program rels)).
Proof.
  induction rels as [|rel rels IH]; intros Hnd; simpl; [constructor|].
  simpl in Hnd. apply NoDup_cons in Hnd. destruct Hnd as [Hfresh Hnd].
  specialize (IH Hnd).
  destruct (negb (io rel) && (length (getClauses program rel) =? 1)); [|assumption].
  destruct (getClauses program rel) as [|c cs] eqn:Ecs; [assumption|].
  simpl. apply NoDup_cons. split; [|assumption].
  intros Hin. change (map ?f ?l) with (f <$> l) in Hin.
  apply list_elem_of_fmap in Hin. destruct Hin as (q & Hname & Hq).
  apply singletonRelationClausesOf_elem in Hq. destruct Hq as (rel' & Hrel' & _ & Hcs').
  assert (Hq : q ∈ getClauses program rel') by (rewrite Hcs'; left).
  apply getClauses_elem in Hq. destruct Hq as [_ Hqname].
  assert (Hc : c ∈ getClauses program rel) by (rewrite Ecs; left).
  apply getClauses_elem in Hc. destruct Hc as [_ Hcname].
  apply Hfresh. rewrite <- Hcname, Hname, Hqname.
  change (map relName rels) with (relName <$> rels). apply list_elem_of_fmap_2. assumption.
Qed.

Lemma NoDup_map_inj {A B : Type} (f : A -> B) (xs : list A) (x y : A) :
  NoDup (map f xs) -> x ∈ xs -> y ∈ xs -> f x = f y -> x = y.
Proof.
  intros Hnd Hx Hy Heq.
  apply list_elem_of_lookup in Hx, Hy. destruct Hx as [i Hi]. destruct Hy as [j Hj].
  assert (Ei : map f xs !! i = Some (f x)).
  { change (map f xs) with (f <$> xs). rewrite list_lookup_fmap, Hi. reflexivity. }
  assert (Ej : map f xs !! j = Some (f x)).
  { change (map f xs) with (f <$> xs). rewrite list_lookup_fmap, Hj, Heq. reflexivity. }
  assert (i = j) by (eapply NoDup_lookup; eassumption). subst j. congruence.
Qed.

Lemma singletonRelationClausesOf_places_NoDup (io : AstRelation -> bool)
    (program : AstProgram) (rels : list AstRelation) :
  NoDup (map relName rels) ->
  NoDup (map fst (singletonRelationClausesOf io program rels)).
Proof.
  intros Hnd. pose proof (singletonRelationClausesOf_names_NoDup io program rels Hnd) as Hnames.
  set (singletons := singletonRelationClausesOf io program rels) in *.
  assert (Hclause : forall p, p ∈ singletons -> programClauses program !! p.1 = Some p.2).
  { intros p Hp. apply singletonRelationClausesOf_elem in Hp.
    destruct Hp as (rel & _ & _ & Hcs).
    assert (Hin : p ∈ getClauses program rel) by (rewrite Hcs; left).
    apply getClauses_elem in Hin. tauto. }
  assert (Hnd' : NoDup singletons).
  { eapply NoDup_fmap_1. exact Hnames. }
  change (map fst singletons) with (fst <$> singletons).
  apply NoDup_fmap_2_strong; [|assumption].
  intros p q Hp Hq Heq.
  apply (NoDup_map_inj _ _ _ _ Hnames Hp Hq).
  pose proof (Hclause p Hp) as Hpc. pose proof (Hclause q Hq) as Hqc.
  rewrite Heq in Hpc. rewrite Hpc in Hqc. inversion Hqc as [E]. rewrite E. reflexivity.
Qed.

(** What the analysis of the unifier has found when it returns, for
    relations with distinct names. *)
Lemma findRedundantSingletons_justified (tu : AstTranslationUnit)
    (singletons : list ClausePtr) (found : Redundancy) :
  NoDup (map relName (getRelations (getProgram tu))) ->
  findRedundantSingletons tu = Ok (singletons, found) ->
  NoDup (map (fun p : ClausePtr => headName p.2) singletons) /\
  mergesJustified singletons singletons found.
Proof.
  intros Hnd Hfind. unfold findRedundantSingletons in Hfind.
  destruct (comparePairwise _ _) as [found0| |] eqn:Hpairs; cbn [bind] in Hfind;
    try discriminate.
  inversion Hfind; subst singletons found0. clear Hfind.
  split; [apply singletonRelationClausesOf_names_NoDup; assumption|].
  set (singletons := singletonRelationClausesOf (isIO tu) (getProgram tu)
                       (getRelations (getProgram tu))) in *.
  apply (comparePairwise_justified singletons singletons [] (mkRedundancy ∅ ∅) found).
  - simpl. apply singletonRelationClausesOf_places_NoDup. assumption.
  - auto.
  - split; simpl.
    + intros i Hi. apply not_elem_of_empty in Hi. contradiction.
    + intros k v Hkv. rewrite lookup_empty in Hkv. discriminate.
  - exact Hpairs.
Qed.

Lemma reduceSingletonRelations_steps (tu : AstTranslationUnit) (changed : bool)
    (tu' : AstTranslationUnit) :
  reduceSingletonRelations tu = Ok (changed, tu') ->
  exists singletons found program1,
    findRedundantSingletons tu = Ok (singletons, found) /\
    removeRedundantRelations (getProgram tu)
      (map snd (List.filter (fun ptr : ClausePtr =>
                               bool_decide (ptr.1 ∈ redundantClauses found)) singletons))
    = Ok program1 /\
    changed = negb (bool_decide (canonicalName found = ∅)) /\
    tu' = withProgram tu (renameProgram (canonicalName found) program1).
Proof.
  unfold reduceSingletonRelations. intros Hrun.
  destruct (findRedundantSingletons tu) as [[singletons found]| |]; cbn [bind fst snd] in Hrun;
    try discriminate.
  destruct (removeRedundantRelations _ _) as [program1| |] eqn:Hrem; cbn [bind] in Hrun;
    try discriminate.
  inversion Hrun; subst. exists singletons, found, program1. split_and!; auto.
Qed.

(** A relation that goes is headed by a clause marked redundant. *)
Lemma removed_relation_marked (tu : AstTranslationUnit)
    (singletons : list ClausePtr) (found : Redundancy) (program1 : AstProgram)
    (rel : AstRelation) :
  removeRedundantRelations (getProgram tu)
    (map snd (List.filter (fun ptr : ClausePtr =>
                             bool_decide (ptr.1 ∈ redundantClauses found)) singletons))
  = Ok program1 ->
  rel ∈ getRelations (getProgram tu) -> rel ∉ getRelations program1 ->
  exists q, q ∈ singletons /\ q.1 ∈ redundantClauses found /\ headName q.2 = relName rel.
Proof.
  intros Hrem Hrel Hgone.
  apply removeRedundantRelations_frame in Hrem. destruct Hrem as (Hkeep & _).
  set (marked := List.filter (fun ptr : ClausePtr =>
                                bool_decide (ptr.1 ∈ redundantClauses found)) singletons) in *.
  destruct (decide (relName rel ∈ (fun q : ClausePtr => headName q.2) <$> marked))
    as [Hin|Hout].
  - apply list_elem_of_fmap in Hin. destruct Hin as (q & Hname & Hq).
    apply filter_elem in Hq. destruct Hq as [Hq Hmark]. apply bool_decide_eq_true in Hmark.
    exists q. split_and!; auto.
  - exfalso. apply Hgone. apply Hkeep; [assumption|].
    intros clause Hclause Hname. apply Hout.
    change (map snd marked) with (snd <$> marked) in Hclause.
    apply list_elem_of_fmap in Hclause. destruct Hclause as (q & -> & Hq).
    apply list_elem_of_fmap. exists q. split; assumption.
Qed.

(** A relation whose singleton clause is not marked stays. *)
Lemma unmarked_relation_stays (tu : AstTranslationUnit)
    (singletons : list ClausePtr) (found : Redundancy) (program1 : AstProgram)
    (rel : AstRelation) (p : ClausePtr) :
  NoDup (map (fun p : ClausePtr => headName p.2) singletons) ->
  removeRedundantRelations (getProgram tu)
    (map snd (List.filter (fun ptr : ClausePtr =>
                             bool_decide (ptr.1 ∈ redundantClauses found)) singletons))
  = Ok program1 ->
  rel ∈ getRelations (getProgram tu) ->
  p ∈ singletons -> headName p.2 = relName rel -> p.1 ∉ redundantClauses found ->
  rel ∈ getRelations program1.
Proof.
  intros Hnames Hrem Hrel Hp Hname Hfresh.
  apply removeRedundantRelations_frame in Hrem. destruct Hrem as (Hkeep & _).
  apply Hkeep; [assumption|].
  intros clause Hclause Hsame.
  change (map snd ?l) with (snd <$> l) in Hclause.
  apply list_elem_of_fmap in Hclause. destruct Hclause as (q & -> & Hq).
  apply filter_elem in Hq. destruct Hq as [Hq Hmark]. apply bool_decide_eq_true in Hmark.
  assert (p = q).
  { apply (NoDup_map_inj _ _ _ _ Hnames Hp Hq). simpl. congruence. }
  subst q. contradiction.
Qed.

(** X18. The Singleton Relation Unifier, on a program with distinct
    relation names, removes a relation only if it is not I/O, has a single
    clause, and the oracle found that clause equivalent to the single
    clause of another relation that is not I/O and that stays in the
    program. *)
Theorem reduceSingletonRelations_merges_equivalent (tu : AstTranslationUnit)
    (changed : bool) (tu' : AstTranslationUnit) (rel : AstRelation) :
  NoDup (map relName (getRelations (getProgram tu))) ->
  reduceSingletonRelations tu = Ok (changed, tu') ->
  rel ∈ getRelations (getProgram tu) ->
  rel ∉ getRelations (getProgram tu') ->
  exists survivor p q,
    survivor ∈ getRelations (getProgram tu') /\
    isIO tu survivor = false /\ isIO tu rel = false /\
    getClauses (getProgram tu) survivor = [p] /\
    getClauses (getProgram tu) rel = [q] /\
    areBijectivelyEquivalent p.2 q.2 = Ok true.
Proof.
  intros Hnd Hrun Hrel Hgone.
  destruct (reduceSingletonRelations_steps _ _ _ Hrun)
    as (singletons & found & program1 & Hfind & Hrem & _ & ->).
  cbn [withProgram getProgram renameProgram getRelations] in Hgone |- *.
  destruct (findRedundantSingletons_justified tu singletons found Hnd Hfind)
    as [Hnames [Ha Hb]].
  assert (Hsing : forall ptr, ptr ∈ singletons ->
            exists r, r ∈ getRelations (getProgram tu) /\ isIO tu r = false /\
                      getClauses (getProgram tu) r = [ptr] /\ headName ptr.2 = relName r).
  { intros ptr Hptr. unfold findRedundantSingletons in Hfind.
    destruct (comparePairwise _ _) as [found0| |]; cbn [bind] in Hfind; try discriminate.
    inversion Hfind; subst singletons found0.
    apply singletonRelationClausesOf_elem in Hptr.
    destruct Hptr as (r & Hr & Hio & Hcs). exists r. split_and!; auto.
    assert (Hin : ptr ∈ getClauses (getProgram tu) r) by (rewrite Hcs; left).
    apply getClauses_elem in Hin. tauto. }
  destruct (removed_relation_marked tu singletons found program1 rel Hrem Hrel Hgone)
    as (q & Hq & Hmark & Hqname).
  destruct (Ha _ Hmark) as (q0 & Hq0 & Hidx & [v Hkey]).
  destruct (Hb _ _ Hkey) as (p & q1 & Hp & Hq1 & Hk & Hv & _ & Hfresh & Hsame).
  assert (Hq0q : q0 = q).
  { unfold findRedundantSingletons in Hfind.
    destruct (comparePairwise _ _) as [found0| |]; cbn [bind] in Hfind; try discriminate.
    inversion Hfind; subst singletons found0.
    pose proof (singletonRelationClausesOf_places_NoDup (isIO tu) (getProgram tu) _ Hnd)
      as Hplaces.
    apply (NoDup_map_inj _ _ _ _ Hplaces Hq0 Hq). assumption. }
  subst q0.
  assert (q1 = q).
  { apply (NoDup_map_inj _ _ _ _ Hnames Hq1 Hq). simpl. congruence. }
  subst q1.
  destruct (Hsing p Hp) as (survivor & Hsurv & Hsio & Hscs & Hsname).
  destruct (Hsing q Hq) as (rel' & Hrel' & Hrio & Hrcs & Hrname).
  assert (rel' = rel).
  { eapply same_name_same_relation; try eassumption. congruence. }
  subst rel'.
  exists survivor, p, q. split_and!; auto.
  exact (unmarked_relation_stays tu singletons found program1 survivor p
           Hnames Hrem Hsurv Hp Hsname Hfresh).
Qed.

Lemma cascade_names : NoDup (map relName (getRelations (getProgram cascade))).
Proof. exact (proj1 cascade_wellFormed). Qed.

Lemma relationB_removed :
  relation1 "B" ∈ getRelations (getProgram cascade) /\
  relation1 "B" ∉ getRelations (getProgram (mkTU cascadeAfterOne onlyC)).
Proof.
  split.
  - right. left.
  - intros H. simpl in H.
    repeat (apply elem_of_cons in H; destruct H as [H|H]; [discriminate H|]).
    apply elem_of_nil in H. contradiction.
Qed.

Lemma reduceSingletonRelations_merges_equivalent_witness :
  exists survivor p q,
    survivor ∈ getRelations (getProgram (mkTU cascadeAfterOne onlyC)) /\
    isIO cascade survivor = false /\ isIO cascade (relation1 "B") = false /\
    getClauses (getProgram cascade) survivor = [p] /\
    getClauses (getProgram cascade) (relation1 "B") = [q] /\
    areBijectivelyEquivalent p.2 q.2 = Ok true.
Proof.
  apply (reduceSingletonRelations_merges_equivalent cascade true
           (mkTU cascadeAfterOne onlyC) (relation1 "B")).
  - exact cascade_names.
  - vm_compute. reflexivity.
  - exact (proj1 relationB_removed).
  - exact (proj2 relationB_removed).
Defined.

Lemma atomsOfClause_rename (names : gmap AstQualifiedName AstQualifiedName)
    (clause : AstClause) :
  atomsOfClause (renameClause names clause) = map (renameAtom names) (atomsOfClause clause).
Proof.
  unfold atomsOfClause, renameClause. cbn [getHead getBodyLiterals map]. f_equal.
  induction (getBodyLiterals clause) as [|lit lits IH]; [reflexivity|].
  destruct lit; cbn [map renameLiteral omap list_omap literalAtom] in *;
    rewrite ?IH; reflexivity.
Qed.

Lemma renameAtom_not_key (names : gmap AstQualifiedName AstQualifiedName)
    (a : AstAtom) (k : AstQualifiedName) :
  (forall k' v, names !! k' = Some v -> names !! v = None) ->
  is_Some (names !! k) ->
  getQualifiedName (renameAtom names a) <> k.
Proof.
  intros Hvalues [w Hk]. unfold renameAtom.
  destruct (names !! getQualifiedName a) as [v|] eqn:E; simpl.
  - intros ->. rewrite (Hvalues _ _ E) in Hk. discriminate.
  - intros Heq. rewrite Heq in E. congruence.
Qed.

(** X19. The Singleton Relation Unifier leaves no reference to a relation
    it removes: in a program with distinct relation names, no atom of the
    resulting clauses, in a head or in a body literal, negated or not,
    carries the name of a removed relation. *)
Theorem reduceSingletonRelations_no_dangling_reference (tu : AstTranslationUnit)
    (changed : bool) (tu' : AstTranslationUnit) (rel : AstRelation)
    (clause : AstClause) (a : AstAtom) :
  NoDup (map relName (getRelations (getProgram tu))) ->
  reduceSingletonRelations tu = Ok (changed, tu') ->
  rel ∈ getRelations (getProgram tu) ->
  rel ∉ getRelations (getProgram tu') ->
  clause ∈ programClauses (getProgram tu') ->
  a ∈ atomsOfClause clause ->
  getQualifiedName a <> relName rel.
Proof.
  intros Hnd Hrun Hrel Hgone Hclause Hatom.
  destruct (reduceSingletonRelations_steps _ _ _ Hrun)
    as (singletons & found & program1 & Hfind & Hrem & _ & ->).
  cbn [withProgram getProgram renameProgram getRelations programClauses] in Hgone, Hclause.
  destruct (findRedundantSingletons_justified tu singletons found Hnd Hfind)
    as [Hnames [Ha Hb]].
  destruct (removed_relation_marked tu singletons found program1 rel Hrem Hrel Hgone)
    as (q & Hq & Hmark & Hqname).
  destruct (Ha _ Hmark) as (q0 & Hq0 & Hidx & Hkey).
  assert (Hq0name : headName q0.2 = relName rel).
  { destruct Hkey as [v Hkey].
    destruct (Hb _ _ Hkey) as (p & q1 & _ & Hq1 & Hk & _ & Hq1mark & _).
    assert (q1 = q0) by (apply (NoDup_map_inj _ _ _ _ Hnames Hq1 Hq0); simpl; congruence).
    subst q1. unfold findRedundantSingletons in Hfind.
    destruct (comparePairwise _ _) as [found0| |]; cbn [bind] in Hfind; try discriminate.
    inversion Hfind; subst singletons found0.
    pose proof (singletonRelationClausesOf_places_NoDup (isIO tu) (getProgram tu) _ Hnd)
      as Hplaces.
    rewrite (NoDup_map_inj _ _ _ _ Hplaces Hq0 Hq Hidx). assumption. }
  rewrite Hq0name in Hkey.
  change (map ?f ?l) with (f <$> l) in Hclause.
  apply list_elem_of_fmap in Hclause. destruct Hclause as (c1 & -> & _).
  rewrite atomsOfClause_rename in Hatom.
  change (map ?f ?l) with (f <$> l) in Hatom.
  apply list_elem_of_fmap in Hatom. destruct Hatom as (a1 & -> & _).
  apply renameAtom_not_key; [|assumption].
  intros k' v Hkv. destruct (canonicalName found !! v) as [w|] eqn:Ev; [|reflexivity].
  exfalso.
  destruct (Hb _ _ Hkv) as (p & _ & Hp & _ & _ & Hv & _ & Hfresh & _).
  destruct (Hb _ _ Ev) as (_ & q2 & _ & Hq2 & Hk2 & _ & Hq2mark & _).
  assert (p = q2) by (apply (NoDup_map_inj _ _ _ _ Hnames Hp Hq2); simpl; congruence).
  subst q2. contradiction.
Qed.

Lemma reduceSingletonRelations_no_dangling_reference_witness :
  getQualifiedName (mkAtom ["A"] [var "x"]) <> relName (relation1 "B").
Proof.
  apply (reduceSingletonRelations_no_dangling_reference cascade true
           (mkTU cascadeAfterOne onlyC) (relation1 "B")
           (rule "Q" [var "x"] [atom "A" [var "x"]]) (mkAtom ["A"] [var "x"])).
  - exact cascade_names.
  - vm_compute. reflexivity.
  - exact (proj1 relationB_removed).
  - exact (proj2 relationB_removed).
  - right. right. left.
  - right. left.
Defined.

(** ** The change flags and the size of the program *)

Lemma withProgram_same (tu : AstTranslationUnit) : withProgram tu (getProgram tu) = tu.
Proof. destruct tu. reflexivity. Qed.

Lemma filter_none_all {A : Type} (xs : list A) : List.filter (fun _ => false) xs = [].
Proof. induction xs as [|x xs IH]; [reflexivity | exact IH]. Qed.

Lemma reduceClauseBodies_false (tu : AstTranslationUnit) :
  (reduceClauseBodies tu).1 = false -> (reduceClauseBodies tu).2 = tu.
Proof.
  unfold reduceClauseBodies. cbn [fst snd].
  rewrite negb_false_iff, bool_decide_eq_true. intros Hnil.
  rewrite Hnil. cbn [foldl].
  rewrite changes_added in Hnil.
  rewrite changes_removed.
  rewrite (filter_ext_elem _ (fun _ => false)), filter_none_all; [apply withProgram_same|].
  intros c Hc. apply negb_false_iff, bool_decide_eq_true.
  destruct (minimisedClauseOf c) as [c'|] eqn:E; [|reflexivity].
  assert (Hin : c' ∈ omap minimisedClauseOf (programClauses (getProgram tu))).
  { apply list_elem_of_omap. exists c. split; assumption. }
  rewrite Hnil in Hin. apply elem_of_nil in Hin. contradiction.
Qed.

Lemma removeRedundantClauses_false (tu : AstTranslationUnit) :
  (removeRedundantClauses tu).1 = false -> (removeRedundantClauses tu).2 = tu.
Proof.
  unfold removeRedundantClauses. cbn [fst snd].
  rewrite negb_false_iff, bool_decide_eq_true. intros ->. apply withProgram_same.
Qed.

Lemma reduceLocallyEquivalentClauses_false (tu tu' : AstTranslationUnit) :
  reduceLocallyEquivalentClauses tu = Ok (false, tu') -> tu' = tu.
Proof.
  unfold reduceLocallyEquivalentClauses.
  destruct (foldOutcome _ _ _) as [toDelete| |]; cbn [bind]; try discriminate.
  intros H. inversion H as [[Hflag Htu]].
  apply negb_false_iff, bool_decide_eq_true in Hflag. subst toDelete.
  apply withProgram_same.
Qed.

Lemma compareWithLater_marks (first : ClausePtr) (later : list ClausePtr) :
  forall st st',
    (canonicalName st = ∅ -> redundantClauses st = ∅) ->
    compareWithLater first later st = Ok st' ->
    canonicalName st' = ∅ -> redundantClauses st' = ∅.
Proof.
  induction later as [|second later IH]; intros st st' Hinv Hrun; simpl in Hrun.
  - inversion Hrun; subst. assumption.
  - destruct (areBijectivelyEquivalent first.2 second.2) as [same| |];
      cbn [bind] in Hrun; try discriminate.
    eapply IH; [|exact Hrun]. destruct same; [|assumption].
    simpl. intros Hempty. exfalso.
    destruct (mapInsert_is_Some (canonicalName st)
                (getQualifiedName (getHead second.2)) (getQualifiedName (getHead first.2))
                (getQualifiedName (getHead second.2)) (or_intror eq_refl)) as [v Hv].
    rewrite Hempty, lookup_empty in Hv. discriminate.
Qed.

Lemma comparePairwise_marks (todo : list ClausePtr) :
  forall st st',
    (canonicalName st = ∅ -> redundantClauses st = ∅) ->
    comparePairwise todo st = Ok st' ->
    canonicalName st' = ∅ -> redundantClauses st' = ∅.
Proof.
  induction todo as [|first later IH]; intros st st' Hinv Hrun; simpl in Hrun.
  - inversion Hrun; subst. assumption.
  - destruct (decide (first.1 ∈ redundantClauses st)).
    + eapply IH; eassumption.
    + destruct (compareWithLater first later st) as [st1| |] eqn:E; cbn [bind] in Hrun;
        try discriminate.
      eapply IH; [|exact Hrun]. eapply compareWithLater_marks; eassumption.
Qed.

Lemma renameClause_empty (clause : AstClause) : renameClause ∅ clause = clause.
Proof.
  unfold renameClause, renameAtom. rewrite lookup_empty.
  destruct clause as [h body]. cbn [getHead getBodyLiterals]. f_equal.
  induction body as [|lit lits IH]; [reflexivity|].
  cbn [map]. rewrite IH. f_equal.
  destruct lit; simpl; unfold renameAtom; rewrite ?lookup_empty; reflexivity.
Qed.

Lemma renameProgram_empty (program : AstProgram) : renameProgram ∅ program = program.
Proof.
  unfold renameProgram. destruct program as [rels cs]. cbn [getRelations programClauses].
  f_equal. induction cs as [|c cs IH]; [reflexivity|].
  cbn [map]. rewrite renameClause_empty, IH. reflexivity.
Qed.

Lemma filter_unmarked (singletons : list ClausePtr) :
  List.filter (fun ptr : ClausePtr => bool_decide (ptr.1 ∈ (∅ : gset nat))) singletons = [].
Proof.
  induction singletons as [|p ps IH]; [reflexivity|].
  cbn [List.filter]. rewrite bool_decide_eq_false_2 by apply not_elem_of_empty. exact IH.
Qed.

Lemma reduceSingletonRelations_false (tu tu' : AstTranslationUnit) :
  reduceSingletonRelations tu = Ok (false, tu') -> tu' = tu.
Proof.
  intros Hrun.
  destruct (reduceSingletonRelations_steps _ _ _ Hrun)
    as (singletons & found & program1 & Hfind & Hrem & Hflag & ->).
  symmetry in Hflag. apply negb_false_iff, bool_decide_eq_true in Hflag.
  assert (Hnone : redundantClauses found = ∅).
  { unfold findRedundantSingletons in Hfind.
    destruct (comparePairwise _ _) as [found0| |] eqn:Hpairs; cbn [bind] in Hfind;
      try discriminate.
    inversion Hfind; subst found0.
    eapply comparePairwise_marks; [|exact Hpairs|exact Hflag]. reflexivity. }
  rewrite Hnone, filter_unmarked in Hrem. simpl in Hrem. inversion Hrem; subst program1.
  rewrite Hflag, renameProgram_empty. apply withProgram_same.
Qed.

(** X20. A change flag that is false tells the truth: each of the four
    sub-passes that returns false hands back the translation unit it was
    given, and so does the driver. *)
Theorem false_flag_means_unchanged (tu tu' : AstTranslationUnit) :
  ((reduceClauseBodies tu).1 = false -> (reduceClauseBodies tu).2 = tu) /\
  ((removeRedundantClauses tu).1 = false -> (removeRedundantClauses tu).2 = tu) /\
  (reduceLocallyEquivalentClauses tu = Ok (false, tu') -> tu' = tu) /\
  (reduceSingletonRelations tu = Ok (false, tu') -> tu' = tu) /\
  (transform tu = Ok (false, tu') -> tu' = tu).
Proof.
  split_and!.
  - apply reduceClauseBodies_false.
  - apply removeRedundantClauses_false.
  - apply reduceLocallyEquivalentClauses_false.
  - apply reduceSingletonRelations_false.
  - intros Hrun.
    destruct (proj2 (transform_in_order tu) false tu' Hrun)
      as (c1 & tu1 & c2 & tu2 & c3 & tu3 & c4 & H1 & H2 & H3 & H4 & Hflag).
    symmetry in Hflag. apply orb_false_elim in Hflag. destruct Hflag as [Hflag ->].
    apply orb_false_elim in Hflag. destruct Hflag as [Hflag ->].
    apply orb_false_elim in Hflag. destruct Hflag as [-> ->].
    apply reduceSingletonRelations_false in H4. subst tu'.
    apply reduceLocallyEquivalentClauses_false in H3. subst tu3.
    pose proof (removeRedundantClauses_false tu1) as E2. rewrite H2 in E2.
    specialize (E2 eq_refl). simpl in E2. subst tu2.
    pose proof (reduceClauseBodies_false tu) as E1. rewrite H1 in E1.
    specialize (E1 eq_refl). simpl in E1. subst tu1. reflexivity.
Qed.

Lemma false_flag_means_unchanged_witness :
  (reduceClauseBodies (mkTU cascadeAfterTwo onlyC)).2 = mkTU cascadeAfterTwo onlyC /\
  (removeRedundantClauses (mkTU cascadeAfterTwo onlyC)).2 = mkTU cascadeAfterTwo onlyC /\
  mkTU cascadeAfterTwo onlyC = mkTU cascadeAfterTwo onlyC.
Proof.
  destruct (false_flag_means_unchanged (mkTU cascadeAfterTwo onlyC)
                                       (mkTU cascadeAfterTwo onlyC))
    as (H1 & H2 & _ & _ & H5).
  split_and!.
  - apply H1. vm_compute. reflexivity.
  - apply H2. vm_compute. reflexivity.
  - apply H5. vm_compute. reflexivity.
Defined.

Lemma removeFirstClause_sublist (cs : list AstClause) (clause : AstClause) :
  removeFirstClause cs clause `sublist_of` cs.
Proof.
  induction cs as [|c cs IH]; simpl; [constructor|].
  destruct (Clause_eqb c clause); [apply sublist_cons; reflexivity | apply sublist_skip, IH].
Qed.

Lemma foldl_removeFirstClause_sublist (toRemove : list AstClause) :
  forall cs, foldl removeFirstClause cs toRemove `sublist_of` cs.
Proof.
  induction toRemove as [|d ds IH]; intros cs; simpl; [reflexivity|].
  etransitivity; [apply IH | apply removeFirstClause_sublist].
Qed.

Lemma removeFirstRelation_sublist (rels : list AstRelation) (name : AstQualifiedName) :
  removeFirstRelation rels name `sublist_of` rels.
Proof.
  induction rels as [|r rels IH]; simpl; [constructor|].
  destruct (bool_decide (relName r = name));
    [apply sublist_cons; reflexivity | apply sublist_skip, IH].
Qed.

Lemma removeRedundantRelations_sublist (redundant : list AstClause) :
  forall program program',
    removeRedundantRelations program redundant = Ok program' ->
    getRelations program' `sublist_of` getRelations program /\
    programClauses program' `sublist_of` programClauses program.
Proof.
  induction redundant as [|clause rest IH]; intros program program' Hrun; simpl in Hrun.
  - inversion Hrun; subst. split; reflexivity.
  - destruct (getRelation program _); [|discriminate].
    apply IH in Hrun. destruct Hrun as [Hrels Hcs]. simpl in Hrels, Hcs. split.
    + etransitivity; [exact Hrels | apply removeFirstRelation_sublist].
    + etransitivity; [exact Hcs | apply removeFirstClause_sublist].
Qed.

Lemma dedup_length (cs : list AstClause) :
  length (List.filter (fun c => bool_decide (minimisedClauseOf c = None)) cs)
  + length (omap minimisedClauseOf cs) = length cs.
Proof.
  induction cs as [|c cs IH]; [reflexivity|].
  cbn [List.filter omap list_omap]. destruct (minimisedClauseOf c) as [c'|].
  - rewrite bool_decide_eq_false_2 by discriminate. simpl. lia.
  - rewrite bool_decide_eq_true_2 by reflexivity. simpl. lia.
Qed.

Lemma reduceClauseBodies_size (tu : AstTranslationUnit) :
  getRelations (getProgram (reduceClauseBodies tu).2) = getRelations (getProgram tu) /\
  isIO (reduceClauseBodies tu).2 = isIO tu /\
  length (programClauses (getProgram (reduceClauseBodies tu).2))
  = length (programClauses (getProgram tu)).
Proof.
  unfold reduceClauseBodies, withProgram. cbn [fst snd getProgram isIO].
  rewrite foldl_addClause, foldl_removeClause. cbn [getRelations programClauses].
  rewrite changes_removed, changes_added, remove_filtered.
  split_and!; [reflexivity | reflexivity |].
  rewrite length_app.
  rewrite (filter_ext_elem _ (fun c => bool_decide (minimisedClauseOf c = None))).
  - apply dedup_length.
  - intros c _. rewrite negb_involutive. reflexivity.
Qed.

Lemma removeRedundantClauses_size (tu : AstTranslationUnit) :
  getRelations (getProgram (removeRedundantClauses tu).2) = getRelations (getProgram tu) /\
  isIO (removeRedundantClauses tu).2 = isIO tu /\
  programClauses (getProgram (removeRedundantClauses tu).2)
    `sublist_of` programClauses (getProgram tu).
Proof.
  rewrite removeRedundantClauses_filter. cbn [snd getProgram getRelations programClauses isIO].
  split_and!; [reflexivity | reflexivity | apply filter_sublist].
Qed.

Lemma reduceLocallyEquivalentClauses_size (tu : AstTranslationUnit) (changed : bool)
    (tu' : AstTranslationUnit) :
  reduceLocallyEquivalentClauses tu = Ok (changed, tu') ->
  getRelations (getProgram tu') = getRelations (getProgram tu) /\
  isIO tu' = isIO tu /\
  programClauses (getProgram tu') `sublist_of` programClauses (getProgram tu).
Proof.
  unfold reduceLocallyEquivalentClauses.
  destruct (foldOutcome _ _ _) as [toDelete| |]; cbn [bind]; try discriminate.
  intros H. inversion H; subst. unfold withProgram. cbn [getProgram isIO].
  rewrite foldl_removeClause. cbn [getRelations programClauses].
  split_and!; [reflexivity | reflexivity | apply foldl_removeFirstClause_sublist].
Qed.

Lemma reduceSingletonRelations_size (tu : AstTranslationUnit) (changed : bool)
    (tu' : AstTranslationUnit) :
  reduceSingletonRelations tu = Ok (changed, tu') ->
  getRelations (getProgram tu') `sublist_of` getRelations (getProgram tu) /\
  isIO tu' = isIO tu /\
  length (programClauses (getProgram tu')) <= length (programClauses (getProgram tu)).
Proof.
  intros Hrun.
  destruct (reduceSingletonRelations_steps _ _ _ Hrun)
    as (singletons & found & program1 & _ & Hrem & _ & ->).
  apply removeRedundantRelations_sublist in Hrem. destruct Hrem as [Hrels Hcs].
  unfold withProgram, renameProgram. cbn [getProgram getRelations programClauses isIO].
  split_and!; [assumption | reflexivity |].
  rewrite length_map. apply sublist_length. assumption.
Qed.

(** X21. The minimiser never makes a program larger: after the driver the
    relations are a subsequence of the relations before, there are at most
    as many clauses as before, and the I/O oracle is the same. *)
Theorem transform_never_grows (tu : AstTranslationUnit) (changed : bool)
    (tu' : AstTranslationUnit) :
  transform tu = Ok (changed, tu') ->
  getRelations (getProgram tu') `sublist_of` getRelations (getProgram tu) /\
  length (programClauses (getProgram tu')) <= length (programClauses (getProgram tu)) /\
  isIO tu' = isIO tu.
Proof.
  intros Hrun.
  destruct (proj2 (transform_in_order tu) changed tu' Hrun)
    as (c1 & tu1 & c2 & tu2 & c3 & tu3 & c4 & H1 & H2 & H3 & H4 & _).
  pose proof (reduceClauseBodies_size tu) as (R1 & I1 & L1). rewrite H1 in R1, I1, L1.
  pose proof (removeRedundantClauses_size tu1) as (R2 & I2 & L2). rewrite H2 in R2, I2, L2.
  destruct (reduceLocallyEquivalentClauses_size _ _ _ H3) as (R3 & I3 & L3).
  destruct (reduceSingletonRelations_size _ _ _ H4) as (R4 & I4 & L4).
  cbn [snd] in *. apply sublist_length in L2, L3.
  split_and!.
  - rewrite <- R1, <- R2, <- R3. assumption.
  - lia.
  - congruence.
Qed.

Lemma transform_never_grows_witness :
  getRelations (getProgram (mkTU cascadeAfterOne onlyC))
    `sublist_of` getRelations (getProgram cascade) /\
  length (programClauses (getProgram (mkTU cascadeAfterOne onlyC)))
    <= length (programClauses (getProgram cascade)) /\
  isIO (mkTU cascadeAfterOne onlyC) = isIO cascade.
Proof.
  apply (transform_never_grows cascade true (mkTU cascadeAfterOne onlyC)).
  vm_compute. reflexivity.
Defined.

(** X22. The driver never removes an I/O relation: in a program with
    distinct relation names, a relation the I/O oracle flags is still a
    relation of the program after the four sub-passes. *)
Theorem transform_keeps_io_relations (tu : AstTranslationUnit) (changed : bool)
    (tu' : AstTranslationUnit) (rel : AstRelation) :
  NoDup (map relName (getRelations (getProgram tu))) ->
  transform tu = Ok (changed, tu') ->
  rel ∈ getRelations (getProgram tu) -> isIO tu rel = true ->
  rel ∈ getRelations (getProgram tu').
Proof.
  intros Hnd Hrun Hrel Hio.
  destruct (proj2 (transform_in_order tu) changed tu' Hrun)
    as (c1 & tu1 & c2 & tu2 & c3 & tu3 & c4 & H1 & H2 & H3 & H4 & _).
  pose proof (reduceClauseBodies_size tu) as (R1 & I1 & _). rewrite H1 in R1, I1.
  pose proof (removeRedundantClauses_size tu1) as (R2 & I2 & _). rewrite H2 in R2, I2.
  destruct (reduceLocallyEquivalentClauses_size _ _ _ H3) as (R3 & I3 & _).
  cbn [snd] in *.
  assert (R : getRelations (getProgram tu3) = getRelations (getProgram tu)) by congruence.
  assert (I : isIO tu3 = isIO tu) by congruence.
  destruct (reduceSingletonRelations_steps _ _ _ H4)
    as (singletons & found & program1 & Hfind & _ & _ & _).
  rewrite <- R in Hnd, Hrel. rewrite <- I in Hio.
  destruct (singleton_unifier_frame tu3 singletons found c4 tu' Hnd Hfind H4)
    as (_ & _ & Hframe).
  destruct (Hframe rel Hrel Hio) as (_ & _ & _ & Hstay & _). exact Hstay.
Qed.

Lemma transform_keeps_io_relations_witness :
  relation1 "C" ∈ getRelations (getProgram (mkTU cascadeAfterOne onlyC)).
Proof.
  apply (transform_keeps_io_relations cascade true (mkTU cascadeAfterOne onlyC)
           (relation1 "C")).
  - exact cascade_names.
  - vm_compute. reflexivity.
  - do 4 right. left.
  - vm_compute. reflexivity.
Defined.

(** ** The checker on vectors the enumerator never returns *)

Lemma invertPermutation_out_of_bounds (bodyPermutation : list N) :
  forall i reorderedPermutation target,
    target ∈ bodyPermutation ->
    (N.of_nat (length reorderedPermutation) <= target)%N ->
    invertPermutation bodyPermutation i reorderedPermutation = Undefined.
Proof.
  induction bodyPermutation as [|t rest IH]; intros i r target Hin Hbig.
  - apply elem_of_nil in Hin. contradiction.
  - simpl. unfold vecSetN.
    destruct (decide (t < N.of_nat (length r))%N) as [Hlt|Hge]; [|reflexivity].
    unfold vecSet. rewrite decide_True by lia. cbn [bind].
    apply elem_of_cons in Hin. destruct Hin as [->|Hin]; [lia|].
    apply (IH _ _ target Hin). rewrite length_insert. assumption.
Qed.

(** X23. The checker relies on the shape of the vectors the enumerator
    returns.  On an empty vector it reads past the end; on a vector that
    sends a body position to position 0, the head, the decrement [i -= 1]
    wraps around to [2^32 - 1] and the write into [reorderedPermutation]
    is out of bounds.  Both are undefined behaviour. *)
Theorem isValidPermutation_needs_body_positions (left right : AstClause)
    (first : nat) (tail : list nat) :
  isValidPermutation left right [] = Undefined /\
  (0 ∈ tail -> (N.of_nat (length tail) <= UINT_MAX)%N ->
   isValidPermutation left right (first :: tail) = Undefined).
Proof.
  split; [reflexivity|].
  intros Hzero Hlen. unfold isValidPermutation, checkPermutation.
  rewrite (invertPermutation_out_of_bounds _ _ _ UINT_MAX); [reflexivity| |].
  - change UINT_MAX with (uintPred 0). change (map uintPred tail) with (uintPred <$> tail).
    apply list_elem_of_fmap_2. assumption.
  - rewrite length_replicate, length_map. assumption.
Qed.

Lemma isValidPermutation_needs_body_positions_witness :
  isValidPermutation clauseA clauseB [0; 0] = Undefined.
Proof.
  apply (proj2 (isValidPermutation_needs_body_positions clauseA clauseB 0 [0])).
  - left.
  - vm_compute. discriminate.
Defined.

Lemma areBijectivelyEquivalent_symmetric_without_nil_witness :
  areBijectivelyEquivalent clauseJoin clauseJoinSwapped
  = areBijectivelyEquivalent clauseJoinSwapped clauseJoin.
Proof.
  apply (areBijectivelyEquivalent_symmetric_without_nil clauseJoin clauseJoinSwapped).
  - exact clauseJoin_arities.
  - exact clauseJoin_nilFree.
  - exact clauseJoinSwapped_nilFree.
  - exact clauseJoin_named.
  - exact clauseJoinSwapped_named.
Defined.
